(** * Antigravity Live Preview: tab store, debounce scheduler and resource resolver

    A shallow embedding of [src/multiTabPreviewPanel.ts] (class
    [MultiTabPreviewPanel]), of the commands of [src/extension.ts] and
    of the older side-bar generation [PreviewViewProvider], followed by
    the properties of the specification that were checked against them
    and by further properties of the code: of the store, of the
    debounce timer, of the escaping and framing of a document, of the
    page and of the resolver.

    Conventions of the embedding:
    - [this] is passed explicitly: a method [m(args)] of the class is a
      function [m args p] from the object's fields before the call to the
      fields after it;
    - the host (VS Code) is an input: the focused editor is an argument
      of every method that reads [vscode.window.activeTextEditor], the
      file system and the URI mapping are arguments of the resolver;
    - [_update()] only assigns the rendered page to
      [this._panel.webview.html]; it reads the fields and writes none of
      them, so it does not appear in the state of the store;
    - [_tabCounter] is a JavaScript number that only ever holds the
      integers 0, 1, 2, ...; it is modelled by [nat]. *)

From stdpp Require Import base decidable option list strings pretty.
From Stdlib Require Import ZArith NArith Ascii Lia.


(** ** The data model *)

(** [interface PreviewTab]; a [vscode.Uri] is represented by its path. *)
Record PreviewTab := mkTab {
  id : string;
  title : string;
  uri : option string;
  content : string
}.

(** What the methods read of [vscode.window.activeTextEditor.document]. *)
Record TextDocument := mkDoc {
  doc_uri : string;
  fileName : string;
  languageId : string;
  getText : string
}.

(** The mutable fields of the class. *)
Record Panel := mkPanel {
  _tabs : list PreviewTab;
  _activeTabId : string;
  _tabCounter : nat
}.

(** Field initialisers of the class: [[]], [''] and [0]. *)
Definition fields0 : Panel := mkPanel [] "" 0.

(** The template literals [`tab-${n}`] and [`Tab ${n}`]. *)
Definition tab_id_of (n : nat) : string := "tab-" +:+ pretty n.
Definition tab_title_of (n : nat) : string := "Tab " +:+ pretty n.

(** The ids in the store, in tab order. *)
Definition ids (p : Panel) : list string := id <$> _tabs p.

Section Store.

(** [path.basename] of Node's [path] module. *)
Variable basename : string → string.

(** ** [MultiTabPreviewPanel] *)

(** [_updateActiveTabFromEditor()]: [find] returns the first tab with the
    active id, and the three assignments mutate that element in place. *)
Definition _updateActiveTabFromEditor (editor : option TextDocument) (p : Panel) : Panel :=
  match editor with
  | None => p
  | Some document =>
      if decide (languageId document ≠ "html") then p
      else
        match list_find (λ t, id t = _activeTabId p) (_tabs p) with
        | Some (i, activeTab) =>
            mkPanel
              (<[i := mkTab (id activeTab)
                            (basename (fileName document))
                            (Some (doc_uri document))
                            (getText document)]> (_tabs p))
              (_activeTabId p) (_tabCounter p)
        | None => p
        end
  end.

(** The object literal [newTab] of [_addNewTab], for the counter value
    already incremented. *)
Definition newTab (n : nat) : PreviewTab :=
  mkTab (tab_id_of n) (tab_title_of n) None "".

(** [_addNewTab()]. *)
Definition _addNewTab (editor : option TextDocument) (p : Panel) : Panel :=
  let counter := S (_tabCounter p) in
  let t := newTab counter in
  _updateActiveTabFromEditor editor
    (mkPanel (_tabs p ++ [t]) (id t) counter).

(** [addNewTab()]: [_addNewTab()] and a render. *)
Definition addNewTab (editor : option TextDocument) (p : Panel) : Panel :=
  _addNewTab editor p.

(** [_switchTab(tabId)]. *)
Definition _switchTab (tabId : string) (p : Panel) : Panel :=
  mkPanel (_tabs p) tabId (_tabCounter p).

(** [_closeTab(tabId)]. [findIndex] gives the first index with the id (the
    [None] here is JavaScript's [-1]); [splice(index, 1)] deletes that
    element.  The read [this._tabs[Math.max(0, index - 1)]] is in range
    whenever the list is non-empty; out of range JavaScript would throw
    on [.id], which is the [None] branch below and leaves the fields as
    they are after the [splice]. *)
Definition _closeTab (editor : option TextDocument) (tabId : string) (p : Panel) : Panel :=
  match list_find (λ t, id t = tabId) (_tabs p) with
  | Some (index, _) =>
      let tabs := delete index (_tabs p) in
      let spliced := mkPanel tabs (_activeTabId p) (_tabCounter p) in
      if decide (_activeTabId p = tabId) then
        if decide (0 < length tabs)%nat then
          match tabs !! Z.to_nat (Z.max 0 (Z.of_nat index - 1)) with
          | Some t => mkPanel tabs (id t) (_tabCounter p)
          | None => spliced
          end
        else _addNewTab editor spliced
      else spliced
  | None => p
  end.

(** [refresh()]. *)
Definition refresh (editor : option TextDocument) (p : Panel) : Panel :=
  _updateActiveTabFromEditor editor p.

(** The constructor: the field initialisers, then [_addNewTab()]. *)
Definition constructor (editor : option TextDocument) : Panel :=
  _addNewTab editor fields0.

(** [activeTab]: the [find] of [_getHtmlForWebview] and of
    [_updateActiveTabFromEditor]. *)
Definition activeTab (p : Panel) : option PreviewTab :=
  snd <$> list_find (λ t, id t = _activeTabId p) (_tabs p).

(** The requests the class serves once constructed: the messages
    [addTab], [switchTab] and [closeTab] of the webview, and every path
    into [_updateActiveTabFromEditor()] ([refresh()], the end of
    [_selectFile()], an editor switch, the expiry of the debounce timer). *)
Inductive request :=
| AddTab
| SwitchTab (tabId : string)
| CloseTab (tabId : string)
| Sync.

(** One request, served with the editor that is focused at that time. *)
Definition serve (call : option TextDocument * request) (p : Panel) : Panel :=
  match call with
  | (editor, AddTab) => addNewTab editor p
  | (_, SwitchTab tabId) => _switchTab tabId p
  | (editor, CloseTab tabId) => _closeTab editor tabId p
  | (editor, Sync) => _updateActiveTabFromEditor editor p
  end.

(** A session: construction, then the requests in arrival order. *)
Definition session (editor0 : option TextDocument)
    (calls : list (option TextDocument * request)) : Panel :=
  foldl (λ p call, serve call p) (constructor editor0) calls.

(** The ids handed out between two states of the same object: one per
    counter value consumed, since [_addNewTab] is the only writer of
    [_tabCounter] and names the tab it pushes after the new value. *)
Definition issued (p p' : Panel) : list string :=
  tab_id_of <$> seq (S (_tabCounter p)) (_tabCounter p' - _tabCounter p).


(** ** The debounce timer, [_selectFile()] and [dispose()] *)

(** The commands [antigravity.openPreview], [antigravity.refresh] and
    [antigravity.addTab] that [activate] of [src/extension.ts]
    registers. *)
Inductive command :=
| OpenPreview
| Refresh
| AddTabCommand.

(** The commands of the messages the webview posts. *)
Inductive message :=
| selectFile
| switchTab (tabId : string)
| closeTab (tabId : string)
| addTab.

(** The object together with what the constructor's closures and the
    host hold of it: [timeout] is the time left on the live timer made
    by [setTimeout] ([None] when no timer is pending); [subscribed]
    tells whether the object is in use, that is, whether the listeners
    registered with [this._disposables] are attached and the static
    field [currentPanel] is this object, both of which [createOrShow]
    sets up and [dispose()] ends; [selecting] counts the calls of
    [_selectFile()] that wait at one of their three [await]s. *)
Record Live := mkLive {
  fields : Panel;
  timeout : option nat;
  subscribed : bool;
  selecting : nat
}.

(** What the host does to the object.  [SelectFileResumes shown] is the
    return of a waiting call of [_selectFile()]: with [shown] the dialog
    gave a file, the file was opened and shown, and the call goes on
    behind its last [await]; without it the dialog was dismissed, or one
    of the promises was rejected, and the call ends there. *)
Inductive hostEvent :=
| DidChangeTextDocument (ofActiveEditor : bool)
| DidChangeActiveTextEditor
| DidReceiveMessage (m : message)
| ExecuteCommand (c : command)
| SelectFileResumes (shown : bool)
| Elapse (ms : nat)
| Dispose.

(** The quiet period passed to [setTimeout]. *)
Definition quiet_period : nat := 300.

(** The listener of [onDidReceiveMessage]: the [switch] on
    [message.command].  The case [selectFile] starts [_selectFile()],
    which writes nothing before its first [await]. *)
Definition receive (editor : option TextDocument) (m : message) (s : Live) : Live :=
  match m with
  | selectFile => mkLive (fields s) (timeout s) (subscribed s) (S (selecting s))
  | switchTab tabId =>
      mkLive (_switchTab tabId (fields s)) (timeout s) (subscribed s) (selecting s)
  | closeTab tabId =>
      mkLive (_closeTab editor tabId (fields s)) (timeout s) (subscribed s) (selecting s)
  | addTab =>
      mkLive (addNewTab editor (fields s)) (timeout s) (subscribed s) (selecting s)
  end.

(** The callbacks of the three commands on an object that is the
    current panel: [createOrShow] reveals it and leaves it as it is. *)
Definition run_command (editor : option TextDocument) (c : command) (s : Live) : Live :=
  match c with
  | OpenPreview => s
  | Refresh => mkLive (refresh editor (fields s)) (timeout s) (subscribed s) (selecting s)
  | AddTabCommand =>
      mkLive (addNewTab editor (fields s)) (timeout s) (subscribed s) (selecting s)
  end.

(** The reaction to one host event, with the editor focused when it is
    processed.  Listeners run only while attached, and a command reaches
    the object only while it is the current panel.  The timer callback
    is run by the host's timer queue and the rest of [_selectFile()] by
    its promise queue, and [dispose()] touches neither: it disposes the
    panel and pops and disposes every entry of [_disposables]; the timer
    handle is a local variable of the constructor, and a call that
    waits is not cancelled. *)
Definition react (ev : option TextDocument * hostEvent) (s : Live) : Live :=
  match ev with
  | (_, DidChangeTextDocument ofActiveEditor) =>
      if subscribed s then
        if ofActiveEditor
        then mkLive (fields s) (Some quiet_period) (subscribed s) (selecting s)
        else s
      else s
  | (editor, DidChangeActiveTextEditor) =>
      if subscribed s then
        mkLive (_updateActiveTabFromEditor editor (fields s))
               (timeout s) (subscribed s) (selecting s)
      else s
  | (editor, DidReceiveMessage m) =>
      if subscribed s then receive editor m s else s
  | (editor, ExecuteCommand c) =>
      if subscribed s then run_command editor c s else s
  | (editor, SelectFileResumes shown) =>
      match selecting s with
      | S waiting =>
          mkLive (if shown then _updateActiveTabFromEditor editor (fields s) else fields s)
                 (timeout s) (subscribed s) waiting
      | O => s
      end
  | (editor, Elapse ms) =>
      match timeout s with
      | Some remaining =>
          if decide (remaining ≤ ms)%nat then
            mkLive (_updateActiveTabFromEditor editor (fields s))
                   None (subscribed s) (selecting s)
          else mkLive (fields s) (Some (remaining - ms)) (subscribed s) (selecting s)
      | None => s
      end
  | (_, Dispose) => mkLive (fields s) (timeout s) false (selecting s)
  end.

Definition create (editor0 : option TextDocument) : Live :=
  mkLive (constructor editor0) None true 0.

Definition play (evs : list (option TextDocument * hostEvent)) (s : Live) : Live :=
  foldl (λ s ev, react ev s) s evs.

(** *** Vocabulary of the store properties *)

(** The tab that [_updateActiveTabFromEditor] leaves in the place of [t]
    when [t] is the active tab: [t] itself unless an HTML document is
    focused. *)
Definition synced (editor : option TextDocument) (t : PreviewTab) : PreviewTab :=
  match editor with
  | Some document =>
      if decide (languageId document ≠ "html") then t
      else mkTab (id t) (basename (fileName document))
                 (Some (doc_uri document)) (getText document)
  | None => t
  end.

(** The requests served from [p] on. *)
Definition run (calls : list (option TextDocument * request)) (p : Panel) : Panel :=
  foldl (λ p call, serve call p) p calls.

(** Every [switchTab] request names a tab that is in the store when the
    request is served. *)
Fixpoint switches_known (p : Panel) (calls : list (option TextDocument * request)) : bool :=
  match calls with
  | [] => true
  | call :: rest =>
      match call.2 with
      | SwitchTab tabId => bool_decide (tabId ∈ ids p)
      | _ => true
      end && switches_known (serve call p) rest
  end.

End Store.

(** The store is not empty and the active id names one of its tabs. *)
Definition store_ok (p : Panel) : Prop := _tabs p ≠ [] ∧ _activeTabId p ∈ ids p.

(** Every id in the store was made from a counter value already used. *)
Definition numbered (p : Panel) : Prop :=
  Forall (λ x, ∃ k, (1 ≤ k ≤ _tabCounter p)%nat ∧ x = tab_id_of k) (ids p).

Definition counted (p : Panel) : Prop := numbered p ∧ NoDup (ids p).

(** A tab without a document. *)
Definition unbound (t : PreviewTab) : Prop := uri t = None ∧ content t = "".

(** ** [PreviewViewProvider], the side-bar generation

    Its [_switchTab] and [_closeTab] are the same text as the panel's;
    its [_addNewTab] stops after selecting the new tab. *)
Module PreviewViewProvider.

Definition _addNewTab (p : Panel) : Panel :=
  let counter := S (_tabCounter p) in
  let t := newTab counter in
  mkPanel (_tabs p ++ [t]) (id t) counter.

Definition _switchTab (tabId : string) (p : Panel) : Panel :=
  mkPanel (_tabs p) tabId (_tabCounter p).

Definition _closeTab (tabId : string) (p : Panel) : Panel :=
  match list_find (λ t, id t = tabId) (_tabs p) with
  | Some (index, _) =>
      let tabs := delete index (_tabs p) in
      let spliced := mkPanel tabs (_activeTabId p) (_tabCounter p) in
      if decide (_activeTabId p = tabId) then
        if decide (0 < length tabs)%nat then
          match tabs !! Z.to_nat (Z.max 0 (Z.of_nat index - 1)) with
          | Some t => mkPanel tabs (id t) (_tabCounter p)
          | None => spliced
          end
        else _addNewTab spliced
      else spliced
  | None => p
  end.

End PreviewViewProvider.

(** ** Regular expressions, as [String.prototype.replace] runs them

    The resolver works on text by three [replace] calls with regular
    expression literals.  The literals are transcribed into the syntax
    below and run by a backtracking matcher that follows the pattern
    semantics of ECMAScript (continuation passing, ordered alternatives,
    greedy and lazy quantifiers, negative lookahead).  A document is a
    list of characters; a character is a code unit below 256. *)

Definition text := list ascii.

(** A string literal as a text. *)
Definition str (s : string) : text := String.list_ascii_of_string s.

Definition code (c : ascii) : N := N_of_ascii c.

(** The two quote characters. *)
Definition dq : ascii := ascii_of_N 34.
Definition sq : ascii := ascii_of_N 39.

(** [Canonicalize] under the flag [i] without [u]: the upper-case
    mapping when it is a single code unit (a-z, and the accented letters
    224-254 except the division sign 247); the micro sign and y-diaeresis
    map outside the range and are kept distinct from every other unit. *)
Definition canonicalize (c : ascii) : ascii :=
  let n := code c in
  if ((97 <=? n) && (n <=? 122) || (224 <=? n) && (n <=? 254) && negb (n =? 247))%N
  then ascii_of_N (n - 32) else c.

(** [\s]: tab, line feed, vertical tab, form feed, carriage return, space
    and no-break space. *)
Definition white_space (c : ascii) : bool :=
  let n := code c in
  ((9 <=? n) && (n <=? 13) || (n =? 32) || (n =? 160))%N.

(** Line terminators, which [.] does not match. *)
Definition line_terminator (c : ascii) : bool :=
  let n := code c in ((n =? 10) || (n =? 13))%N.

Definition same_char (ignoreCase : bool) (a b : ascii) : bool :=
  if ignoreCase then bool_decide (canonicalize a = canonicalize b)
  else bool_decide (a = b).

(** Atoms consume exactly one character. *)
Inductive atom :=
| Chr (c : ascii)
| Dot
| WhiteSpace
| OneOf (cs : list ascii)
| NoneOf (cs : list ascii).

Definition accepts (ignoreCase : bool) (a : atom) (x : ascii) : bool :=
  match a with
  | Chr c => same_char ignoreCase c x
  | Dot => negb (line_terminator x)
  | WhiteSpace => white_space x
  | OneOf cs => existsb (λ c, same_char ignoreCase c x) cs
  | NoneOf cs => negb (existsb (λ c, same_char ignoreCase c x) cs)
  end.

Inductive regex :=
| Atom (a : atom)
| Eps
| Cat (r1 r2 : regex)
| Or (r1 r2 : regex)
| Star (greedy : bool) (r : regex)
| Plus (greedy : bool) (r : regex)
| Group (n : nat) (r : regex)
| NegLookahead (r : regex).

(** The captures of a match, by group number. *)
Definition captures := list (nat * text).

Fixpoint capture (n : nat) (caps : captures) : option text :=
  match caps with
  | [] => None
  | (m, t) :: caps' => if decide (m = n) then Some t else capture n caps'
  end.

(** A match state is the input still to be read and the captures so far;
    a continuation finishes the match from there or fails. *)
Definition outcome := option (text * captures).
Definition continuation := text → captures → outcome.
Definition matcher := text → captures → continuation → outcome.

Definition or_else (a b : outcome) : outcome :=
  match a with Some r => Some r | None => b end.

(** [RepeatMatcher] with minimum 0: one more round of [body] followed by
    the rest of the repetition, or the continuation, in the order the
    greediness asks.  A round that consumes nothing is rejected.  The
    count bounds the rounds still possible and is the length of the input
    on entry. *)
Fixpoint repeat_matcher (greedy : bool) (body : matcher) (rounds : nat) : matcher :=
  λ s caps k,
    match rounds with
    | O => k s caps
    | S rounds' =>
        let again :=
          body s caps (λ s' caps',
            if decide (length s' < length s)%nat
            then repeat_matcher greedy body rounds' s' caps' k
            else None) in
        if greedy then or_else again (k s caps) else or_else (k s caps) again
    end.

(** The matcher of a pattern.  The captured text of a group is what was
    read between its two ends.  No group of the patterns below stands
    under a quantifier, so the reset of captures on each round has
    nothing to reset. *)
Fixpoint compile (ignoreCase : bool) (r : regex) : matcher :=
  λ s caps k,
    match r with
    | Atom a =>
        match s with
        | x :: s' => if accepts ignoreCase a x then k s' caps else None
        | [] => None
        end
    | Eps => k s caps
    | Cat r1 r2 =>
        compile ignoreCase r1 s caps (λ s' caps', compile ignoreCase r2 s' caps' k)
    | Or r1 r2 =>
        or_else (compile ignoreCase r1 s caps k) (compile ignoreCase r2 s caps k)
    | Star greedy r' =>
        repeat_matcher greedy (compile ignoreCase r') (length s) s caps k
    | Plus greedy r' =>
        compile ignoreCase r' s caps (λ s' caps',
          repeat_matcher greedy (compile ignoreCase r') (length s') s' caps' k)
    | Group n r' =>
        compile ignoreCase r' s caps (λ s' caps',
          k s' ((n, take (length s - length s') s) :: caps'))
    | NegLookahead r' =>
        match compile ignoreCase r' s caps (λ s' caps', Some (s', caps')) with
        | Some _ => None
        | None => k s caps
        end
    end.

(** A match attempt at the start of [s]: the rest after the match and the
    captures. *)
Definition match_here (ignoreCase : bool) (r : regex) (s : text) : outcome :=
  compile ignoreCase r s [] (λ s' caps, Some (s', caps)).

(** [text.replace(/r/g, callback)] from [lastIndex] on, [s] being the text
    from there.  A match is replaced by the callback's result, which is
    inserted as it is, and the scan resumes after the match (one
    character further when the match is empty); where no match starts,
    the character is copied.  The callback gets the matched text and the
    captures.  The count bounds the scan and exceeds the length of [s]. *)
Fixpoint replace_from (steps : nat) (ignoreCase : bool) (r : regex)
    (callback : text → captures → text) (s : text) : text :=
  match steps with
  | O => s
  | S steps' =>
      let skip :=
        match s with
        | [] => []
        | x :: s' => x :: replace_from steps' ignoreCase r callback s'
        end in
      match match_here ignoreCase r s with
      | Some (rest, caps) =>
          let matched := take (length s - length rest) s in
          if decide (length rest < length s)%nat
          then callback matched caps ++ replace_from steps' ignoreCase r callback rest
          else callback matched caps ++ skip
      | None => skip
      end
  end.

Definition replace_all (ignoreCase : bool) (r : regex)
    (callback : text → captures → text) (s : text) : text :=
  replace_from (S (length s)) ignoreCase r callback s.

(** Pattern syntax helpers: a literal word and a sequence. *)
Definition lit (w : string) : regex :=
  foldr (λ c r, Cat (Atom (Chr c)) r) Eps (str w).

Definition cat (rs : list regex) : regex := foldr Cat Eps rs.

(** [(?!http|https:\/\/|\/\/|data:)] *)
Definition not_absolute : regex :=
  NegLookahead (Or (lit "http") (Or (lit "https://") (Or (lit "//") (lit "data:")))).

(** [/<link\s+([^>]*?)href=["'](?!http|https:\/\/|\/\/|data:)(.*?\.css)["']([^>]*?)>/gi] *)
Definition link_css_pattern : regex :=
  cat [ lit "<link"; Plus true (Atom WhiteSpace);
        Group 1 (Star false (Atom (NoneOf [">"%char])));
        lit "href="; Atom (OneOf [dq; sq]);
        not_absolute;
        Group 2 (Cat (Star false (Atom Dot)) (lit ".css"));
        Atom (OneOf [dq; sq]);
        Group 3 (Star false (Atom (NoneOf [">"%char])));
        Atom (Chr ">"%char) ].

(** [/src=["'](?!http|https:\/\/|\/\/|data:)(.*?)["']/gi] *)
Definition src_pattern : regex :=
  cat [ lit "src="; Atom (OneOf [dq; sq]);
        not_absolute;
        Group 1 (Star false (Atom Dot));
        Atom (OneOf [dq; sq]) ].

(** [/<script\s+([^>]*?)src=["'](?!http|https:\/\/|\/\/|data:)(.*?)["']([^>]*?)>/gi] *)
Definition script_src_pattern : regex :=
  cat [ lit "<script"; Plus true (Atom WhiteSpace);
        Group 1 (Star false (Atom (NoneOf [">"%char])));
        lit "src="; Atom (OneOf [dq; sq]);
        not_absolute;
        Group 2 (Star false (Atom Dot));
        Atom (OneOf [dq; sq]);
        Group 3 (Star false (Atom (NoneOf [">"%char])));
        Atom (Chr ">"%char) ].

(** ** The resource resolver *)

(** What [fs.existsSync] and [fs.readFileSync(path, 'utf-8')] find at a
    path: nothing, something that cannot be read (the read throws and the
    [catch] swallows it), or a file with its text. *)
Inductive found :=
| Missing
| Unreadable
| File (contents : text).

Section Resolver.

(** [path.join], the file system, and the composition
    [webview.asWebviewUri(vscode.Uri.file(path))] printed by the template
    literal. *)
Variable path_join : text → text → text.
Variable fs : text → found.
Variable asWebviewUri : text → text.

(** A capture that took no part in the match is [undefined]; every group
    of the three patterns takes part in every match. *)
Definition arg (n : nat) (caps : captures) : text := default [] (capture n caps).

(** The callback of the first [replace]. *)
Definition inline_css (documentDir : text) (matched : text) (caps : captures) : text :=
  let cssPath := arg 2 caps in
  match fs (path_join documentDir cssPath) with
  | File cssContent => str "<style>" ++ cssContent ++ str "</style>"
  | Unreadable | Missing => matched
  end.

(** The callback of the second [replace]. *)
Definition to_webview_uri (documentDir : text) (matched : text) (caps : captures) : text :=
  let p1 := arg 1 caps in
  str "src=" ++ [dq] ++ asWebviewUri (path_join documentDir p1) ++ [dq].

(** The callback of the third [replace]. *)
Definition inline_script (documentDir : text) (matched : text) (caps : captures) : text :=
  let before := arg 1 caps in
  let scriptPath := arg 2 caps in
  let after := arg 3 caps in
  match fs (path_join documentDir scriptPath) with
  | File scriptContent =>
      str "<script " ++ before ++ after ++ str ">" ++ scriptContent ++ str "</script>"
  | Unreadable | Missing => matched
  end.

(** The three passes of [_convertResourcePaths], and the method. *)
Definition css_pass (documentDir html : text) : text :=
  replace_all true link_css_pattern (inline_css documentDir) html.

Definition src_pass (documentDir html : text) : text :=
  replace_all true src_pattern (to_webview_uri documentDir) html.

Definition script_pass (documentDir html : text) : text :=
  replace_all true script_src_pattern (inline_script documentDir) html.

Definition _convertResourcePaths (documentDir html : text) : text :=
  script_pass documentDir (src_pass documentDir (css_pass documentDir html)).

End Resolver.

(** *** Vocabulary of the resolver properties *)

(** The word [w] read at the start of [s]. *)
Fixpoint starts_with (ignoreCase : bool) (w s : text) : bool :=
  match w, s with
  | [], _ => true
  | c :: w', x :: s' => same_char ignoreCase c x && starts_with ignoreCase w' s'
  | _ :: _, [] => false
  end.

(** The suffixes of a text, longest first. *)
Fixpoint tails (s : text) : list text :=
  s :: match s with [] => [] | _ :: s' => tails s' end.

(** No suffix of [s] passes the test: the test holds nowhere in [s]. *)
Definition free_of (test : text → bool) (s : text) : bool :=
  forallb (λ t, negb (test t)) (tails s).

Definition is_quote (c : ascii) : bool := bool_decide (c = dq) || bool_decide (c = sq).

(** The word [w], in any letter case, followed by a quote: the way the
    patterns recognise an attribute. *)
Definition word_quote (w : string) (s : text) : bool :=
  starts_with true (str w) s &&
  match drop (length (str w)) s with
  | q :: _ => is_quote q
  | [] => false
  end.

(** What the lookahead [(?!http|https:\/\/|\/\/|data:)] refuses. *)
Definition looks_absolute (p : text) : bool :=
  starts_with true (str "http") p || starts_with true (str "https://") p ||
  starts_with true (str "//") p || starts_with true (str "data:") p.

(** The absolute references of the specification: a value that starts
    with [http://], [https://], [//] or [data:]. *)
Definition already_absolute (p : text) : bool :=
  starts_with true (str "http://") p || starts_with true (str "https://") p ||
  starts_with true (str "//") p || starts_with true (str "data:") p.

(** Wherever [href=] or [src=] and a quote stand in the document, the
    value that follows is absolute. *)
Definition only_absolute_references (doc : text) : bool :=
  forallb (λ t,
    (if word_quote "href=" t then already_absolute (drop 6 t) else true) &&
    (if word_quote "src=" t then already_absolute (drop 5 t) else true))
    (tails doc).

(** An attribute named [w] of an element, as HTML reads it: the name
    stands behind white space, so that the [src=] inside [data-src=] is
    no attribute of its own. *)
Definition attribute_at (w : string) (t : text) : bool :=
  match t with
  | x :: t' => white_space x && word_quote w t'
  | [] => false
  end.

(** The [href] and [src] attributes of the document all have absolute
    values. *)
Definition only_absolute_attributes (doc : text) : bool :=
  forallb (λ t,
    (if attribute_at "href=" t then already_absolute (drop 7 t) else true) &&
    (if attribute_at "src=" t then already_absolute (drop 6 t) else true))
    (tails doc).

Definition no_gt (s : text) : bool :=
  forallb (λ x, negb (bool_decide (x = ">"%char))) s.

(** The word [w] as a document writes it: in any letter case. *)
Definition reads_as (w : string) (ys : text) : bool :=
  bool_decide (length ys = length (str w)) && starts_with true (str w) ys.

(** A link tag: the word [<link] as written ([l]), a white-space
    character [w], attribute text [before], the word [href=] as written
    ([name]), a quote, the path, a quote, attribute text [after] and
    [>]. *)
Definition link_tag (l : text) (w : ascii) (before name : text) (q : ascii) (path : text)
    (q' : ascii) (after : text) : text :=
  l ++ w :: before ++ name ++ q :: path ++ q' :: after ++ str ">".

(** A link tag that the first pattern reads the way HTML does: [<link]
    and [href=] in any letter case, no [>] inside the attribute text, no
    earlier [href=] with a quote, and a path [stem ++ ext] on one line
    whose end [ext] reads [.css], in which [.css] and a quote stand
    nowhere before the end, and which the lookahead does not refuse. *)
Definition plain_css_link (l : text) (w : ascii) (before name : text) (q : ascii)
    (stem ext : text) (q' : ascii) (after : text) : bool :=
  reads_as "<link" l &&
  white_space w && no_gt before && free_of (word_quote "href=") before &&
  reads_as "href=" name && is_quote q &&
  forallb (λ x, negb (line_terminator x)) stem &&
  free_of (word_quote ".css") stem &&
  reads_as ".css" ext &&
  negb (looks_absolute (stem ++ ext)) &&
  is_quote q' && no_gt after.

(** No match of the first pattern begins in [pre] when [rest] follows. *)
Definition unmatched_before (pre rest : text) : bool :=
  forallb (λ t,
    match t with
    | [] => true
    | _ :: _ => negb (bool_decide (is_Some (match_here true link_css_pattern (t ++ rest))))
    end) (tails pre).

(** A match that ends before [post] and captured [path] as group 2. *)
Definition hit (post path : text) (res : text * captures) : Prop :=
  res.1 = post ∧ capture 2 res.2 = Some path.

(** A matcher that resumes its continuation only on suffixes of its
    input: it fails when the continuation fails on all of them. *)
Definition local (m : matcher) : Prop :=
  ∀ s caps k,
    (∀ s' caps', s' `suffix_of` s → k s' caps' = None) → m s caps k = None.

(** A quote stands on the first line of [s]. *)
Fixpoint quote_on_line (s : text) : bool :=
  match s with
  | [] => false
  | x :: s' => is_quote x || negb (line_terminator x) && quote_on_line s'
  end.

(** The text behind the first quote. *)
Fixpoint after_quote (s : text) : text :=
  match s with
  | [] => []
  | x :: s' => if is_quote x then s' else after_quote s'
  end.

(** The second pattern matches at the start of [s]. *)
Definition live_src (s : text) : bool :=
  word_quote "src=" s && negb (looks_absolute (drop 5 s)) && quote_on_line (drop 5 s).

(** A URI as [asWebviewUri] prints it: it begins with [http] (the scheme
    is [https]) and holds neither a quote nor [src=], such characters
    being percent-encoded. *)
Definition encoded_uri (u : text) : bool :=
  starts_with true (str "http") u &&
  forallb (λ c, negb (is_quote c)) u &&
  free_of (starts_with true (str "src=")) u.


(** Two texts that read the same, letter for letter. *)
Definition same_text (ys zs : text) : Prop :=
  Forall2 (λ y z, same_char true y z = true) ys zs.


(** ** The commands of the extension

    [activate] of [src/extension.ts] registers its three commands on
    the static field [MultiTabPreviewPanel.currentPanel], which holds
    the panel when one is open. *)

Section Extension.

Variable basename : string → string.




(** *** Vocabulary of the further store properties *)

(** A tab as [_addNewTab] pushes it, or as a synchronisation with an
    HTML document leaves it. *)
Definition blank_or_bound (t : PreviewTab) : Prop :=
  (∃ k, t = newTab k) ∨
  (∃ document, languageId document = "html" ∧
     t = mkTab (id t) (basename (fileName document))
               (Some (doc_uri document)) (getText document)).

(** The same, the document being one of those [seen]. *)
Definition from_editors (seen : TextDocument → Prop) (t : PreviewTab) : Prop :=
  (∃ k, t = newTab k) ∨
  (∃ document, seen document ∧ languageId document = "html" ∧
     t = mkTab (id t) (basename (fileName document))
               (Some (doc_uri document)) (getText document)).

End Extension.


(** Changes of the focused document, each followed by the time that
    passes before the next event. *)
Definition burst (changes : list (option TextDocument * nat))
    : list (option TextDocument * hostEvent) :=
  changes ≫= λ change,
    [(change.1, DidChangeTextDocument true); (change.1, Elapse change.2)].


#[global] Instance PreviewTab_eq_dec : EqDecision PreviewTab.
Proof. solve_decision. Defined.

#[global] Instance Panel_eq_dec : EqDecision Panel.
Proof. solve_decision. Defined.

Section Writes.

Variable basename : string → string.


End Writes.

(** ** The sandbox renderer *)

(** A replacement string that holds no [$] is inserted as it is. *)
Definition constant (replacement : string) : text → captures → text :=
  λ _ _, str replacement.

(** [_escapeHtml(html)]: the three [replace] calls, whose patterns are
    the ampersand, the double quote and the single quote, each with the
    flag [g], in this order. *)
Definition _escapeHtml (html : text) : text :=
  replace_all false (Atom (Chr sq)) (constant "&#39;")
    (replace_all false (Atom (Chr dq)) (constant "&quot;")
       (replace_all false (Atom (Chr "&"%char)) (constant "&amp;") html)).

(** The template literal [navigationScript] of [_getPreviewContent]. *)
Definition navigationScript : text := str "
            <script>
                (function() {
                    // Prevent navigation by intercepting link clicks
                    document.addEventListener('click', function(e) {
                        const target = e.target.closest('a');
                        if (target && target.href) {
                            const href = target.getAttribute('href');
                            // Allow hash links for anchor navigation
                            if (href && href.startsWith('#')) {
                                return; // Allow default behavior for hash links
                            }
                            // Prevent navigation for all other links
                            e.preventDefault();
                            // Optionally open external links in browser
                            if (href && (href.startsWith('http://') || href.startsWith('https://'))) {
                                // External links - could be opened in external browser
                                console.log('External link clicked:', href);
                            }
                        }
                    }, true);
                })();
            </script>
        ".

(** The text before the first occurrence of [w] in [s] and the text
    behind it, as [s.indexOf(w)] finds it; the comparison is exact. *)
Fixpoint first_occurrence (w s : text) {struct s} : option (text * text) :=
  if starts_with false w s then Some ([], drop (length w) s)
  else match s with
       | [] => None
       | x :: s' => (λ found, (x :: found.1, found.2)) <$> first_occurrence w s'
       end.

(** [s.includes(w)]. *)
Definition includes (w s : text) : bool :=
  match first_occurrence w s with Some _ => true | None => false end.

(** [GetSubstitution] for a pattern without groups: [$$] is a dollar
    sign, [$&] the matched text, [$`] the text before the match, [$']
    the text behind it; a [$] before anything else is copied. *)
Fixpoint get_substitution (matched before after template : text) : text :=
  match template with
  | [] => []
  | c :: rest =>
      if bool_decide (c = "$"%char) then
        match rest with
        | d :: rest' =>
            if bool_decide (d = "$"%char)
            then "$"%char :: get_substitution matched before after rest'
            else if bool_decide (d = "&"%char)
            then matched ++ get_substitution matched before after rest'
            else if bool_decide (d = "`"%char)
            then before ++ get_substitution matched before after rest'
            else if bool_decide (d = sq)
            then after ++ get_substitution matched before after rest'
            else c :: get_substitution matched before after rest
        | [] => [c]
        end
      else c :: get_substitution matched before after rest
  end.

(** [s.replace(w, replacement)] with a string [w]: the first occurrence
    only. *)
Definition replace_first (w replacement s : text) : text :=
  match first_occurrence w s with
  | Some (before, after) =>
      before ++ get_substitution w before after replacement ++ after
  | None => s
  end.

(** The template literal that [_getPreviewContent] returns, around the
    escaped document. *)
Definition iframe (srcdoc : text) : text :=
  str "
            <iframe srcdoc=" ++ [dq] ++ srcdoc ++ [dq] ++ str " 
                    sandbox=" ++ [dq] ++ str "allow-scripts allow-same-origin" ++ [dq] ++ str " 
                    style=" ++ [dq] ++ str "width:100%; height:100%; border:none;" ++ [dq] ++ str ">
            </iframe>
        ".

Section Renderer.

Variable path_join : text → text → text.
Variable fs : text → found.
Variable asWebviewUri : text → text.

(** [path.dirname(documentUri.fsPath)]. *)
Variable dirname : string → text.

(** [_getPreviewContent(htmlContent, documentUri)]. *)
Definition _getPreviewContent (htmlContent : text) (documentUri : string) : text :=
  let htmlContent :=
    _convertResourcePaths path_join fs asWebviewUri (dirname documentUri) htmlContent in
  let htmlContent :=
    if includes (str "</body>") htmlContent
    then replace_first (str "</body>") (navigationScript ++ str "</body>") htmlContent
    else htmlContent ++ navigationScript in
  iframe (_escapeHtml htmlContent).

End Renderer.

(** ** The page

    [_getHtmlForWebview] and the templates it fills. *)

(** The multiplication sign on the close button of a tab. *)
Definition times : ascii := ascii_of_N 215.

(** [_getEmptyHtml()]. *)
Definition _getEmptyHtml : text :=
  str "<!DOCTYPE html>
            <html>
            <body style=" ++
  [dq] ++
  str "background: #1e1e1e; color: #ccc; display: flex; align-items: center; justify-content: center; height: 100vh;" ++
  [dq] ++
  str ">
                <div>No tabs</div>
            </body>
            </html>".

(** The template literal of the [map] callback of [_getHtmlForWebview]:
    one entry of the tab bar. *)
Definition tabHtml (p : Panel) (tab : PreviewTab) : text :=
  let isActive := bool_decide (id tab = _activeTabId p) in
  str "
                <div class=" ++
  [dq] ++
  str "tab " ++
  (if isActive then str "active" else []) ++
  [dq] ++
  str " 
                     onclick=" ++
  [dq] ++
  str "switchTab('" ++
  str (id tab) ++
  str "')" ++
  [dq] ++
  str ">
                    <span class=" ++
  [dq] ++
  str "tab-title" ++
  [dq] ++
  str ">" ++
  (if decide (title tab = "") then str "Untitled" else str (title tab)) ++
  str "</span>
                    " ++
  (if decide (1 < length (_tabs p))%nat
   then str "
                        <button class=" ++
        [dq] ++
        str "tab-close" ++
        [dq] ++
        str " onclick=" ++
        [dq] ++
        str "event.stopPropagation(); closeTab('" ++
        str (id tab) ++
        str "')" ++
        [dq] ++
        str ">" ++
        [times] ++
        str "</button>
                    "
   else []) ++
  str "
                </div>
            ".

(** The template literal that [_getHtmlForWebview] returns, around the
    tab bar and the content. *)
Definition page (tabsHtml contentHtml : text) : text :=
  str "<!DOCTYPE html>
            <html lang=" ++
  [dq] ++
  str "en" ++
  [dq] ++
  str ">
            <head>
                <meta charset=" ++
  [dq] ++
  str "UTF-8" ++
  [dq] ++
  str ">
                <meta name=" ++
  [dq] ++
  str "viewport" ++
  [dq] ++
  str " content=" ++
  [dq] ++
  str "width=device-width, initial-scale=1.0" ++
  [dq] ++
  str ">
                <style>
                    * {
                        margin: 0;
                        padding: 0;
                        box-sizing: border-box;
                    }
                    body {
                        font-family: 'Segoe UI', sans-serif;
                        background: #1e1e1e;
                        color: #ccc;
                        display: flex;
                        flex-direction: column;
                        height: 100vh;
                        overflow: hidden;
                    }
                    .header {
                        display: flex;
                        justify-content: space-between;
                        align-items: center;
                        background: #252526;
                        border-bottom: 1px solid #3e3e42;
                        padding: 4px 8px;
                    }
                    .tab-bar {
                        display: flex;
                        overflow-x: auto;
                        flex: 1;
                    }
                    .tab {
                        display: flex;
                        align-items: center;
                        gap: 8px;
                        padding: 6px 12px;
                        background: #2d2d30;
                        border-right: 1px solid #3e3e42;
                        cursor: pointer;
                        user-select: none;
                        white-space: nowrap;
                        transition: background 0.2s;
                    }
                    .tab:hover {
                        background: #37373d;
                    }
                    .tab.active {
                        background: #1e1e1e;
                        border-bottom: 2px solid #8a2be2;
                    }
                    .tab-title {
                        font-size: 13px;
                    }
                    .tab-close {
                        background: none;
                        border: none;
                        color: #858585;
                        font-size: 18px;
                        cursor: pointer;
                        padding: 0;
                        width: 18px;
                        height: 18px;
                        display: flex;
                        align-items: center;
                        justify-content: center;
                        border-radius: 3px;
                    }
                    .tab-close:hover {
                        background: rgba(255, 255, 255, 0.1);
                        color: #fff;
                    }
                    .add-tab-btn {
                        background: none;
                        border: none;
                        color: #ccc;
                        cursor: pointer;
                        padding: 6px 12px;
                        font-size: 16px;
                        transition: background 0.2s;
                    }
                    .add-tab-btn:hover {
                        background: #37373d;
                    }
                    .content-area {
                        flex: 1;
                        overflow: hidden;
                        background: white;
                    }
                    iframe {
                        width: 100%;
                        height: 100%;
                        border: none;
                    }
                </style>
            </head>
            <body>
                <div class=" ++
  [dq] ++
  str "header" ++
  [dq] ++
  str ">
                    <div class=" ++
  [dq] ++
  str "tab-bar" ++
  [dq] ++
  str ">
                        " ++
  tabsHtml ++
  str "
                    </div>
                    <button class=" ++
  [dq] ++
  str "add-tab-btn" ++
  [dq] ++
  str " onclick=" ++
  [dq] ++
  str "addTab()" ++
  [dq] ++
  str " title=" ++
  [dq] ++
  str "Add new tab" ++
  [dq] ++
  str ">+</button>
                </div>
                <div class=" ++
  [dq] ++
  str "content-area" ++
  [dq] ++
  str ">
                    " ++
  contentHtml ++
  str "
                </div>
                <script>
                    const vscode = acquireVsCodeApi();
                    
                    function switchTab(tabId) {
                        vscode.postMessage({ command: 'switchTab', tabId: tabId });
                    }
                    
                    function closeTab(tabId) {
                        vscode.postMessage({ command: 'closeTab', tabId: tabId });
                    }
                    
                    function selectFile() {
                        vscode.postMessage({ command: 'selectFile' });
                    }
                    
                    function addTab() {
                        vscode.postMessage({ command: 'addTab' });
                    }
                </script>
            </body>
            </html>".

Section Page.

Variable path_join : text → text → text.
Variable fs : text → found.
Variable asWebviewUri : text → text.
Variable dirname : string → text.

(** [_getFileBrowserHtml()] returns a fixed text, which holds a
    character beyond the code units of [text] (the page symbol,
    U+1F4C4); it is left open here, and nothing below depends on it. *)
Variable _getFileBrowserHtml : text.

(** [_getHtmlForWebview()].  A [vscode.Uri] is an object and so is true
    in a condition; a string is true when it is not empty. *)
Definition _getHtmlForWebview (p : Panel) : text :=
  match list_find (λ t, id t = _activeTabId p) (_tabs p) with
  | None => _getEmptyHtml
  | Some (_, activeTab) =>
      let tabsHtml := concat (tabHtml p <$> _tabs p) in
      let contentHtml :=
        match uri activeTab with
        | Some documentUri =>
            if decide (content activeTab = "") then _getFileBrowserHtml
            else _getPreviewContent path_join fs asWebviewUri dirname
                   (str (content activeTab)) documentUri
        | None => _getFileBrowserHtml
        end in
      page tabsHtml contentHtml
  end.

End Page.

(** ** The methods together with the page they assign

    The methods of [MultiTabPreviewPanel] once more, now with the
    assignments to [this._panel.webview.html] that [_update()] makes. *)
Module Rendered.

(** The fields and the page that the webview holds. *)
Record View := mkView {
  this : Panel;
  html : text
}.

Section Methods.

Variable basename : string → string.
Variable path_join : text → text → text.
Variable fs : text → found.
Variable asWebviewUri : text → text.
Variable dirname : string → text.
Variable _getFileBrowserHtml : text.

(** [_update()]. *)
Definition _update (v : View) : View :=
  mkView (this v)
    (_getHtmlForWebview path_join fs asWebviewUri dirname _getFileBrowserHtml (this v)).

(** [_updateActiveTabFromEditor()]. *)
Definition _updateActiveTabFromEditor (editor : option TextDocument) (v : View) : View :=
  match editor with
  | None => v
  | Some document =>
      if decide (languageId document ≠ "html") then v
      else
        match list_find (λ t, id t = _activeTabId (this v)) (_tabs (this v)) with
        | Some (i, activeTab) =>
            _update
              (mkView
                 (mkPanel
                    (<[i := mkTab (id activeTab)
                                  (basename (fileName document))
                                  (Some (doc_uri document))
                                  (getText document)]> (_tabs (this v)))
                    (_activeTabId (this v)) (_tabCounter (this v)))
                 (html v))
        | None => v
        end
  end.

(** [_addNewTab()]. *)
Definition _addNewTab (editor : option TextDocument) (v : View) : View :=
  let counter := S (_tabCounter (this v)) in
  let t := newTab counter in
  _updateActiveTabFromEditor editor
    (mkView (mkPanel (_tabs (this v) ++ [t]) (id t) counter) (html v)).

(** [addNewTab()]. *)
Definition addNewTab (editor : option TextDocument) (v : View) : View :=
  _update (_addNewTab editor v).

(** [_switchTab(tabId)]. *)
Definition _switchTab (tabId : string) (v : View) : View :=
  _update (mkView (mkPanel (_tabs (this v)) tabId (_tabCounter (this v))) (html v)).

(** [_closeTab(tabId)].  Where the read of [this._tabs[...]] would be
    out of range the method throws and [_update()] is not reached. *)
Definition _closeTab (editor : option TextDocument) (tabId : string) (v : View) : View :=
  match list_find (λ t, id t = tabId) (_tabs (this v)) with
  | Some (index, _) =>
      let tabs := delete index (_tabs (this v)) in
      let spliced :=
        mkView (mkPanel tabs (_activeTabId (this v)) (_tabCounter (this v))) (html v) in
      if decide (_activeTabId (this v) = tabId) then
        if decide (0 < length tabs)%nat then
          match tabs !! Z.to_nat (Z.max 0 (Z.of_nat index - 1)) with
          | Some t => _update (mkView (mkPanel tabs (id t) (_tabCounter (this v))) (html v))
          | None => spliced
          end
        else _update (_addNewTab editor spliced)
      else _update spliced
  | None => v
  end.

(** The constructor: [_addNewTab()], then the initial render; the page
    of a new webview is the empty string. *)
Definition constructor (editor : option TextDocument) : View :=
  _update (_addNewTab editor (mkView fields0 [])).

(** One request, served with the editor that is focused at that time. *)
Definition serve (call : option TextDocument * request) (v : View) : View :=
  match call with
  | (editor, AddTab) => addNewTab editor v
  | (_, SwitchTab tabId) => _switchTab tabId v
  | (editor, CloseTab tabId) => _closeTab editor tabId v
  | (editor, Sync) => _updateActiveTabFromEditor editor v
  end.

(** A session: construction, then the requests in arrival order. *)
Definition session (editor0 : option TextDocument)
    (calls : list (option TextDocument * request)) : View :=
  foldl (λ v call, serve call v) (constructor editor0) calls.

(** The page that the webview holds is the rendering of the fields. *)
Definition shown (v : View) : Prop :=
  html v =
    _getHtmlForWebview path_join fs asWebviewUri dirname _getFileBrowserHtml (this v).

End Methods.

End Rendered.

(** *** Vocabulary of the renderer properties *)

(** What [_escapeHtml] makes of one character. *)
Definition escape_char (c : ascii) : text :=
  if bool_decide (c = "&"%char) then str "&amp;"
  else if bool_decide (c = dq) then str "&quot;"
  else if bool_decide (c = sq) then str "&#39;"
  else [c].

(** One of the three character references stands at the start of [s]. *)
Definition entity (s : text) : bool :=
  starts_with false (str "&amp;") s || starts_with false (str "&quot;") s ||
  starts_with false (str "&#39;") s.

(** A character that [_escapeHtml] copies. *)
Definition plain_char (c : ascii) : Prop := c ≠ "&"%char ∧ c ≠ dq ∧ c ≠ sq.

(** ** The resolver of the side-bar generation

    [PreviewViewProvider._convertResourcePaths] rewrites every [href]
    and every [src]; it reads no file. *)
Module SideBarResolver.

(** [(?!http|https|\/\/|data:)] *)
Definition not_absolute : regex :=
  NegLookahead (Or (lit "http") (Or (lit "https") (Or (lit "//") (lit "data:")))).

(** [/href=["'](?!http|https|\/\/|data:)(.*?)["']/gi] *)
Definition href_pattern : regex :=
  cat [ lit "href="; Atom (OneOf [dq; sq]);
        not_absolute;
        Group 1 (Star false (Atom Dot));
        Atom (OneOf [dq; sq]) ].

(** [/src=["'](?!http|https|\/\/|data:)(.*?)["']/gi] *)
Definition src_pattern : regex :=
  cat [ lit "src="; Atom (OneOf [dq; sq]);
        not_absolute;
        Group 1 (Star false (Atom Dot));
        Atom (OneOf [dq; sq]) ].

Section Resolver.

Variable path_join : text → text → text.
Variable asWebviewUri : text → text.

(** The callbacks of the two [replace] calls. *)
Definition to_href_uri (documentDir : text) (matched : text) (caps : captures) : text :=
  let p1 := arg 1 caps in
  str "href=" ++ [dq] ++ asWebviewUri (path_join documentDir p1) ++ [dq].

Definition to_src_uri (documentDir : text) (matched : text) (caps : captures) : text :=
  let p1 := arg 1 caps in
  str "src=" ++ [dq] ++ asWebviewUri (path_join documentDir p1) ++ [dq].

Definition href_pass (documentDir html : text) : text :=
  replace_all true href_pattern (to_href_uri documentDir) html.

Definition src_pass (documentDir html : text) : text :=
  replace_all true src_pattern (to_src_uri documentDir) html.

(** [_convertResourcePaths(html, documentUri, webview)]. *)
Definition _convertResourcePaths (documentDir html : text) : text :=
  src_pass documentDir (href_pass documentDir html).

End Resolver.

End SideBarResolver.

(** *** Vocabulary of the further resolver properties *)

(** The value of an attribute as the patterns of the form
    [name=["'](?!...)(.*?)["']] read it whole: on one line, without a
    quote, and not refused by the lookahead. *)
Definition plain_value (p : text) : bool :=
  forallb (λ x, negb (is_quote x) && negb (line_terminator x)) p &&
  negb (looks_absolute p).

(** [src=] in any letter case, a quote, a plain value and a quote. *)
Definition plain_src_attribute (name : text) (q : ascii) (p : text) (q' : ascii) : bool :=
  bool_decide (length name = 4%nat) && starts_with true (str "src=") name &&
  is_quote q && plain_value p && is_quote q'.

(** [href=] in any letter case, a quote, a plain value and a quote. *)
Definition plain_href_attribute (name : text) (q : ascii) (p : text) (q' : ascii) : bool :=
  bool_decide (length name = 5%nat) && starts_with true (str "href=") name &&
  is_quote q && plain_value p && is_quote q'.

(** Wherever [href=] or [src=] and a quote stand in the document, the
    lookahead refuses the value that follows: it begins with [http],
    [//] or [data:], in any letter case. *)
Definition only_refused_references (doc : text) : bool :=
  forallb (λ t,
    (if word_quote "href=" t then looks_absolute (drop 6 t) else true) &&
    (if word_quote "src=" t then looks_absolute (drop 5 t) else true))
    (tails doc).

(** A matcher that succeeds only through its continuation, resumed on a
    suffix of its input. *)
Definition reaches (m : matcher) : Prop :=
  ∀ s caps k res, m s caps k = Some res →
    ∃ s' caps', s' `suffix_of` s ∧ k s' caps' = Some res.

(** ** A sample host

    Concrete editors, files and URI mapping for the scenarios of the
    specification. *)

(** [path.basename] on names without directory part. *)
Definition plain_name (s : string) : string := s.

Definition index_v1 : TextDocument :=
  mkDoc "/doc/index.html" "index.html" "html" "<h1>one</h1>".

Definition index_v2 : TextDocument :=
  mkDoc "/doc/index.html" "index.html" "html" "<h1>two</h1>".

Definition T1 : PreviewTab := newTab 1.
Definition T2 : PreviewTab := newTab 2.
Definition T3 : PreviewTab := newTab 3.

(** [path.join] on a directory and a plain relative path. *)
Definition posix_join (dir p : text) : text := dir ++ str "/" ++ p.

(** A directory [/doc] that holds [style.css] and [app.js]. *)
Definition doc_dir (p : text) : found :=
  if decide (p = str "/doc/style.css") then File (str "body{color:red}")
  else if decide (p = str "/doc/app.js") then File (str "alert(1)")
  else Missing.

(** The form of the URIs [asWebviewUri] returns for files, with the
    quotes and the equals sign percent-encoded. *)
Definition encode_char (c : ascii) : text :=
  if bool_decide (c = dq) then str "%22"
  else if bool_decide (c = sq) then str "%27"
  else if bool_decide (c = "="%char) then str "%3D"
  else [c].

Definition cdn_uri (p : text) : text :=
  str "https://file%2B.vscode-resource.vscode-cdn.net" ++ concat (encode_char <$> p).

(** A session that adds a tab, closes the first, and closes the last. *)
Definition sample_calls : list (option TextDocument * request) :=
  [(Some index_v1, AddTab); (None, CloseTab "tab-1");
   (None, SwitchTab "tab-2"); (None, CloseTab "tab-2")].

(** Scenario A: tabs [T1, T2, T3], active [T2]. *)
Definition scenario_A_calls : list (option TextDocument * request) :=
  [(None, AddTab); (None, AddTab); (None, SwitchTab "tab-2")].

Definition scenario_A : Panel := mkPanel [T1; T2; T3] "tab-2" 3.

(** A change of the focused document arms the timer, and [dispose()]
    runs before it expires. *)
Definition armed_then_disposed : Live :=
  play plain_name
    [(Some index_v2, DidChangeTextDocument true); (Some index_v2, Dispose)]
    (create plain_name (Some index_v1)).

(** A [selectFile] message opens the dialog, and [dispose()] runs while
    the call of [_selectFile()] waits for it. *)
Definition selecting_then_disposed : Live :=
  play plain_name
    [(Some index_v1, DidReceiveMessage selectFile); (Some index_v1, Dispose)]
    (create plain_name (Some index_v1)).

(** What the host may still do then: the call returns with the second
    document shown, time passes, a message arrives, and the refresh
    command is run. *)
Definition late_events : list (option TextDocument * hostEvent) :=
  [(Some index_v2, SelectFileResumes true); (Some index_v2, Elapse quiet_period);
   (None, DidReceiveMessage addTab); (Some index_v1, ExecuteCommand Refresh)].

(** Scenario C: the source [<link href="style.css">] and its resolution. *)
Definition scenario_C : text :=
  str "<link href=" ++ [dq] ++ str "style.css" ++ [dq] ++ str ">".

Definition style_red : text := str "<style>body{color:red}</style>".

(** Two link elements on one line, the second one a local stylesheet. *)
Definition icon_link : text := str "<link rel='icon' href='favicon.ico'>".

Definition stylesheet_link : text :=
  link_tag (str "<link") " " (str "rel='stylesheet' ") (str "href=") sq (str "style.css") sq [].

(** The line feed. *)
Definition lf : ascii := ascii_of_N 10.

(** A stylesheet link written in capitals, inside a page. *)
Definition capital_link : text :=
  link_tag (str "<LINK") " " (str "REL='stylesheet' ") (str "HREF=") dq (str "style.css") dq [].

Definition capital_page : text := str "<head>" ++ capital_link ++ str "</head>".



(** A script element with a local source. *)
Definition script_tag : text := str "<script src='app.js'></script>".

(** [path.dirname] of the sample documents, which lie in [/doc]. *)
Definition doc_dirname (documentUri : string) : text := str "/doc".

(** A directory in which nothing can be read. *)
Definition no_files (p : text) : found := Missing.

(** A host that gives every file the same encoded URI. *)
Definition one_uri (p : text) : text :=
  str "https://file%2B.vscode-resource.vscode-cdn.net/doc/pic.png".

(** The panel after a [switchTab] message with an id that names no tab. *)
Definition stale_panel : Panel := _switchTab "nonexistent" (constructor plain_name None).

(** Requests that bind the first tab and add a second one. *)
Definition bound_then_added : list (option TextDocument * request) :=
  [(Some index_v1, Sync); (None, AddTab)].

(** A tab bound to the first sample document. *)
Definition index_tab : PreviewTab :=
  mkTab "tab-1" "index.html" (Some "/doc/index.html") "<h1>one</h1>".

(** Pages with a closing body tag in lower and in upper case. *)
Definition page_lower : text := str "<body><p>hi</p></body></html>".

Definition page_upper : text := str "<BODY><p>hi</p></BODY>".

(** An image with a local source, a page whose relative paths begin
    with the letters [http], and a link to an anchor. *)
Definition image_tag : text := str "<img src='pic.png'>".

Definition httpd_page : text :=
  str "<img src='httpd/logo.png'><link rel='stylesheet' href='HTTP-theme.css'>".

Definition anchor_tag : text := str "<a href='#top'>top</a>".

(** A text in the place of the file browser. *)
Definition browser_page : text := str "<button onclick='selectFile()'>Select HTML File</button>".

(** * Properties of the tab store *)

Lemma filter_all {A} (P : A → Prop) `{∀ x, Decision (P x)} (l : list A) :
  Forall P l → filter P l = l.
Proof. induction 1; [done|]. rewrite filter_cons_True by done. by f_equal. Qed.

Lemma tab_id_of_inj : Inj (=) (=) tab_id_of.
Proof. intros a b H. apply (inj pretty). by injection H. Qed.

Lemma ids_nonempty p : _tabs p ≠ [] ↔ ids p ≠ [].
Proof. unfold ids. destruct (_tabs p); naive_solver. Qed.

Lemma delete_ids i p : id <$> delete i (_tabs p) = delete i (ids p).
Proof. unfold ids. by rewrite !delete_take_drop, fmap_app, fmap_take, fmap_drop. Qed.

(** With distinct ids, [findIndex] finds the index of a tab from its id. *)
Lemma find_by_id (l : list PreviewTab) i t :
  NoDup (id <$> l) → l !! i = Some t →
  list_find (λ t', id t' = id t) l = Some (i, t).
Proof.
  intros Hnd Hi. apply list_find_Some. split_and!; [done..|].
  intros j y Hj Hlt Heq.
  assert (j = i); [|lia].
  eapply (NoDup_lookup (id <$> l) j i (id t)); [done|..].
  - by rewrite list_lookup_fmap, Hj, <- Heq.
  - by rewrite list_lookup_fmap, Hi.
Qed.

Section StoreFacts.

Variable basename : string → string.

(** ** Synchronisation touches neither the ids, the pointer nor the counter *)

Lemma update_ids ed p : ids (_updateActiveTabFromEditor basename ed p) = ids p.
Proof.
  unfold _updateActiveTabFromEditor, ids. destruct ed as [d|]; [|done].
  case_decide; [done|].
  destruct (list_find _ _) as [[i t]|] eqn:E; [|done]. simpl.
  apply list_find_Some in E as (Hi & _ & _).
  rewrite list_fmap_insert. simpl. apply list_insert_id.
  by rewrite list_lookup_fmap, Hi.
Qed.

Lemma update_active ed p :
  _activeTabId (_updateActiveTabFromEditor basename ed p) = _activeTabId p.
Proof.
  unfold _updateActiveTabFromEditor. destruct ed; [|done]. case_decide; [done|].
  by destruct (list_find _ _) as [[??]|].
Qed.

Lemma update_counter ed p :
  _tabCounter (_updateActiveTabFromEditor basename ed p) = _tabCounter p.
Proof.
  unfold _updateActiveTabFromEditor. destruct ed; [|done]. case_decide; [done|].
  by destruct (list_find _ _) as [[??]|].
Qed.

Lemma update_ok ed p : store_ok p → store_ok (_updateActiveTabFromEditor basename ed p).
Proof.
  intros [H1 H2]. split.
  - apply ids_nonempty. rewrite update_ids. by apply ids_nonempty.
  - by rewrite update_ids, update_active.
Qed.

(** ** [_addNewTab] *)

Lemma addNewTab_ids ed p :
  ids (_addNewTab basename ed p) = ids p ++ [tab_id_of (S (_tabCounter p))].
Proof.
  unfold _addNewTab. rewrite update_ids. unfold ids. simpl. by rewrite fmap_app.
Qed.

Lemma addNewTab_active ed p :
  _activeTabId (_addNewTab basename ed p) = tab_id_of (S (_tabCounter p)).
Proof. unfold _addNewTab. by rewrite update_active. Qed.

Lemma addNewTab_counter ed p :
  _tabCounter (_addNewTab basename ed p) = S (_tabCounter p).
Proof. unfold _addNewTab. by rewrite update_counter. Qed.

(** When the new id is not yet in the store, the synchronisation at the
    end of [_addNewTab] finds the tab just pushed. *)
Lemma addNewTab_eq ed p :
  let n := S (_tabCounter p) in
  tab_id_of n ∉ ids p →
  _addNewTab basename ed p =
    mkPanel (_tabs p ++ [synced basename ed (newTab n)]) (tab_id_of n) n.
Proof.
  intros n Hfresh. unfold _addNewTab, _updateActiveTabFromEditor, synced. fold n.
  destruct ed as [d|]; [|done]. case_decide; [done|]. simpl.
  rewrite list_find_app_r.
  2:{ apply list_find_None, Forall_forall. intros t Ht Hid. apply Hfresh.
      unfold ids. rewrite <- Hid. by apply list_elem_of_fmap_2. }
  simpl. rewrite decide_True by done. simpl.
  f_equal. rewrite insert_app_r_alt by lia. by rewrite Nat.sub_diag.
Qed.

Lemma addNewTab_ok ed p : store_ok (_addNewTab basename ed p).
Proof.
  split.
  - apply ids_nonempty. rewrite addNewTab_ids. by destruct (ids p).
  - rewrite addNewTab_ids, addNewTab_active.
    apply elem_of_app. right. by apply list_elem_of_singleton.
Qed.

(** ** [_closeTab] *)

(** The shape of [_closeTab] once [findIndex] has answered. *)
Lemma closeTab_found ed tabId p i t :
  list_find (λ t, id t = tabId) (_tabs p) = Some (i, t) →
  _closeTab basename ed tabId p =
    if decide (_activeTabId p = tabId) then
      match delete i (_tabs p) !! (i - 1)%nat with
      | Some t' => mkPanel (delete i (_tabs p)) (id t') (_tabCounter p)
      | None => _addNewTab basename ed (mkPanel [] (_activeTabId p) (_tabCounter p))
      end
    else mkPanel (delete i (_tabs p)) (_activeTabId p) (_tabCounter p).
Proof.
  intros E. unfold _closeTab. rewrite E. simpl.
  case_decide; [|done].
  apply list_find_Some in E as (Hi & _ & _).
  pose proof (length_delete (_tabs p) i (mk_is_Some _ _ Hi)) as Hdel.
  apply lookup_lt_Some in Hi.
  replace (Z.to_nat (Z.max 0 (Z.of_nat i - 1))) with (i - 1)%nat by lia.
  case_decide as Hlen.
  - destruct (delete i (_tabs p) !! (i - 1)%nat) eqn:E'; [done|].
    apply lookup_ge_None in E'. lia.
  - destruct (_tabs p) as [|a [|b l]] eqn:El; simpl in *; try lia.
    by assert (i = 0%nat) as -> by lia.
Qed.

Lemma closeTab_ok ed tabId p : store_ok p → store_ok (_closeTab basename ed tabId p).
Proof.
  intros [Hne Hact].
  destruct (list_find (λ t, id t = tabId) (_tabs p)) as [[i t]|] eqn:E.
  2:{ unfold _closeTab. rewrite E. by split. }
  rewrite (closeTab_found _ _ _ _ _ E).
  pose proof E as (Hi & Hid & _)%list_find_Some.
  case_decide as Ha.
  - destruct (delete i (_tabs p) !! (i - 1)%nat) as [t'|] eqn:E'.
    + split; simpl.
      * intros Hnil. by rewrite Hnil in E'.
      * unfold ids. simpl. apply list_elem_of_fmap_2. by eapply list_elem_of_lookup_2.
    + apply addNewTab_ok.
  - unfold store_ok, ids in *. simpl.
    assert (_activeTabId p ∈ id <$> delete i (_tabs p)) as Hin.
    { apply list_elem_of_fmap in Hact as (t0 & Hid0 & Hin0).
      apply list_elem_of_lookup in Hin0 as [j Hj].
      assert (j ≠ i) by (intros ->; congruence).
      rewrite Hid0. apply list_elem_of_fmap_2.
      destruct (decide (j < i)%nat).
      - apply (list_elem_of_lookup_2 _ j). by rewrite list_lookup_delete_lt.
      - apply (list_elem_of_lookup_2 _ (j - 1)%nat).
        rewrite list_lookup_delete_ge by lia. by replace (S (j - 1)) with j by lia. }
    split; [|done]. intros Hnil. rewrite Hnil in Hin. by apply elem_of_nil in Hin.
Qed.

Lemma close_last ed p t :
  _tabs p = [t] → _activeTabId p = id t →
  _closeTab basename ed (id t) p =
    mkPanel [synced basename ed (newTab (S (_tabCounter p)))]
            (tab_id_of (S (_tabCounter p))) (S (_tabCounter p)).
Proof.
  intros Ht Ha.
  rewrite (closeTab_found ed (id t) p 0 t).
  2:{ rewrite Ht. simpl. by rewrite decide_True. }
  rewrite decide_True by done. rewrite Ht. simpl.
  rewrite addNewTab_eq; [done|]. simpl. apply not_elem_of_nil.
Qed.

(** ** The invariant along a session *)

Lemma switches_known_take p calls n :
  switches_known basename p calls = true →
  switches_known basename p (take n calls) = true.
Proof.
  revert p n. induction calls as [|c calls IH]; intros p [|n]; simpl; try done.
  intros [H1 H2]%andb_true_iff. apply andb_true_iff. split; [done|]. by apply IH.
Qed.

Lemma serve_ok call p :
  store_ok p →
  match call.2 with SwitchTab tabId => tabId ∈ ids p | _ => True end →
  store_ok (serve basename call p).
Proof.
  destruct call as [ed [| i | i |]]; simpl; intros Hok Hadm.
  - apply addNewTab_ok.
  - destruct Hok. by split.
  - by apply closeTab_ok.
  - by apply update_ok.
Qed.

Lemma run_ok calls p :
  store_ok p → switches_known basename p calls = true →
  store_ok (run basename calls p).
Proof.
  revert p. induction calls as [|c calls IH]; intros p Hok Hk; [done|].
  simpl in *. apply andb_true_iff in Hk as [H1 H2].
  apply IH; [|done]. apply serve_ok; [done|].
  destruct c as [ed []]; simpl in *; try done. by apply bool_decide_eq_true in H1.
Qed.

(** C1, as amended: along every session whose [switchTab] requests name
    tabs that are in the store, each request returns with a store that is
    not empty and an active id that names one of its tabs; and closing
    the only tab, when it is the active one, leaves exactly one tab, made
    from the next counter value and active, which is the fresh tab unless
    an HTML document is focused (then it is bound to that document). *)
Theorem store_invariant editor0 calls :
  switches_known basename (constructor basename editor0) calls = true →
  (∀ n, store_ok (session basename editor0 (take n calls))) ∧
  (∀ n ed t,
     let p := session basename editor0 (take n calls) in
     _tabs p = [t] → _activeTabId p = id t →
     let p' := _closeTab basename ed (id t) p in
     _tabs p' = [synced basename ed (newTab (S (_tabCounter p)))] ∧
     _activeTabId p' = id (newTab (S (_tabCounter p)))).
Proof.
  intros Hk. split.
  - intros n. apply run_ok; [apply addNewTab_ok|]. by apply switches_known_take.
  - intros n ed t p Ht Ha p'. subst p'. by rewrite close_last.
Qed.

(** C2, as amended: [switchTab(id)] leaves the tab list and the counter as
    they are and sets the active id to [id] whether or not a tab has that
    id; when none has, the store is left without an active tab.  Both
    generations of the class agree. *)
Theorem switchTab_unconditional tabId p :
  _tabs (_switchTab tabId p) = _tabs p ∧
  _tabCounter (_switchTab tabId p) = _tabCounter p ∧
  _activeTabId (_switchTab tabId p) = tabId ∧
  (tabId ∉ ids p → activeTab (_switchTab tabId p) = None) ∧
  PreviewViewProvider._switchTab tabId p = _switchTab tabId p.
Proof.
  split_and!; try done.
  intros Hn. unfold activeTab. simpl.
  replace (list_find _ _) with (@None (nat * PreviewTab)); [done|].
  symmetry. apply list_find_None, Forall_forall. intros t Ht Hid. apply Hn.
  rewrite <- Hid. by apply list_elem_of_fmap_2.
Qed.

(** [_closeTab] on a tab found at index [i] of a store with distinct ids. *)
Lemma closeTab_at ed p tabId i t :
  NoDup (ids p) → _tabs p !! i = Some t → id t = tabId →
  let p' := _closeTab basename ed tabId p in
  let rest := delete i (_tabs p) in
  (_activeTabId p ≠ tabId → p' = mkPanel rest (_activeTabId p) (_tabCounter p)) ∧
  (_activeTabId p = tabId → rest ≠ [] →
     ∃ t', rest !! Nat.max 0 (i - 1) = Some t' ∧
           p' = mkPanel rest (id t') (_tabCounter p)) ∧
  (_activeTabId p = tabId → rest = [] →
     let n := S (_tabCounter p) in
     p' = mkPanel [synced basename ed (newTab n)] (id (newTab n)) n).
Proof.
  intros Hnd Hi <- p' rest. subst p'.
  rewrite (closeTab_found ed (id t) p i t) by by apply find_by_id.
  fold rest. split_and!.
  - intros Hne. by rewrite decide_False.
  - intros He Hrest. rewrite decide_True by done.
    rewrite Nat.max_0_l.
    destruct (rest !! (i - 1)%nat) as [t'|] eqn:E; [by exists t'|].
    exfalso. apply lookup_ge_None in E.
    pose proof (length_delete (_tabs p) i (mk_is_Some _ _ Hi)) as Hdel. fold rest in Hdel.
    apply lookup_lt_Some in Hi. destruct rest; [done|]. simpl in *. lia.
  - intros He Hrest n. rewrite decide_True by done. rewrite Hrest. simpl.
    rewrite addNewTab_eq; [done|]. simpl. apply not_elem_of_nil.
Qed.

Lemma synced_cases ed t :
  synced basename ed t = t ∨
  ∃ d, ed = Some d ∧ languageId d = "html" ∧
       synced basename ed t =
         mkTab (id t) (basename (fileName d)) (Some (doc_uri d)) (getText d).
Proof.
  unfold synced. destruct ed as [d|]; [|by left].
  case_decide as Hl; [by left|]. right. exists d. split_and!; [done| |done].
  by destruct (decide (languageId d = "html")).
Qed.

(** [_closeTab] on a tab that is not the active one. *)
Lemma closeTab_other ed p tabId i t :
  NoDup (ids p) → _tabs p !! i = Some t → id t = tabId →
  _activeTabId p ≠ tabId →
  let p' := _closeTab basename ed tabId p in
  _activeTabId p' = _activeTabId p ∧
  _tabCounter p' = _tabCounter p ∧
  _tabs p' = take i (_tabs p) ++ drop (S i) (_tabs p) ∧
  _tabs p' = filter (λ t', id t' ≠ tabId) (_tabs p) ∧
  PreviewViewProvider._closeTab tabId p = p'.
Proof.
  intros Hnd Hi <- Hne p'. subst p'.
  pose proof (find_by_id _ _ _ Hnd Hi) as Hf.
  rewrite (closeTab_found ed (id t) p i t) by done.
  rewrite decide_False by done. simpl. split_and!; try done.
  - apply delete_take_drop.
  - rewrite delete_take_drop.
    rewrite <- (take_drop_middle _ _ _ Hi) at 3.
    rewrite filter_app, filter_cons_False by naive_solver.
    unfold ids in Hnd.
    rewrite <- (take_drop_middle _ _ _ Hi) in Hnd.
    rewrite fmap_app, fmap_cons in Hnd.
    apply NoDup_app in Hnd as (_ & Hl & [Hr _]%NoDup_cons).
    f_equal; symmetry; apply filter_all, Forall_forall; intros t' Ht' Heq.
    + apply (Hl (id t')); [by apply list_elem_of_fmap_2|]. rewrite Heq. by left.
    + apply Hr. rewrite <- Heq. by apply list_elem_of_fmap_2.
  - unfold PreviewViewProvider._closeTab. rewrite Hf. simpl. by rewrite decide_False.
Qed.

(** ** The counter and the ids *)

Lemma numbered_fresh p : numbered p → tab_id_of (S (_tabCounter p)) ∉ ids p.
Proof.
  intros Hn Hin. unfold numbered in Hn. rewrite Forall_forall in Hn.
  destruct (Hn _ Hin) as (k & Hk & Heq). apply tab_id_of_inj in Heq. lia.
Qed.

Lemma counted_addNewTab ed p : counted p → counted (_addNewTab basename ed p).
Proof.
  intros [Hn Hd]. split.
  - unfold numbered. rewrite addNewTab_ids, addNewTab_counter.
    apply Forall_app. split.
    + eapply Forall_impl; [exact Hn|]. intros x (k & ? & ?). exists k. split; [lia|done].
    + apply Forall_singleton. exists (S (_tabCounter p)). split; [lia|done].
  - rewrite addNewTab_ids. apply NoDup_app. split_and!; [done| |apply NoDup_singleton].
    intros x Hx ->%list_elem_of_singleton. by apply (numbered_fresh p).
Qed.

Lemma counted_sub p l a c :
  counted p → l `sublist_of` ids p → l = id <$> c →
  counted (mkPanel c a (_tabCounter p)).
Proof.
  intros [Hn Hd] Hsub Hl. split.
  - unfold numbered in *. unfold ids at 1. simpl. rewrite <- Hl.
    rewrite Forall_forall in *. intros x Hx. apply Hn. by eapply elem_of_sublist.
  - unfold ids. simpl. rewrite <- Hl. by eapply sublist_NoDup.
Qed.

Lemma counted_closeTab ed tabId p : counted p → counted (_closeTab basename ed tabId p).
Proof.
  intros Hc.
  destruct (list_find (λ t, id t = tabId) (_tabs p)) as [[i t]|] eqn:E.
  2:{ unfold _closeTab. by rewrite E. }
  rewrite (closeTab_found _ _ _ _ _ E).
  assert (∀ a, counted (mkPanel (delete i (_tabs p)) a (_tabCounter p))) as Hdel.
  { intros a. eapply counted_sub; [done| |done]. rewrite delete_ids. apply sublist_delete. }
  case_decide; [|done].
  destruct (delete i (_tabs p) !! (i - 1)%nat); [done|].
  apply counted_addNewTab. eapply counted_sub; [done| |done]. apply sublist_nil_l.
Qed.

Lemma counted_serve call p : counted p → counted (serve basename call p).
Proof.
  destruct call as [ed [| i | i |]]; simpl; intros Hc.
  - by apply counted_addNewTab.
  - done.
  - by apply counted_closeTab.
  - destruct Hc as [Hn Hd]. split.
    + unfold numbered. by rewrite update_ids, update_counter.
    + by rewrite update_ids.
Qed.

Lemma counted_run calls p : counted p → counted (run basename calls p).
Proof.
  revert p. induction calls as [|c calls IH]; intros p Hc; [done|].
  simpl. apply IH. by apply counted_serve.
Qed.

Lemma counted_session editor0 calls : counted (session basename editor0 calls).
Proof.
  apply counted_run, counted_addNewTab. split; [apply Forall_nil_2|apply NoDup_nil_2].
Qed.

(** C3, as amended: in every store of a session that holds a tab with
    the given id at index [i], [closeTab(id)] removes that tab; if it was
    the active one and tabs remain, the tab at index [max(0, i-1)] of the
    remaining list becomes active; if none remains, one tab is created
    from the next counter value and made active, and this tab is the
    fresh unbound tab unless an HTML document is focused, in which case
    it is bound to that document at once. *)
Theorem closeTab_selects_neighbour editor0 calls ed tabId i t :
  let p := session basename editor0 calls in
  _tabs p !! i = Some t → id t = tabId →
  let p' := _closeTab basename ed tabId p in
  let rest := delete i (_tabs p) in
  _tabs p = take i (_tabs p) ++ t :: drop (S i) (_tabs p) ∧
  rest = take i (_tabs p) ++ drop (S i) (_tabs p) ∧
  (_activeTabId p ≠ tabId → p' = mkPanel rest (_activeTabId p) (_tabCounter p)) ∧
  (_activeTabId p = tabId → rest ≠ [] →
     ∃ t', rest !! Nat.max 0 (i - 1) = Some t' ∧
           p' = mkPanel rest (id t') (_tabCounter p)) ∧
  (_activeTabId p = tabId → rest = [] →
     let n := S (_tabCounter p) in
     p' = mkPanel [synced basename ed (newTab n)] (id (newTab n)) n ∧
     unbound (newTab n) ∧
     (synced basename ed (newTab n) = newTab n ∨
      ∃ d, ed = Some d ∧ languageId d = "html" ∧
           synced basename ed (newTab n) =
             mkTab (id (newTab n)) (basename (fileName d))
                   (Some (doc_uri d)) (getText d))).
Proof.
  intros p Hi Hid p' rest.
  destruct (closeTab_at ed p tabId i t) as (H1 & H2 & H3);
    [apply counted_session|done..|].
  split_and!; [by rewrite take_drop_middle|apply delete_take_drop|done..|].
  intros Ha Hrest n. split_and!; [by apply H3|done|apply synced_cases].
Qed.

(** C10: in every store of a session, closing an existing tab that is not
    the active one removes that tab only: the active id and the counter
    are unchanged and the other tabs stay as they are, in their order.
    Both generations of the class agree. *)
Theorem closeTab_inactive_frame editor0 calls ed tabId i t :
  let p := session basename editor0 calls in
  _tabs p !! i = Some t → id t = tabId →
  _activeTabId p ≠ tabId →
  let p' := _closeTab basename ed tabId p in
  _activeTabId p' = _activeTabId p ∧
  _tabCounter p' = _tabCounter p ∧
  _tabs p' = take i (_tabs p) ++ drop (S i) (_tabs p) ∧
  _tabs p' = filter (λ t', id t' ≠ tabId) (_tabs p) ∧
  PreviewViewProvider._closeTab tabId p = p'.
Proof.
  intros p Hi Hid Hne. apply (closeTab_other ed p tabId i t); [|done..].
  apply counted_session.
Qed.

(** C9, as amended: in every state of a session [createTab] appends one
    tab, named from the next counter value, and makes it active (the
    method returns nothing; the id is the new active id).  The tab is the
    unbound tab with the placeholder title unless an HTML document is
    focused, in which case it is bound to that document before the call
    returns. *)
Theorem addNewTab_appends editor0 calls ed :
  let p := session basename editor0 calls in
  let n := S (_tabCounter p) in
  let p' := addNewTab basename ed p in
  _tabs p' = _tabs p ++ [synced basename ed (newTab n)] ∧
  _activeTabId p' = id (newTab n) ∧
  _tabCounter p' = n ∧
  id (synced basename ed (newTab n)) = tab_id_of n ∧
  unbound (newTab n) ∧ title (newTab n) = tab_title_of n ∧
  ((∀ d, ed = Some d → languageId d ≠ "html") →
     synced basename ed (newTab n) = newTab n) ∧
  (∀ d, ed = Some d → languageId d = "html" →
     synced basename ed (newTab n) =
       mkTab (tab_id_of n) (basename (fileName d)) (Some (doc_uri d)) (getText d)).
Proof.
  intros p n p'. subst p'. unfold addNewTab.
  rewrite addNewTab_eq by apply numbered_fresh, counted_session.
  split_and!; try done.
  - unfold synced. destruct ed as [d|]; [|done]. by case_decide.
  - intros Hd. unfold synced. destruct ed as [d|]; [|done].
    rewrite decide_True; [done|]. by apply Hd.
  - intros d -> Hl. unfold synced. rewrite decide_False; [done|]. naive_solver.
Qed.

(** ** The log of issued ids *)

Lemma issued_nil p p' : _tabCounter p' = _tabCounter p → issued p p' = [].
Proof. intros E. unfold issued. by rewrite E, Nat.sub_diag. Qed.

Lemma issued_one p p' : _tabCounter p' = S (_tabCounter p) →
  issued p p' = [tab_id_of (S (_tabCounter p))].
Proof.
  intros E. unfold issued. rewrite E.
  by replace (S (_tabCounter p) - _tabCounter p)%nat with 1%nat by lia.
Qed.




(** What one request does to the ids in the store: it keeps a
    subsequence of them and appends the ids it issues. *)
Lemma serve_ids call p :
  ∃ kept, ids (serve basename call p) = kept ++ issued p (serve basename call p) ∧
          kept `sublist_of` ids p ∧
          (_tabCounter p ≤ _tabCounter (serve basename call p))%nat.
Proof.
  destruct call as [ed [| i | i |]]; simpl.
  - exists (ids p). unfold addNewTab.
    rewrite addNewTab_ids, issued_one by apply addNewTab_counter.
    rewrite addNewTab_counter. split_and!; [done..|lia].
  - exists (ids p). rewrite issued_nil by done. by rewrite app_nil_r.
  - destruct (list_find (λ t, id t = i) (_tabs p)) as [[j t]|] eqn:E.
    2:{ unfold _closeTab. rewrite E. exists (ids p).
        rewrite issued_nil by done. by rewrite app_nil_r. }
    rewrite (closeTab_found _ _ _ _ _ E).
    assert (∀ a, let q := mkPanel (delete j (_tabs p)) a (_tabCounter p) in
      ∃ kept, ids q = kept ++ issued p q ∧ kept `sublist_of` ids p ∧
              (_tabCounter p ≤ _tabCounter q)%nat) as Hdel.
    { intros a q. exists (delete j (ids p)). rewrite issued_nil by done.
      rewrite app_nil_r. unfold q, ids at 1. simpl. rewrite delete_ids.
      split_and!; [done|apply sublist_delete|done]. }
    case_decide; [|apply Hdel].
    destruct (delete j (_tabs p) !! (j - 1)%nat); [apply Hdel|].
    exists []. rewrite addNewTab_ids, (issued_one p) by by rewrite addNewTab_counter.
    rewrite addNewTab_counter. simpl. split_and!; [done|apply sublist_nil_l|lia].
  - exists (ids p). rewrite update_ids, issued_nil by apply update_counter.
    rewrite update_counter. by rewrite app_nil_r.
Qed.





(** ** The timer survives [dispose()] *)

(** [dispose()] detaches the listeners and leaves the timer as it is. *)
Lemma dispose_keeps_timer ed s :
  timeout (react basename (ed, Dispose) s) = timeout s ∧
  subscribed (react basename (ed, Dispose) s) = false ∧
  fields (react basename (ed, Dispose) s) = fields s.
Proof. done. Qed.

(** A timer that is due runs the synchronisation, attached or not. *)
Lemma due_timer_fires ed s remaining ms :
  timeout s = Some remaining → (remaining ≤ ms)%nat →
  fields (react basename (ed, Elapse ms) s) =
    _updateActiveTabFromEditor basename ed (fields s).
Proof. intros E Hle. simpl. rewrite E. by rewrite decide_True. Qed.

End StoreFacts.

(** * Properties of the matcher *)

Section Engine.
Variable ic : bool.


Lemma repeat_matcher_local greedy body n : local body → local (repeat_matcher greedy body n).
Proof.
  intros Hb. induction n as [|n IH]; intros s caps k Hk; simpl.
  - by apply Hk.
  - assert (body s caps (λ s' caps',
      if decide (length s' < length s)%nat
      then repeat_matcher greedy body n s' caps' k else None) = None) as ->.
    { apply Hb. intros s' caps' Hs. case_decide; [|done].
      apply IH. intros s'' caps'' Hs'. apply Hk. by etrans. }
    rewrite (Hk s caps) by done. by destruct greedy.
Qed.

Lemma compile_local r : local (compile ic r).
Proof.
  induction r as [a| |r1 IH1 r2 IH2|r1 IH1 r2 IH2|g r IH|g r IH|n r IH|r IH];
    intros s caps k Hk; simpl.
  - destruct s as [|x s]; [done|]. destruct (accepts ic a x); [|done].
    apply Hk. by apply suffix_cons_r.
  - by apply Hk.
  - apply IH1. intros s' caps' Hs. apply IH2. intros s'' caps'' Hs'. apply Hk. by etrans.
  - rewrite IH1, IH2 by done. done.
  - by apply repeat_matcher_local.
  - apply IH. intros s' caps' Hs. apply repeat_matcher_local; [done|].
    intros s'' caps'' Hs'. apply Hk. by etrans.
  - apply IH. intros s' caps' Hs. by apply Hk.
  - destruct (compile ic r s caps _); [done|]. by apply Hk.
Qed.

(** Literal words *)
Lemma compile_word (w : text) r s caps k :
  compile ic (foldr (λ c r, Cat (Atom (Chr c)) r) r w) s caps k =
    if starts_with ic w s then compile ic r (drop (length w) s) caps k else None.
Proof.
  revert s. induction w as [|c w IH]; intros s; simpl; [done|].
  destruct s as [|x s]; [done|]. simpl.
  destruct (same_char ic c x); simpl; [|done]. apply IH.
Qed.

Lemma compile_lit w s caps k :
  compile ic (lit w) s caps k =
    if starts_with ic (str w) s then k (drop (length (str w)) s) caps else None.
Proof. unfold lit. by rewrite compile_word. Qed.

Lemma compile_cat_cons r rs s caps k :
  compile ic (cat (r :: rs)) s caps k =
    compile ic r s caps (λ s' caps', compile ic (cat rs) s' caps' k).
Proof. done. Qed.

Lemma compile_cat_nil s caps k : compile ic (cat []) s caps k = k s caps.
Proof. done. Qed.

Lemma compile_atom a s caps k :
  compile ic (Atom a) s caps k =
    match s with
    | x :: s' => if accepts ic a x then k s' caps else None
    | [] => None
    end.
Proof. done. Qed.

(** Repetition of an atom: one round is one character, so the bound on
    the rounds follows the length of the input. *)
Lemma star_atom greedy a s caps k :
  repeat_matcher greedy (compile ic (Atom a)) (length s) s caps k =
    let again :=
      match s with
      | x :: s' =>
          if accepts ic a x
          then repeat_matcher greedy (compile ic (Atom a)) (length s') s' caps k
          else None
      | [] => None
      end in
    if greedy then or_else again (k s caps) else or_else (k s caps) again.
Proof.
  destruct s as [|x s]; simpl.
  - by destruct greedy, (k [] caps).
  - destruct (accepts ic a x); [|done].
    rewrite decide_True by lia. done.
Qed.

(** A lazy repetition passes over accepted characters as long as the
    continuation fails behind them. *)
Lemma lazy_star_skip a pre rest caps k :
  Forall (λ x, accepts ic a x = true) pre →
  (∀ b1 b2, pre = b1 ++ b2 → b2 ≠ [] → k (b2 ++ rest) caps = None) →
  repeat_matcher false (compile ic (Atom a)) (length (pre ++ rest)) (pre ++ rest) caps k =
  repeat_matcher false (compile ic (Atom a)) (length rest) rest caps k.
Proof.
  induction pre as [|x pre IH]; intros Hacc Hk; [done|].
  assert (k (x :: pre ++ rest) caps = None) as H0 by by apply (Hk [] (x :: pre)).
  change ((x :: pre) ++ rest) with (x :: (pre ++ rest)).
  rewrite star_atom. cbn zeta. rewrite H0. simpl.
  apply Forall_cons in Hacc as [-> Hacc]. apply IH; [done|].
  intros b1 b2 -> Hb. by apply (Hk (x :: b1) b2).
Qed.

Lemma lazy_star_here a s caps k res :
  k s caps = Some res →
  repeat_matcher false (compile ic (Atom a)) (length s) s caps k = Some res.
Proof. intros Hk. rewrite star_atom. cbn zeta. simpl. by rewrite Hk. Qed.

(** A greedy repetition over a run of accepted characters ends where the
    continuation succeeds; if it succeeds with a property everywhere in the
    run, the outcome has the property. *)
Lemma greedy_star_run (P : text * captures → Prop) a run rest caps k :
  match rest with x :: _ => accepts ic a x = false | [] => True end →
  (∀ b1 b2, run = b1 ++ b2 → ∃ res, k (b2 ++ rest) caps = Some res ∧ P res) →
  ∃ res, repeat_matcher true (compile ic (Atom a)) (length (run ++ rest)) (run ++ rest) caps k
           = Some res ∧ P res.
Proof.
  intros Hrest. induction run as [|x run IH]; intros Hk.
  - rewrite star_atom. cbn zeta. simpl.
    destruct (Hk [] []) as (res & Hres & HP); [done|]. simpl in Hres.
    exists res. split; [|done].
    destruct rest as [|y rest]; simpl; [done|]. by rewrite Hrest.
  - change ((x :: run) ++ rest) with (x :: (run ++ rest)).
    rewrite star_atom. cbn zeta.
    destruct IH as (res & Hres & HP).
    { intros b1 b2 ->. by apply (Hk (x :: b1) b2). }
    destruct (accepts ic a x).
    + rewrite Hres. by exists res.
    + simpl. by apply (Hk [] (x :: run)).
Qed.

End Engine.

(** [replace] *)
Section Replace.
Variables (ic : bool) (r : regex) (cb : text → captures → text).

Lemma replace_from_enough n n' s :
  (length s < n)%nat → (length s < n')%nat →
  replace_from n ic r cb s = replace_from n' ic r cb s.
Proof.
  revert n' s. induction n as [|n IH]; intros [|n'] s Hn Hn'; try lia.
  simpl.
  assert (match s with [] => [] | x :: s' => x :: replace_from n ic r cb s' end =
          match s with [] => [] | x :: s' => x :: replace_from n' ic r cb s' end) as Hskip.
  { destruct s as [|x s]; [done|]. simpl in *. f_equal. apply IH; lia. }
  destruct (match_here ic r s) as [[rest caps]|]; [|done].
  case_decide; [|by rewrite Hskip].
  f_equal. apply IH; lia.
Qed.

Lemma replace_all_skip x s :
  match_here ic r (x :: s) = None →
  replace_all ic r cb (x :: s) = x :: replace_all ic r cb s.
Proof.
  intros H. unfold replace_all. simpl replace_from at 1. by rewrite H.
Qed.

Lemma replace_all_nil : match_here ic r [] = None → replace_all ic r cb [] = [].
Proof. intros H. unfold replace_all. simpl. by rewrite H. Qed.

Lemma replace_all_match s rest caps :
  match_here ic r s = Some (rest, caps) → (length rest < length s)%nat →
  replace_all ic r cb s =
    cb (take (length s - length rest) s) caps ++ replace_all ic r cb rest.
Proof.
  intros H Hlt. unfold replace_all. simpl replace_from at 1. rewrite H.
  rewrite decide_True by done. f_equal. apply replace_from_enough; lia.
Qed.

Lemma replace_all_prefix pre rest :
  (∀ b1 b2, pre = b1 ++ b2 → b2 ≠ [] → match_here ic r (b2 ++ rest) = None) →
  replace_all ic r cb (pre ++ rest) = pre ++ replace_all ic r cb rest.
Proof.
  induction pre as [|x pre IH]; intros H; [done|]. simpl.
  rewrite replace_all_skip by by apply (H [] (x :: pre)).
  f_equal. apply IH. intros b1 b2 -> Hb. by apply (H (x :: b1) b2).
Qed.

Lemma replace_all_none s :
  (∀ b1 b2, s = b1 ++ b2 → match_here ic r b2 = None) →
  replace_all ic r cb s = s.
Proof.
  intros H. rewrite <- (app_nil_r s) at 1. rewrite replace_all_prefix.
  - rewrite replace_all_nil; [by rewrite app_nil_r|]. by apply (H s []), eq_sym, app_nil_r.
  - intros b1 b2 -> _. rewrite app_nil_r. by apply (H b1 b2).
Qed.
End Replace.

(** * Properties of the patterns *)

Lemma accepts_quote x : accepts true (OneOf [dq; sq]) x = is_quote x.
Proof. destruct x as [[] [] [] [] [] [] [] []]; vm_compute; reflexivity. Qed.

Lemma accepts_not_gt x : accepts true (NoneOf [">"%char]) x = negb (bool_decide (x = ">"%char)).
Proof. destruct x as [[] [] [] [] [] [] [] []]; vm_compute; reflexivity. Qed.

Lemma same_char_refl ic c : same_char ic c c = true.
Proof. unfold same_char. destruct ic; by apply bool_decide_eq_true. Qed.

Lemma elem_of_tails b1 b2 : b2 ∈ tails (b1 ++ b2).
Proof.
  induction b1 as [|x b1 IH]; simpl.
  - destruct b2; apply list_elem_of_here.
  - by apply list_elem_of_further.
Qed.

Lemma elem_of_tails_inv t s : t ∈ tails s → ∃ b1, s = b1 ++ t.
Proof.
  induction s as [|x s IH]; simpl.
  - intros ->%list_elem_of_singleton. by exists [].
  - intros [->|Hin]%elem_of_cons; [by exists []|].
    destruct (IH Hin) as [b1 ->]. by exists (x :: b1).
Qed.

Lemma free_of_suffix test b1 b2 : free_of test (b1 ++ b2) = true → test b2 = false.
Proof.
  unfold free_of. rewrite forallb_forall. intros H.
  apply negb_true_iff, H, list_elem_of_In, elem_of_tails.
Qed.

Lemma starts_with_self ic w r : starts_with ic w (w ++ r) = true.
Proof. induction w as [|c w IH]; [done|]. simpl. by rewrite same_char_refl. Qed.


(** The pattern pieces, evaluated *)
Lemma compile_word_quote w rs s caps k :
  compile true (cat (lit w :: Atom (OneOf [dq; sq]) :: rs)) s caps k =
    if word_quote w s
    then compile true (cat rs) (drop (S (length (str w))) s) caps k
    else None.
Proof.
  rewrite compile_cat_cons, compile_lit. unfold word_quote.
  destruct (starts_with true (str w) s); [|done]. simpl andb.
  rewrite compile_cat_cons, compile_atom.
  replace (S (length (str w))) with (length (str w) + 1)%nat by lia.
  rewrite <- drop_drop.
  destruct (drop (length (str w)) s) as [|x s']; [done|].
  rewrite accepts_quote. by destruct (is_quote x).
Qed.

Lemma compile_not_absolute s caps k :
  compile true not_absolute s caps k = if looks_absolute s then None else k s caps.
Proof.
  unfold not_absolute, looks_absolute.
  change (compile true (NegLookahead ?r) s caps k)
    with (match compile true r s caps (λ s' caps', Some (s', caps')) with
          | Some _ => None | None => k s caps end).
  repeat change (compile true (Or ?r1 ?r2) ?s ?c ?k')
    with (or_else (compile true r1 s c k') (compile true r2 s c k')).
  rewrite !compile_lit.
  destruct (starts_with true (str "http") s); [done|].
  destruct (starts_with true (str "https://") s); [done|].
  destruct (starts_with true (str "//") s); [done|].
  by destruct (starts_with true (str "data:") s).
Qed.


Lemma no_gt_accepts s :
  no_gt s = true → Forall (λ x, accepts true (NoneOf [">"%char]) x = true) s.
Proof.
  unfold no_gt. rewrite forallb_forall, Forall_forall. intros H x Hx.
  rewrite accepts_not_gt. apply (H x). by apply list_elem_of_In.
Qed.

Lemma free_of_drop test b1 b2 : free_of test (b1 ++ b2) = true → free_of test b2 = true.
Proof.
  unfold free_of. rewrite !forallb_forall. intros H t Ht. apply H. clear H.
  induction b1 as [|x b1 IH]; [exact Ht|]. simpl. by right.
Qed.

Ltac split_chars :=
  repeat match goal with
         | |- context [same_char true ?c ?x] =>
             is_var x; destruct (same_char true c x)
         end.

Lemma looks_absolute_before_quote p q r :
  is_quote q = true → looks_absolute (p ++ q :: r) = looks_absolute p.
Proof.
  intros Hq. unfold looks_absolute.
  assert (∀ w, Forall (λ c, same_char true c q = false) w →
               starts_with true w (p ++ q :: r) = starts_with true w p) as H.
  { intros w. revert p. induction w as [|c w IH]; intros p Hw; [by destruct p|].
    apply Forall_cons in Hw as [Hc Hw].
    destruct p as [|x p]; cbn [starts_with app]; [by rewrite Hc|].
    by rewrite IH. }
  assert (∀ w, forallb (λ c, negb (same_char true c dq) && negb (same_char true c sq)) w = true →
               Forall (λ c, same_char true c q = false) w) as Hw.
  { intros w Hall. rewrite forallb_forall in Hall. apply Forall_forall. intros c Hc.
    specialize (Hall c (proj1 (list_elem_of_In _ _) Hc)).
    apply andb_true_iff in Hall as [H1 H2]. apply negb_true_iff in H1, H2.
    unfold is_quote in Hq. apply orb_true_iff in Hq as [Hq|Hq];
      apply bool_decide_eq_true in Hq; by subst q. }
  rewrite !H by (apply Hw; reflexivity). done.
Qed.


Lemma compile_group n r s caps k :
  compile true (Group n r) s caps k =
    compile true r s caps (λ s' caps', k s' ((n, take (length s - length s') s) :: caps')).
Proof. done. Qed.

Lemma compile_star g r s caps k :
  compile true (Star g r) s caps k = repeat_matcher g (compile true r) (length s) s caps k.
Proof. done. Qed.

Lemma compile_seq r1 r2 s caps k :
  compile true (Cat r1 r2) s caps k =
    compile true r1 s caps (λ s' caps', compile true r2 s' caps' k).
Proof. done. Qed.

Lemma compile_lit_quote w rs s caps (F : text → captures → captures) k :
  compile true (lit w) s caps (λ s' caps',
    compile true (cat (Atom (OneOf [dq; sq]) :: rs)) s' (F s' caps') k) =
  if word_quote w s
  then compile true (cat rs) (drop (S (length (str w))) s) (F (drop (length (str w)) s) caps) k
  else None.
Proof.
  rewrite compile_lit. unfold word_quote.
  destruct (starts_with true (str w) s); [|done]. simpl andb.
  rewrite compile_cat_cons, compile_atom.
  replace (S (length (str w))) with (length (str w) + 1)%nat by lia.
  rewrite <- drop_drop.
  destruct (drop (length (str w)) s) as [|x s']; [done|].
  rewrite accepts_quote. by destruct (is_quote x).
Qed.

Lemma word_quote_self w q r : is_quote q = true → word_quote w (str w ++ q :: r) = true.
Proof. intros Hq. unfold word_quote. by rewrite starts_with_self, drop_app_length, Hq. Qed.

Lemma drop_past_quote (w : text) q (r : text) : drop (S (length w)) (w ++ q :: r) = r.
Proof.
  replace (S (length w)) with (length w + 1)%nat by lia.
  by rewrite <- drop_drop, drop_app_length.
Qed.

Lemma take_consumed (a b : text) : take (length (a ++ b) - length b) (a ++ b) = a.
Proof.
  rewrite length_app. replace (length a + length b - length b)%nat with (length a) by lia.
  apply take_app_length.
Qed.

Lemma forallb_drop {A} (f : A → bool) b1 b2 : forallb f (b1 ++ b2) = true → forallb f b2 = true.
Proof. rewrite forallb_app. by intros [_ ?]%andb_true_iff. Qed.

Lemma not_gt_char x : accepts true (NoneOf [">"%char]) x = true → accepts true (Chr ">") x = false.
Proof. simpl. rewrite orb_false_r. by intros ?%negb_true_iff. Qed.

(** A document whose every [href=] and [src=] with a quote opens an
    absolute value has, in particular, only absolute [href] and [src]
    attributes. *)
Lemma absolute_references_cover_attributes doc :
  only_absolute_references doc = true → only_absolute_attributes doc = true.
Proof.
  unfold only_absolute_references, only_absolute_attributes.
  rewrite !forallb_forall. intros H t Ht.
  destruct t as [|x t']; [done|].
  apply list_elem_of_In, elem_of_tails_inv in Ht as [b1 ->].
  specialize (H t'). rewrite (app_assoc b1 [x] t' : b1 ++ x :: t' = (b1 ++ [x]) ++ t') in H.
  specialize (H (proj1 (list_elem_of_In _ _) (elem_of_tails _ t'))).
  apply andb_true_iff in H as [H1 H2]. unfold attribute_at.
  change (drop 7 (x :: t')) with (drop 6 t'). change (drop 6 (x :: t')) with (drop 5 t').
  destruct (white_space x); [|done]. simpl andb. by rewrite H1, H2.
Qed.

Section ResolverFacts.
Variable path_join : text → text → text.
Variable fs : text → found.
Variable asWebviewUri : text → text.






(** Text without [src=] and a quote passes the second and the third
    [replace] unchanged. *)
Lemma src_free_unchanged documentDir t :
  free_of (word_quote "src=") t = true →
  src_pass path_join asWebviewUri documentDir t = t ∧
  script_pass path_join fs documentDir t = t.
Proof.
  intros Hfree. split; apply replace_all_none; intros b1 b2 ->.
  - unfold match_here, src_pattern.
    by rewrite compile_word_quote, (free_of_suffix _ b1 b2 Hfree).
  - unfold match_here, script_src_pattern.
    rewrite compile_cat_cons. apply compile_local. intros s1 c1 [a1 ->].
    rewrite compile_cat_cons. apply compile_local. intros s2 c2 [a2 ->].
    rewrite compile_cat_cons. apply compile_local. intros s3 c3 [a3 ->].
    rewrite compile_word_quote.
    rewrite (free_of_suffix _ (b1 ++ a1 ++ a2 ++ a3) s3); [done|].
    by rewrite <- !app_assoc.
Qed.

End ResolverFacts.

(** Lazy [.*?] before a quote: without a quote on the line it fails,
    whatever follows in the pattern. *)
Lemma lazy_dot_no_quote v caps rs (F : text → captures → captures) k :
  quote_on_line v = false →
  repeat_matcher false (compile true (Atom Dot)) (length v) v caps
    (λ s' caps', compile true (cat (Atom (OneOf [dq; sq]) :: rs)) s' (F s' caps') k) = None.
Proof.
  induction v as [|x v IH]; intros Hno.
  - done.
  - rewrite star_atom. cbn zeta. cbn [quote_on_line] in Hno.
    apply orb_false_iff in Hno as [Hq Hno].
    rewrite compile_cat_cons, compile_atom, accepts_quote, Hq.
    cbn [or_else accepts].
    destruct (line_terminator x); simpl in *; [done|]. by apply IH.
Qed.

(** With one, and nothing after the quote in the pattern, the match ends
    behind the first quote. *)
Lemma lazy_dot_to_quote v caps (F : text → captures → captures) :
  quote_on_line v = true →
  ∃ caps',
    repeat_matcher false (compile true (Atom Dot)) (length v) v caps
      (λ s' caps', compile true (cat [Atom (OneOf [dq; sq])]) s' (F s' caps')
                     (λ s'' caps'', Some (s'', caps''))) = Some (after_quote v, caps').
Proof.
  induction v as [|x v IH]; intros Hq; [done|].
  rewrite star_atom. cbn zeta. cbn [quote_on_line after_quote] in *.
  rewrite compile_cat_cons, compile_atom, accepts_quote.
  destruct (is_quote x) eqn:Hx.
  - rewrite compile_cat_nil. simpl. by eexists.
  - cbn [or_else accepts]. simpl in Hq.
    destruct (line_terminator x); simpl in *; [done|]. by apply IH.
Qed.

Lemma src_match_live s :
  live_src s = true →
  ∃ caps, match_here true src_pattern s = Some (after_quote (drop 5 s), caps).
Proof.
  unfold live_src. rewrite !andb_true_iff, negb_true_iff. intros [[Hw Ha] Hq].
  unfold match_here, src_pattern.
  rewrite compile_word_quote, Hw. change (drop (S (length (str "src="))) s) with (drop 5 s).
  rewrite compile_cat_cons, compile_not_absolute, Ha.
  rewrite compile_cat_cons, compile_group, compile_star.
  by apply (lazy_dot_to_quote (drop 5 s) []
          (λ s' caps', (1, take (length (drop 5 s) - length s') (drop 5 s)) :: caps')).
Qed.

Lemma src_match_dead s : live_src s = false → match_here true src_pattern s = None.
Proof.
  unfold live_src. intros Hl. unfold match_here, src_pattern.
  rewrite compile_word_quote.
  destruct (word_quote "src=" s); [|done].
  change (drop (S (length (str "src="))) s) with (drop 5 s).
  rewrite compile_cat_cons, compile_not_absolute.
  destruct (looks_absolute (drop 5 s)); [done|]. simpl in Hl.
  rewrite compile_cat_cons, compile_group, compile_star.
  by apply (lazy_dot_no_quote (drop 5 s) [] []
          (λ s' caps', (1, take (length (drop 5 s) - length s') (drop 5 s)) :: caps')).
Qed.

(** The third pattern cannot match through a [src=] that is not live. *)
Lemma script_needs_live_src s :
  (∀ b1 b2, s = b1 ++ b2 → live_src b2 = false) →
  match_here true script_src_pattern s = None.
Proof.
  intros Hdead. unfold match_here, script_src_pattern.
  rewrite compile_cat_cons. apply compile_local. intros s1 c1 [a1 ->].
  rewrite compile_cat_cons. apply compile_local. intros s2 c2 [a2 ->].
  rewrite compile_cat_cons. apply compile_local. intros s3 c3 [a3 ->].
  specialize (Hdead (a1 ++ a2 ++ a3) s3). rewrite <- !app_assoc in Hdead.
  specialize (Hdead eq_refl). unfold live_src in Hdead.
  rewrite compile_word_quote.
  destruct (word_quote "src=" s3); [|done].
  change (drop (S (length (str "src="))) s3) with (drop 5 s3).
  rewrite compile_cat_cons, compile_not_absolute.
  destruct (looks_absolute (drop 5 s3)); [done|]. simpl in Hdead.
  rewrite compile_cat_cons, compile_group, compile_star.
  by apply (lazy_dot_no_quote (drop 5 s3) _ _
          (λ s' caps', (2, take (length (drop 5 s3) - length s') (drop 5 s3)) :: caps')).
Qed.

(** ** The third [replace] behind the second *)

Lemma same_char_sym a b : same_char true a b = same_char true b a.
Proof. unfold same_char. apply bool_decide_ext. naive_solver. Qed.

Lemma same_char_via a y c :
  same_char true a y = true → same_char true c y = same_char true c a.
Proof.
  unfold same_char. intros H%bool_decide_eq_true. apply bool_decide_ext. by rewrite H.
Qed.

Lemma is_quote_cases q : is_quote q = true → q = dq ∨ q = sq.
Proof.
  unfold is_quote. intros [H|H]%orb_true_iff; apply bool_decide_eq_true in H; auto.
Qed.

(** A character read as a letter of [src=] is neither a quote nor a line
    terminator. *)
Lemma letter_plain c y :
  c ∈ str "src=" → same_char true c y = true →
  is_quote y = false ∧ line_terminator y = false.
Proof.
  intros Hc Hy. unfold same_char in Hy. apply bool_decide_eq_true in Hy.
  cbn in Hc.
  repeat (apply elem_of_cons in Hc as [->|Hc];
    [clear -Hy; destruct y as [[] [] [] [] [] [] [] []]; vm_compute in Hy;
       first [discriminate Hy | split; reflexivity]|]).
  by apply elem_of_nil in Hc.
Qed.

Lemma same_text_refl ys : same_text ys ys.
Proof. induction ys; constructor; [apply same_char_refl|done]. Qed.

Lemma starts_with_inv w s :
  starts_with true w s = true → ∃ ys r, s = ys ++ r ∧ same_text ys w.
Proof.
  revert s. induction w as [|c w IH]; intros s H.
  - exists [], s. split; [done|constructor].
  - destruct s as [|y s]; [done|]. cbn [starts_with] in H.
    apply andb_true_iff in H as [Hc H]. destruct (IH s H) as (ys & r & -> & Hys).
    exists (y :: ys), r. split; [done|]. constructor; [|done].
    by rewrite same_char_sym.
Qed.

Lemma word_quote_inv w b :
  word_quote w b = true →
  ∃ ys q v, b = ys ++ q :: v ∧ same_text ys (str w) ∧ is_quote q = true.
Proof.
  unfold word_quote. intros [Hw Hq]%andb_true_iff.
  destruct (starts_with_inv _ _ Hw) as (ys & r & -> & Hys).
  rewrite <- (Forall2_length _ _ _ Hys), drop_app_length in Hq.
  destruct r as [|q v]; [done|]. by exists ys, q, v.
Qed.

(** A word without quotes is read alike at the start of two texts that
    read the same up to a quote. *)
Lemma starts_with_same_text L ys zs q1 q2 v1 v2 :
  forallb (λ c, negb (is_quote c)) L = true →
  same_text ys zs → is_quote q1 = true → is_quote q2 = true →
  starts_with true L (ys ++ q1 :: v1) = starts_with true L (zs ++ q2 :: v2).
Proof.
  intros HL Hsame Hq1 Hq2. revert ys zs Hsame.
  induction L as [|c L IH]; intros ys zs Hsame; [done|].
  cbn [forallb] in HL. apply andb_true_iff in HL as [Hc HL].
  apply negb_true_iff in Hc.
  assert (∀ q, is_quote q = true → same_char true c q = false) as Hcq.
  { intros q Hq. destruct (same_char true c q) eqn:E; [|done].
    rewrite same_char_sym in E.
    apply is_quote_cases in Hq as [->| ->];
      clear -E Hc; destruct c as [[] [] [] [] [] [] [] []]; vm_compute in E, Hc;
        first [discriminate E | discriminate Hc]. }
  destruct Hsame as [|y z ys zs Hyz Hsame]; cbn [starts_with app].
  - by rewrite !Hcq.
  - rewrite (IH HL ys zs Hsame). f_equal.
    rewrite same_char_sym in Hyz. apply (same_char_via _ _ _ Hyz).
Qed.

Lemma looks_absolute_same_text ys zs q1 q2 v1 v2 :
  same_text ys zs → is_quote q1 = true → is_quote q2 = true →
  looks_absolute (ys ++ q1 :: v1) = looks_absolute (zs ++ q2 :: v2).
Proof.
  intros Hsame Hq1 Hq2. unfold looks_absolute.
  by rewrite !(starts_with_same_text _ ys zs q1 q2 v1 v2).
Qed.

Lemma quote_after_plain ys q v :
  Forall (λ y, is_quote y = false ∧ line_terminator y = false) ys →
  is_quote q = true → quote_on_line (ys ++ q :: v) = true.
Proof.
  intros Hys Hq. induction Hys as [|y ys [Hy1 Hy2] _ IH]; cbn [quote_on_line app].
  - by rewrite Hq.
  - by rewrite Hy1, Hy2.
Qed.

Lemma src_letters_plain ys :
  same_text ys (str "src=") →
  Forall (λ y, is_quote y = false ∧ line_terminator y = false) ys.
Proof.
  intros Hsame. apply Forall_forall. intros y Hy.
  apply list_elem_of_lookup in Hy as [i Hi].
  destruct (Forall2_lookup_l _ _ _ _ _ Hsame Hi) as (z & Hz & Hyz).
  apply (letter_plain z y); [by eapply list_elem_of_lookup_2|].
  by rewrite same_char_sym.
Qed.

Lemma quote_on_line_transfer u3 ys q v R' :
  same_text ys (str "src=") → is_quote q = true →
  quote_on_line (u3 ++ str "src=" ++ dq :: R') = true →
  quote_on_line (u3 ++ ys ++ q :: v) = true.
Proof.
  intros Hys Hq. induction u3 as [|x u3 IH]; cbn [app quote_on_line].
  - intros _. apply quote_after_plain; [by apply src_letters_plain|done].
  - destruct (is_quote x); [done|]. destruct (line_terminator x); [done|]. apply IH.
Qed.

(** Where the text before a live [src=] reads as a live [src=] once the
    match is replaced, it did so before. *)
Lemma live_transfer u2 b R' :
  u2 ≠ [] → word_quote "src=" b = true →
  live_src (u2 ++ str "src=" ++ dq :: R') = true → live_src (u2 ++ b) = true.
Proof.
  intros Hne Hb.
  destruct (word_quote_inv _ _ Hb) as (ys & q & v & -> & Hys & Hq).
  destruct u2 as [|x1 [|x2 [|x3 [|x4 [|x5 u3]]]]]; [done|..].
  1-4: intros [[Hw _]%andb_true_iff _]%andb_true_iff; exfalso; revert Hw;
       unfold word_quote;
       cbn [str String.list_ascii_of_string starts_with app length drop];
       split_chars; discriminate.
  unfold live_src.
  repeat match goal with
  | |- context [word_quote "src=" ((x1 :: x2 :: x3 :: x4 :: x5 :: u3) ++ ?X)] =>
      change (word_quote "src=" ((x1 :: x2 :: x3 :: x4 :: x5 :: u3) ++ X))
        with (word_quote "src=" [x1; x2; x3; x4; x5]);
      change (drop 5 ((x1 :: x2 :: x3 :: x4 :: x5 :: u3) ++ X)) with (u3 ++ X)
  end.
  intros [[Hw Habs]%andb_true_iff Hql]%andb_true_iff.
  rewrite Hw. cbn [andb].
  apply andb_true_iff. split.
  - rewrite (app_assoc u3 ys), (looks_absolute_same_text _ (u3 ++ str "src=") q dq v R').
    + by rewrite <- app_assoc.
    + apply Forall2_app; [apply same_text_refl|done].
    + done.
    + done.
  - by eapply quote_on_line_transfer.
Qed.

Lemma starts_with_prefix L U X :
  starts_with true L U = true → starts_with true L (U ++ X) = true.
Proof.
  revert U. induction L as [|c L IH]; intros U H; [done|].
  destruct U as [|x U]; [done|]. cbn [starts_with app] in *.
  apply andb_true_iff in H as [-> H]. by apply IH.
Qed.

(** No suffix of a replacement reads as a live [src=], whatever follows. *)
Lemma replacement_dead U r1 r2 o :
  encoded_uri U = true →
  str "src=" ++ dq :: U ++ [dq] = r1 ++ r2 → r2 ≠ [] →
  live_src (r2 ++ o) = false.
Proof.
  unfold encoded_uri. rewrite !andb_true_iff. intros [[Hhttp Hnq] Hfree] HR Hne.
  destruct r1 as [|c1 r1].
  { cbn [app] in HR. subst r2. unfold live_src.
    change (word_quote "src=" ((str "src=" ++ dq :: U ++ [dq]) ++ o)) with true.
    change (drop 5 ((str "src=" ++ dq :: U ++ [dq]) ++ o)) with ((U ++ [dq]) ++ o).
    unfold looks_absolute. rewrite <- app_assoc.
    by rewrite (starts_with_prefix _ U _ Hhttp). }
  assert (word_quote "src=" (r2 ++ o) = false) as Hw; [|unfold live_src; by rewrite Hw].
  cbn [str String.list_ascii_of_string app] in HR.
  injection HR as <- HR.
  destruct r1 as [|c2 r1]; [cbn [app] in HR; subst r2; reflexivity|injection HR as <- HR].
  destruct r1 as [|c3 r1]; [cbn [app] in HR; subst r2; reflexivity|injection HR as <- HR].
  destruct r1 as [|c4 r1]; [cbn [app] in HR; subst r2; reflexivity|injection HR as <- HR].
  destruct r1 as [|c5 r1]; [cbn [app] in HR; subst r2; reflexivity|injection HR as <- HR].
  (* r2 begins inside the URI or is the closing quote *)
  apply app_eq_inv in HR as [(k & -> & ->)|(k & -> & Hk)].
  - (* U = r1 ++ k, r2 = k ++ [dq] *)
    rewrite forallb_app in Hnq. apply andb_true_iff in Hnq as [_ Hnq].
    pose proof (free_of_suffix _ r1 k Hfree) as Hk.
    destruct k as [|x1 [|x2 [|x3 [|x4 [|x5 k]]]]];
      revert Hk; unfold word_quote;
      cbn [str String.list_ascii_of_string starts_with app length drop];
      try (intros _; split_chars; reflexivity).
    + intros ->. reflexivity.
    + intros _. cbn [forallb] in Hnq. do 4 (apply andb_true_iff in Hnq as [_ Hnq]).
      apply andb_true_iff in Hnq as [Hx5 _]. apply negb_true_iff in Hx5.
      rewrite Hx5. apply andb_false_r.
  - (* r2 lies behind the URI *)
    destruct k as [|x k].
    + cbn [app] in Hk. subst r2. reflexivity.
    + injection Hk as _ Hk. symmetry in Hk. by apply app_eq_nil in Hk as [_ ?].
Qed.

Lemma free_of_intro test t :
  (∀ b1 b2, t = b1 ++ b2 → test b2 = false) → free_of test t = true.
Proof.
  intros H. unfold free_of. apply forallb_forall. intros b2 Hb2.
  apply list_elem_of_In, elem_of_tails_inv in Hb2 as [b1 ->].
  apply negb_true_iff. by apply (H b1).
Qed.

(** Either no live [src=] stands in a text, or there is a first one. *)
Lemma first_live s :
  free_of live_src s = true ∨
  ∃ u b, s = u ++ b ∧ live_src b = true ∧
         ∀ u1 u2, u = u1 ++ u2 → u2 ≠ [] → live_src (u2 ++ b) = false.
Proof.
  induction s as [|x s IH].
  - by left.
  - destruct (live_src (x :: s)) eqn:Hx.
    + right. exists [], (x :: s). split_and!; [done..|].
      intros u1 u2 Hu Hne. symmetry in Hu. by apply app_eq_nil in Hu as [_ ?].
    + destruct IH as [Hfree|(u & b & -> & Hb & Hu)].
      * left. unfold free_of in *. cbn [tails forallb]. by rewrite Hx.
      * right. exists (x :: u), b. split_and!; [done..|].
        intros u1 u2 Heq Hne. destruct u1 as [|y u1].
        -- cbn [app] in Heq. by subst u2.
        -- injection Heq as _ Heq. by apply (Hu u1 u2).
Qed.

Lemma after_quote_length v : (length (after_quote v) ≤ length v)%nat.
Proof. induction v as [|x v IH]; [done|]. simpl. destruct (is_quote x); lia. Qed.

Section DeadPass.

Variable path_join : text → text → text.
Variable fs : text → found.
Variable asWebviewUri : text → text.
Variable documentDir : text.

Hypothesis encoded : ∀ p, encoded_uri (asWebviewUri p) = true.

(** After the second [replace] no live [src=] is left. *)
Lemma src_pass_leaves_none n s :
  (length s ≤ n)%nat →
  free_of live_src (src_pass path_join asWebviewUri documentDir s) = true.
Proof.
  revert s. induction n as [|n IH]; intros s Hn.
  { destruct s; [reflexivity|simpl in Hn; lia]. }
  unfold src_pass in *.
  destruct (first_live s) as [Hfree|(u & b & -> & Hb & Hu)].
  { rewrite replace_all_none; [done|].
    intros b1 b2 ->. apply src_match_dead. by eapply free_of_suffix. }
  destruct (src_match_live b Hb) as (caps & Hm).
  pose proof Hb as [[Hw _]%andb_true_iff _]%andb_true_iff.
  destruct (word_quote_inv _ _ Hw) as (ys & q & v & Hbv & Hys & Hq).
  assert (length ys = 4%nat) as Hlen by apply (Forall2_length _ _ _ Hys).
  assert (drop 5 b = v) as Hv.
  { subst b. replace 5%nat with (S (length ys)) by lia. apply drop_past_quote. }
  rewrite Hv in Hm.
  assert (length (after_quote v) < length b)%nat as Hshort.
  { pose proof (after_quote_length v). subst b. rewrite length_app. simpl. lia. }
  rewrite replace_all_prefix by (intros u1 u2 -> Hne; by apply src_match_dead, (Hu u1)).
  rewrite (replace_all_match _ _ _ _ _ _ Hm) by done.
  set (o := replace_all true src_pattern _ (after_quote v)).
  assert (free_of live_src o = true) as Ho.
  { apply IH. rewrite length_app in Hn. lia. }
  set (U := asWebviewUri (path_join documentDir (arg 1 caps))).
  change (to_webview_uri path_join asWebviewUri documentDir _ caps)
    with (str "src=" ++ dq :: U ++ [dq]).
  apply free_of_intro. intros b1 b2 Heq.
  apply app_eq_inv in Heq as [(k & Hk & ->)|(k & -> & Heq)].
  - destruct k as [|x k].
    + cbn [app]. by apply (replacement_dead U [] _ o (encoded _)).
    + destruct (live_src ((x :: k) ++ (str "src=" ++ dq :: U ++ [dq]) ++ o)) eqn:E; [|done].
      rewrite <- app_assoc in E. cbn [app] in E.
      apply (live_transfer (x :: k) b) in E; [|done..].
      by rewrite (Hu b1 (x :: k)) in E.
  - apply app_eq_inv in Heq as [(k' & Hk' & ->)|(k' & -> & ->)].
    + destruct k' as [|x k'].
      * cbn [app]. by apply (free_of_suffix _ [] o).
      * by apply (replacement_dead U k _ o (encoded _)).
    + by apply (free_of_suffix _ k' b2).
Qed.

(** The third [replace] finds nothing to do behind the second. *)
Theorem script_pass_never_fires html :
  script_pass path_join fs documentDir
    (src_pass path_join asWebviewUri documentDir html)
  = src_pass path_join asWebviewUri documentDir html.
Proof.
  pose proof (src_pass_leaves_none (length html) html (le_n _)) as Hfree.
  unfold script_pass. apply replace_all_none. intros b1 b2 Heq.
  apply script_needs_live_src. intros c1 c2 ->.
  rewrite Heq, app_assoc in Hfree. by apply (free_of_suffix _ _ _ Hfree).
Qed.

End DeadPass.

(** ** The sample URIs are encoded *)

Lemma encode_char_plain c :
  Forall (λ x, is_quote x = false ∧ x ≠ "="%char) (encode_char c).
Proof.
  unfold encode_char.
  repeat case_bool_decide; [repeat constructor; done..|].
  apply Forall_singleton. split; [|done].
  unfold is_quote. apply orb_false_iff. split; by apply bool_decide_eq_false.
Qed.

Lemma equals_sign x : same_char true "="%char x = true → x = "="%char.
Proof.
  unfold same_char. intros H%bool_decide_eq_true.
  destruct x as [[] [] [] [] [] [] [] []]; vm_compute in H; first [discriminate H|reflexivity].
Qed.

Lemma no_equals_no_src t :
  Forall (λ x, is_quote x = false ∧ x ≠ "="%char) t →
  free_of (starts_with true (str "src=")) t = true.
Proof.
  intros Ht. apply free_of_intro. intros b1 b2 ->.
  apply Forall_app in Ht as [_ Ht].
  destruct (starts_with true (str "src=") b2) eqn:E; [|done].
  destruct b2 as [|x1 [|x2 [|x3 [|x4 b2]]]];
    cbn [str String.list_ascii_of_string starts_with] in E;
    rewrite ?andb_false_r in E; try discriminate E.
  do 3 (apply andb_true_iff in E as [_ E]).
  apply andb_true_iff in E as [E _]. apply equals_sign in E.
  do 3 (apply Forall_cons in Ht as [_ Ht]). apply Forall_cons in Ht as [[_ Hx] _]. done.
Qed.

Lemma cdn_uri_encoded p : encoded_uri (cdn_uri p) = true.
Proof.
  assert (Forall (λ x, is_quote x = false ∧ x ≠ "="%char) (cdn_uri p)) as Hplain.
  { unfold cdn_uri. apply Forall_app. split.
    - cbn. repeat constructor; done.
    - induction p as [|c p IH]; [constructor|]. cbn [fmap list_fmap concat].
      apply Forall_app. split; [apply encode_char_plain|done]. }
  unfold encoded_uri. rewrite !andb_true_iff. split_and!.
  - unfold cdn_uri. by apply starts_with_prefix.
  - apply forallb_forall. intros x Hx. rewrite Forall_forall in Hplain.
    apply negb_true_iff, Hplain. by apply list_elem_of_In.
  - by apply no_equals_no_src.
Qed.

(** On the sample host the resolver is its first two passes, for every
    document and every file system: no script is ever inlined. *)
Theorem resolver_never_inlines fs documentDir html :
  _convertResourcePaths posix_join fs cdn_uri documentDir html =
    src_pass posix_join cdn_uri documentDir (css_pass posix_join fs documentDir html).
Proof.
  unfold _convertResourcePaths. apply script_pass_never_fires, cdn_uri_encoded.
Qed.

(** * The scenarios of the specification, and where the claims fail *)

(** ** The store *)

Lemma store_invariant_witness :
  switches_known plain_name (constructor plain_name (Some index_v1)) sample_calls = true ∧
  store_ok (session plain_name (Some index_v1) sample_calls) ∧
  _tabs (session plain_name (Some index_v1) sample_calls) = [T3].
Proof.
  assert (switches_known plain_name (constructor plain_name (Some index_v1)) sample_calls = true)
    as Hk by reflexivity.
  split; [exact Hk|].
  destruct (store_invariant plain_name (Some index_v1) sample_calls Hk) as [Hok _].
  split; [exact (Hok 4%nat)|reflexivity].
Defined.

(** C1 fails as stated: a [switchTab] with an unknown id leaves the
    active id naming no tab. *)
Lemma stale_switch_breaks_invariant :
  ¬ store_ok (session plain_name None [(None, SwitchTab "nonexistent")]).
Proof.
  intros [_ Hin]. vm_compute in Hin.
  apply list_elem_of_singleton in Hin. discriminate Hin.
Qed.

(** C2 fails as stated (scenario E): the unknown id becomes the active id. *)
Lemma stale_switch_moves_active :
  let p := constructor plain_name None in
  ("nonexistent" ∉ ids p) ∧
  _activeTabId p = "tab-1" ∧
  _activeTabId (_switchTab "nonexistent" p) = "nonexistent" ∧
  _switchTab "nonexistent" p ≠ p.
Proof.
  split_and!; try reflexivity.
  - intros Hin. vm_compute in Hin. apply list_elem_of_singleton in Hin. discriminate Hin.
  - discriminate.
Qed.

Lemma scenario_A_reached : session plain_name None scenario_A_calls = scenario_A.
Proof. reflexivity. Qed.

(** Scenario A: closing the active [T2] leaves [T1, T3] with [T1] active. *)
Lemma closeTab_selects_neighbour_witness :
  _tabs (session plain_name None scenario_A_calls) !! 1%nat = Some T2 ∧
  id T2 = "tab-2" ∧
  _closeTab plain_name None "tab-2" (session plain_name None scenario_A_calls)
    = mkPanel [T1; T3] "tab-1" 3.
Proof.
  split_and!; [reflexivity..|].
  pose proof (closeTab_selects_neighbour plain_name None scenario_A_calls None
                "tab-2" 1 T2 eq_refl eq_refl) as H.
  cbv zeta in H. destruct H as (_ & _ & _ & H & _).
  destruct H as (t' & Ht' & ->); [reflexivity|discriminate|].
  injection Ht' as <-. reflexivity.
Defined.

(** Scenario B holds when no HTML document is focused. *)
Lemma scenario_B :
  constructor plain_name None = mkPanel [T1] "tab-1" 1 ∧
  _closeTab plain_name None "tab-1" (constructor plain_name None)
    = mkPanel [T2] "tab-2" 2 ∧
  unbound T2.
Proof. split_and!; [reflexivity..|by split]. Qed.

(** C3 fails as stated when one is: the tab that replaces the last closed
    tab is bound to the focused document. *)
Lemma closeTab_last_binds_focused_document :
  let p := constructor plain_name None in
  let p' := _closeTab plain_name (Some index_v1) "tab-1" p in
  _tabs p = [T1] ∧ _activeTabId p = "tab-1" ∧
  _tabs p' = [mkTab "tab-2" "index.html" (Some "/doc/index.html") "<h1>one</h1>"] ∧
  _activeTabId p' = "tab-2" ∧
  ∀ t, t ∈ _tabs p' → ¬ unbound t.
Proof.
  split_and!; try reflexivity.
  intros t Ht. vm_compute in Ht. apply list_elem_of_singleton in Ht. subst t.
  intros [Hu _]. discriminate Hu.
Qed.

(** C9 fails as stated: with an HTML document focused, the tab that
    [createTab] appends is bound when the call returns. *)
Lemma addNewTab_binds_focused_document :
  let p := constructor plain_name None in
  let p' := addNewTab plain_name (Some index_v1) p in
  _tabs p' = [T1; mkTab "tab-2" "index.html" (Some "/doc/index.html") "<h1>one</h1>"] ∧
  _activeTabId p' = "tab-2" ∧
  ¬ unbound (mkTab "tab-2" "index.html" (Some "/doc/index.html") "<h1>one</h1>").
Proof.
  split_and!; try reflexivity. intros [Hu _]. discriminate Hu.
Qed.

(** The side-bar generation does create the tab unbound. *)
Lemma side_bar_addNewTab_unbound p :
  ∃ t, _tabs (PreviewViewProvider._addNewTab p) = _tabs p ++ [t] ∧
       id t = _activeTabId (PreviewViewProvider._addNewTab p) ∧ unbound t.
Proof. by exists (newTab (S (_tabCounter p))). Qed.

Lemma closeTab_inactive_frame_witness :
  _tabs (session plain_name None scenario_A_calls) !! 2%nat = Some T3 ∧
  id T3 = "tab-3" ∧
  _activeTabId (session plain_name None scenario_A_calls) ≠ "tab-3" ∧
  _closeTab plain_name None "tab-3" (session plain_name None scenario_A_calls)
    = mkPanel [T1; T2] "tab-2" 3.
Proof.
  assert (_activeTabId (session plain_name None scenario_A_calls) ≠ "tab-3")
    as Hne by discriminate.
  split_and!; [reflexivity|reflexivity|exact Hne|].
  pose proof (closeTab_inactive_frame plain_name None scenario_A_calls None
                "tab-3" 2 T3 eq_refl eq_refl Hne) as H.
  cbv zeta in H. destruct H as (Ha & Hc & Ht & _).
  destruct (_closeTab plain_name None "tab-3" (session plain_name None scenario_A_calls))
    as [tabs a c].
  simpl in Ha, Hc, Ht. by rewrite Ha, Hc, Ht.
Defined.

(** C4, the failing run: when [dispose()] has returned the listeners are
    detached but the timer is still pending, and the active tab holds the
    old text; when the quiet period has passed, the tab holds the new
    text. *)
Theorem update_fires_after_dispose :
  subscribed armed_then_disposed = false ∧
  timeout armed_then_disposed = Some quiet_period ∧
  content <$> activeTab (fields armed_then_disposed) = Some "<h1>one</h1>" ∧
  content <$> activeTab
    (fields (play plain_name [(Some index_v2, Elapse quiet_period)] armed_then_disposed))
    = Some "<h1>two</h1>".
Proof. by split_and!. Qed.

(** ** The resolver *)

(** C5, the failing input: a link element with a relative [.css] path
    whose file can be read stays as it is when another link element
    stands before it on the same line.  The match that starts at the
    first element does not end at its closing quote: [(.*?\.css)] runs
    over the quote and the [>] as far as the [.css] of the second
    element, the path so captured names no file, and the callback
    returns the match.  With a line feed between the two elements the
    same stylesheet is inlined. *)
Theorem css_link_behind_link_not_inlined :
  plain_css_link (str "<link") " " (str "rel='stylesheet' ") (str "href=") sq
    (str "style") (str ".css") sq [] = true ∧
  doc_dir (posix_join (str "/doc") (str "style.css")) = File (str "body{color:red}") ∧
  match_here true link_css_pattern (icon_link ++ stylesheet_link) =
    Some ([], [(3, []);
               (2, str "favicon.ico'><link rel='stylesheet' href='style.css");
               (1, str "rel='icon' ")]) ∧
  _convertResourcePaths posix_join doc_dir cdn_uri (str "/doc") (icon_link ++ stylesheet_link)
    = icon_link ++ stylesheet_link ∧
  _convertResourcePaths posix_join doc_dir cdn_uri (str "/doc")
    (icon_link ++ lf :: stylesheet_link) = icon_link ++ lf :: style_red.
Proof. split_and!; reflexivity. Qed.

(** Attribute values without quotes are not seen by the patterns. *)
Lemma unquoted_css_link_not_inlined :
  _convertResourcePaths posix_join doc_dir cdn_uri (str "/doc")
    (str "<link rel=stylesheet href=style.css>") = str "<link rel=stylesheet href=style.css>".
Proof. reflexivity. Qed.

(** C6, the failing input: whatever the file system holds, the second
    [replace] has turned the script's [src] into a URI that the lookahead
    of the third refuses, and the script is not inlined. *)
Theorem script_src_rewritten_not_inlined fs :
  _convertResourcePaths posix_join fs cdn_uri (str "/doc") script_tag =
    str "<script src=" ++ [dq] ++ cdn_uri (str "/doc/app.js") ++ [dq] ++ str "></script>".
Proof. reflexivity. Qed.

(** Run on its own, the third [replace] does inline the script. *)
Lemma script_pass_alone_inlines :
  doc_dir (posix_join (str "/doc") (str "app.js")) = File (str "alert(1)") ∧
  script_pass posix_join doc_dir (str "/doc") script_tag =
    str "<script >alert(1)</script></script>".
Proof. split; reflexivity. Qed.



(** Scenario D. *)
Lemma scenario_D :
  _convertResourcePaths posix_join doc_dir cdn_uri (str "/doc") (str "<img src='pic.png'>") =
    str "<img src=" ++ [dq] ++ cdn_uri (str "/doc/pic.png") ++ [dq] ++ str ">".
Proof. reflexivity. Qed.

(** * Further properties of the store *)

Section MoreStoreFacts.

Variable basename : string → string.

(** ** Synchronisation with the editor *)

(** [_updateActiveTabFromEditor] puts [synced] in the place of the first
    tab with the active id. *)
Lemma sync_spec ed p :
  _updateActiveTabFromEditor basename ed p =
    match list_find (λ t, id t = _activeTabId p) (_tabs p) with
    | Some (i, t) =>
        mkPanel (<[i := synced basename ed t]> (_tabs p)) (_activeTabId p) (_tabCounter p)
    | None => p
    end.
Proof.
  unfold _updateActiveTabFromEditor, synced.
  destruct (list_find _ _) as [[i t]|] eqn:E.
  - apply list_find_Some in E as (Hi & _ & _).
    destruct ed as [d|]; [case_decide|]; try done.
    all: rewrite list_insert_id by done; by destruct p.
  - destruct ed as [d|]; [case_decide|]; done.
Qed.

Lemma synced_id ed t : id (synced basename ed t) = id t.
Proof. unfold synced. destruct ed; [case_decide|]; done. Qed.

Lemma list_find_insert (P : PreviewTab → Prop) `{∀ x, Decision (P x)} l i x y :
  list_find P l = Some (i, x) → P y → list_find P (<[i := y]> l) = Some (i, y).
Proof.
  intros (Hi & Hx & Hlt)%list_find_Some Hy. apply list_find_Some. split_and!.
  - apply list_lookup_insert_eq. by eapply lookup_lt_Some.
  - done.
  - intros j z Hj Hji. rewrite list_lookup_insert_ne in Hj by lia. by eapply Hlt.
Qed.

Lemma synced_twice ed t : synced basename ed (synced basename ed t) = synced basename ed t.
Proof. unfold synced. destruct ed; [case_decide|]; done. Qed.

Lemma synced_over ed1 d2 t :
  languageId d2 = "html" →
  synced basename (Some d2) (synced basename ed1 t) = synced basename (Some d2) t.
Proof.
  intros H. unfold synced. rewrite !decide_False by naive_solver.
  destruct ed1; [case_decide|]; done.
Qed.

Lemma sync_sync ed1 ed2 p :
  _updateActiveTabFromEditor basename ed2 (_updateActiveTabFromEditor basename ed1 p) =
    match list_find (λ t, id t = _activeTabId p) (_tabs p) with
    | Some (i, t) =>
        mkPanel (<[i := synced basename ed2 (synced basename ed1 t)]> (_tabs p))
                (_activeTabId p) (_tabCounter p)
    | None => p
    end.
Proof.
  rewrite (sync_spec ed1 p).
  destruct (list_find _ _) as [[i t]|] eqn:E.
  - rewrite sync_spec. simpl.
    erewrite list_find_insert; [|done|].
    + by rewrite list_insert_insert_eq.
    + simpl. rewrite synced_id. by apply list_find_Some in E as (_ & ? & _).
  - rewrite sync_spec. by rewrite E.
Qed.

Lemma sync_dangling ed p :
  _activeTabId p ∉ ids p → _updateActiveTabFromEditor basename ed p = p.
Proof.
  intros Hout. rewrite sync_spec.
  destruct (list_find _ _) as [[i t0]|] eqn:E; [|done].
  apply list_find_Some in E as (Hi & Hid0 & _). exfalso. apply Hout.
  unfold ids. rewrite <- Hid0. apply list_elem_of_fmap_2. by eapply list_elem_of_lookup_2.
Qed.

(** X1: [_updateActiveTabFromEditor] run twice with the same editor does
    what one run does, and a run with an HTML document focused wipes out
    what the run before it wrote: the store is the one that this run
    alone leaves, whatever was focused before. *)
Theorem sync_last_document_wins ed1 p :
  _updateActiveTabFromEditor basename ed1 (_updateActiveTabFromEditor basename ed1 p)
    = _updateActiveTabFromEditor basename ed1 p ∧
  (∀ d2, languageId d2 = "html" →
     _updateActiveTabFromEditor basename (Some d2) (_updateActiveTabFromEditor basename ed1 p)
       = _updateActiveTabFromEditor basename (Some d2) p).
Proof.
  split; [|intros d2 Hd2]; rewrite sync_sync, sync_spec;
    destruct (list_find _ _) as [[i t]|]; try done.
  - by rewrite synced_twice.
  - by rewrite synced_over.
Qed.

(** A tab whose id is not the active id stays as it is, at its index. *)
Lemma sync_keeps_background ed p j t :
  _tabs p !! j = Some t → id t ≠ _activeTabId p →
  _tabs (_updateActiveTabFromEditor basename ed p) !! j = Some t.
Proof.
  intros Hj Hid. rewrite sync_spec.
  destruct (list_find _ _) as [[i t0]|] eqn:E; [|done]. simpl.
  apply list_find_Some in E as (Hi & Hid0 & _).
  rewrite list_lookup_insert_ne; [done|]. intros ->. congruence.
Qed.

(** X2: [_updateActiveTabFromEditor] keeps the active id, the counter
    and the ids of the tabs in their order; every tab whose id is not
    the active id is kept as it is, at its index; and when the active id
    names no tab, nothing at all is written, even with an HTML document
    focused. *)
Theorem sync_touches_active_tab_only ed p :
  let p' := _updateActiveTabFromEditor basename ed p in
  _activeTabId p' = _activeTabId p ∧ _tabCounter p' = _tabCounter p ∧
  ids p' = ids p ∧
  (∀ j t, _tabs p !! j = Some t → id t ≠ _activeTabId p → _tabs p' !! j = Some t) ∧
  (_activeTabId p ∉ ids p → p' = p).
Proof.
  intros p'. split_and!.
  - apply update_active.
  - apply update_counter.
  - apply update_ids.
  - intros j t. apply sync_keeps_background.
  - apply sync_dangling.
Qed.

(** ** Tabs in the background *)

Lemma elem_of_delete_other {A} (l : list A) i x y :
  x ∈ l → l !! i = Some y → x ≠ y → x ∈ delete i l.
Proof.
  intros Hx Hi Hne. rewrite <- (take_drop_middle l i y Hi) in Hx.
  rewrite delete_take_drop.
  apply elem_of_app in Hx as [Hx|Hx]; [apply elem_of_app; by left|].
  apply elem_of_cons in Hx as [->|Hx]; [done|]. apply elem_of_app. by right.
Qed.

(** X21: a request never writes into a tab that is in the background
    when the request arrives.  In every store of a session, a tab whose
    id is not the active id is still in the store, with the same title,
    uri and content, after any request other than the [closeTab] of this
    very tab: only the active tab follows the editor, and a tab in the
    background keeps the text it had when it was last active. *)
Theorem background_tab_untouched editor0 calls call t :
  let p := session basename editor0 calls in
  t ∈ _tabs p → id t ≠ _activeTabId p → call.2 ≠ CloseTab (id t) →
  t ∈ _tabs (serve basename call p).
Proof.
  intros p Hin Hbg Hcall.
  pose proof (counted_session basename editor0 calls) as [Hnum Hnd]. fold p in Hnum, Hnd.
  destruct call as [ed [|tabId|tabId|]]; simpl in *.
  - unfold addNewTab. rewrite addNewTab_eq by by apply numbered_fresh.
    simpl. apply elem_of_app. by left.
  - done.
  - destruct (list_find (λ t, id t = tabId) (_tabs p)) as [[i t0]|] eqn:E.
    2:{ unfold _closeTab. by rewrite E. }
    rewrite (closeTab_found _ _ _ _ _ _ E).
    apply list_find_Some in E as (Hi & Hid & _).
    assert (t ∈ delete i (_tabs p)) as Hdel.
    { apply (elem_of_delete_other _ _ _ t0); [done..|]. intros ->. by apply Hcall; f_equal. }
    case_decide; [|done].
    destruct (delete i (_tabs p) !! (i - 1)%nat) eqn:E'; [done|].
    exfalso. apply lookup_ge_None in E'.
    pose proof (length_delete _ i (mk_is_Some _ _ Hi)) as Hlen.
    apply lookup_lt_Some in Hi.
    destruct (delete i (_tabs p)) as [|? ?]; [by apply elem_of_nil in Hdel|].
    simpl in *. lia.
  - apply list_elem_of_lookup in Hin as [j Hj].
    apply (list_elem_of_lookup_2 _ j). by apply sync_keeps_background.
Qed.

(** ** The active tab *)

(** X22: in every store of a session whose [switchTab] requests name
    tabs of the store, exactly one tab has the active id: the [find] of
    [_getHtmlForWebview] and of [_updateActiveTabFromEditor] succeeds,
    and the tab it returns is the only one that the tab bar marks as
    active. *)
Theorem exactly_one_active_tab editor0 calls :
  switches_known basename (constructor basename editor0) calls = true →
  let p := session basename editor0 calls in
  ∃ i t, _tabs p !! i = Some t ∧ id t = _activeTabId p ∧ activeTab p = Some t ∧
    ∀ j t', _tabs p !! j = Some t' → id t' = _activeTabId p → j = i ∧ t' = t.
Proof.
  intros Hk p.
  assert (store_ok p) as [_ Hact] by (apply run_ok; [apply addNewTab_ok|done]).
  pose proof (counted_session basename editor0 calls) as [_ Hnd]. fold p in Hnd.
  apply list_elem_of_fmap in Hact as (t & Hid & Hin).
  apply list_elem_of_lookup in Hin as [i Hi].
  exists i, t. split_and!; [done..| |].
  - unfold activeTab. rewrite Hid. by rewrite (find_by_id _ i t Hnd Hi).
  - intros j t' Hj Hid'.
    assert (j = i) as ->.
    { apply (NoDup_lookup (ids p) j i (_activeTabId p) Hnd); unfold ids;
        rewrite list_lookup_fmap; [by rewrite Hj, <- Hid'|by rewrite Hi, Hid]. }
    split; [done|]. congruence.
Qed.

(** ** An active id that names no tab *)

Lemma list_find_id_None tabId (l : list PreviewTab) :
  tabId ∉ id <$> l → list_find (λ t, id t = tabId) l = None.
Proof.
  intros Hout. apply list_find_None, Forall_forall. intros t Ht Hid. apply Hout.
  rewrite <- Hid. by apply list_elem_of_fmap_2.
Qed.

Lemma closeTab_unknown ed tabId p : tabId ∉ ids p → _closeTab basename ed tabId p = p.
Proof. intros H. unfold _closeTab. by rewrite list_find_id_None. Qed.

Lemma elem_of_delete {A} (l : list A) i x : x ∈ delete i l → x ∈ l.
Proof. intros H. eapply elem_of_sublist; [done|apply sublist_delete]. Qed.

(** X3: once the active id names no tab (as after [_switchTab] with a
    stale id), neither [_updateActiveTabFromEditor] nor [_closeTab]
    repairs it: the synchronisation writes nothing, and [_closeTab]
    keeps the active id and the counter, and the active id still names
    no tab afterwards; [_closeTab] then never creates a tab, so that
    closing the only tab leaves the store empty.  [addNewTab] does
    repair it: after it the store is not empty and the active id names
    one of its tabs. *)
Theorem dangling_active_id_persists ed tabId p :
  _activeTabId p ∉ ids p →
  let p' := _closeTab basename ed tabId p in
  _updateActiveTabFromEditor basename ed p = p ∧
  _activeTabId p' = _activeTabId p ∧ (_activeTabId p' ∉ ids p') ∧
  _tabCounter p' = _tabCounter p ∧
  (∀ t, _tabs p = [t] → id t = tabId → _tabs p' = []) ∧
  store_ok (addNewTab basename ed p).
Proof.
  intros Hout p'.
  assert (p' = p ∨ ∃ i, tabId ≠ _activeTabId p ∧
            p' = mkPanel (delete i (_tabs p)) (_activeTabId p) (_tabCounter p)) as Hp'.
  { unfold p', _closeTab.
    destruct (list_find _ _) as [[i t]|] eqn:E; [|by left].
    apply list_find_Some in E as (Hi & Hid & _).
    assert (tabId ≠ _activeTabId p) as Hne.
    { intros Heq. apply Hout. unfold ids. rewrite <- Heq, <- Hid.
      apply list_elem_of_fmap_2. by eapply list_elem_of_lookup_2. }
    simpl. rewrite decide_False by done. right. by exists i. }
  split_and!.
  - by apply sync_dangling.
  - by destruct Hp' as [->|(i & _ & ->)].
  - destruct Hp' as [->|(i & _ & ->)]; [done|]. simpl. unfold ids. simpl.
    intros (t & Hid & Hin)%list_elem_of_fmap. apply Hout. rewrite Hid.
    apply list_elem_of_fmap_2. by eapply elem_of_delete.
  - by destruct Hp' as [->|(i & _ & ->)].
  - intros t Ht <-. unfold p', _closeTab. rewrite Ht. simpl.
    rewrite decide_True by done. simpl. rewrite decide_False; [done|].
    intros Heq. apply Hout. unfold ids. rewrite Ht, Heq. simpl. apply list_elem_of_here.
  - apply addNewTab_ok.
Qed.

(** ** Closing a tab that is not there *)

Lemma NoDup_delete_self {A} (l : list A) i x :
  NoDup l → l !! i = Some x → x ∉ delete i l.
Proof.
  intros Hnd Hi. rewrite delete_take_drop.
  rewrite <- (take_drop_middle l i x Hi) in Hnd.
  apply NoDup_app in Hnd as (_ & Hleft & Hright%NoDup_cons).
  intros [H|H]%elem_of_app.
  - apply (Hleft x H). apply list_elem_of_here.
  - by destruct Hright.
Qed.

(** With distinct ids made from the counter, the id just closed is gone
    from the store, also when the last tab was closed and a new one was
    made. *)
Lemma closeTab_forgets ed tabId p :
  counted p → tabId ∉ ids (_closeTab basename ed tabId p).
Proof.
  intros [Hnum Hnd].
  destruct (list_find (λ t, id t = tabId) (_tabs p)) as [[i t]|] eqn:E.
  2:{ unfold _closeTab. rewrite E.
      rewrite list_find_None, Forall_forall in E.
      intros (t & Hid & Hin)%list_elem_of_fmap. by apply (E t). }
  rewrite (closeTab_found _ _ _ _ _ _ E).
  apply list_find_Some in E as (Hi & Hid & _).
  assert (ids p !! i = Some tabId) as Hi'.
  { unfold ids. by rewrite list_lookup_fmap, Hi, <- Hid. }
  assert (tabId ∉ id <$> delete i (_tabs p)) as Hdel.
  { rewrite delete_ids. by apply NoDup_delete_self. }
  case_decide; [|done].
  destruct (delete i (_tabs p) !! (i - 1)%nat); [done|].
  rewrite addNewTab_ids. unfold ids at 1. simpl.
  intros ->%list_elem_of_singleton.
  apply (numbered_fresh p Hnum). by eapply list_elem_of_lookup_2.
Qed.

(** X4: in every store of a session, [_closeTab] with an id that is not
    in the store changes nothing, and a second [_closeTab] with the same
    id changes nothing after the first: a repeated close message for one
    tab closes no other tab. *)
Theorem closeTab_twice editor0 calls ed1 ed2 tabId :
  let p := session basename editor0 calls in
  (tabId ∉ ids p → _closeTab basename ed1 tabId p = p) ∧
  _closeTab basename ed2 tabId (_closeTab basename ed1 tabId p)
    = _closeTab basename ed1 tabId p.
Proof.
  intros p. split; [apply closeTab_unknown|].
  apply closeTab_unknown, closeTab_forgets, counted_session.
Qed.

(** ** Every tab is blank or bound *)

Lemma synced_blank_or_bound ed t :
  blank_or_bound basename t → blank_or_bound basename (synced basename ed t).
Proof.
  intros Ht. unfold synced. destruct ed as [d|]; [|done].
  case_decide as Hd; [done|]. right. exists d. split; [|done].
  by destruct (decide (languageId d = "html")).
Qed.

Lemma sync_blank_or_bound ed p :
  Forall (blank_or_bound basename) (_tabs p) →
  Forall (blank_or_bound basename) (_tabs (_updateActiveTabFromEditor basename ed p)).
Proof.
  intros Hall. rewrite sync_spec.
  destruct (list_find _ _) as [[i t]|] eqn:E; [|done]. simpl.
  apply Forall_insert; [done|]. apply synced_blank_or_bound.
  apply list_find_Some in E as (Hi & _ & _).
  rewrite Forall_forall in Hall. apply Hall. by eapply list_elem_of_lookup_2.
Qed.

Lemma addNewTab_blank_or_bound ed p :
  Forall (blank_or_bound basename) (_tabs p) →
  Forall (blank_or_bound basename) (_tabs (_addNewTab basename ed p)).
Proof.
  intros Hall. unfold _addNewTab. apply sync_blank_or_bound. simpl.
  apply Forall_app. split; [done|]. apply Forall_singleton. left. by eexists.
Qed.

Lemma Forall_delete_tabs (P : PreviewTab → Prop) l i : Forall P l → Forall P (delete i l).
Proof.
  rewrite !Forall_forall. intros H x Hx. apply H. by eapply elem_of_delete.
Qed.

Lemma serve_blank_or_bound call p :
  Forall (blank_or_bound basename) (_tabs p) →
  Forall (blank_or_bound basename) (_tabs (serve basename call p)).
Proof.
  intros Hall. destruct call as [ed [|tabId|tabId|]]; simpl.
  - by apply addNewTab_blank_or_bound.
  - done.
  - unfold _closeTab. destruct (list_find _ _) as [[i t]|]; [|done]. simpl.
    pose proof (Forall_delete_tabs _ _ i Hall) as Hdel.
    case_decide; [|done]. case_decide.
    + by destruct (delete i (_tabs p) !! _).
    + by apply addNewTab_blank_or_bound.
  - by apply sync_blank_or_bound.
Qed.

Lemma session_blank_or_bound editor0 calls :
  Forall (blank_or_bound basename) (_tabs (session basename editor0 calls)).
Proof.
  unfold session.
  assert (Forall (blank_or_bound basename) (_tabs (constructor basename editor0))) as H0.
  { apply addNewTab_blank_or_bound. constructor. }
  revert H0. generalize (constructor basename editor0).
  induction calls as [|c calls IH]; intros p Hp; [done|].
  simpl. by apply IH, serve_blank_or_bound.
Qed.

(** ** Where the document of a tab comes from *)

Section Seen.
Variable seen : TextDocument → Prop.

Lemma synced_from_editors ed t :
  (∀ d, ed = Some d → seen d) →
  from_editors basename seen t → from_editors basename seen (synced basename ed t).
Proof.
  intros Hed Ht. unfold synced. destruct ed as [d|]; [|done].
  case_decide as Hd; [done|]. right. exists d. split_and!; [by apply Hed| |done].
  by destruct (decide (languageId d = "html")).
Qed.

Lemma sync_from_editors ed p :
  (∀ d, ed = Some d → seen d) →
  Forall (from_editors basename seen) (_tabs p) →
  Forall (from_editors basename seen) (_tabs (_updateActiveTabFromEditor basename ed p)).
Proof.
  intros Hed Hall. rewrite sync_spec.
  destruct (list_find _ _) as [[i t]|] eqn:E; [|done]. simpl.
  apply Forall_insert; [done|]. apply synced_from_editors; [done|].
  apply list_find_Some in E as (Hi & _ & _).
  rewrite Forall_forall in Hall. apply Hall. by eapply list_elem_of_lookup_2.
Qed.

Lemma addNewTab_from_editors ed p :
  (∀ d, ed = Some d → seen d) →
  Forall (from_editors basename seen) (_tabs p) →
  Forall (from_editors basename seen) (_tabs (_addNewTab basename ed p)).
Proof.
  intros Hed Hall. unfold _addNewTab. apply sync_from_editors; [done|]. simpl.
  apply Forall_app. split; [done|]. apply Forall_singleton. left. by eexists.
Qed.

Lemma serve_from_editors call p :
  (∀ d, call.1 = Some d → seen d) →
  Forall (from_editors basename seen) (_tabs p) →
  Forall (from_editors basename seen) (_tabs (serve basename call p)).
Proof.
  intros Hed Hall. destruct call as [ed [|tabId|tabId|]]; simpl in *.
  - by apply addNewTab_from_editors.
  - done.
  - unfold _closeTab. destruct (list_find _ _) as [[i t]|]; [|done]. simpl.
    pose proof (Forall_delete_tabs _ _ i Hall) as Hdel.
    case_decide; [|done]. case_decide.
    + by destruct (delete i (_tabs p) !! _).
    + by apply addNewTab_from_editors.
  - by apply sync_from_editors.
Qed.

Lemma run_from_editors calls p :
  (∀ d, Some d ∈ calls.*1 → seen d) →
  Forall (from_editors basename seen) (_tabs p) →
  Forall (from_editors basename seen) (_tabs (run basename calls p)).
Proof.
  revert p. induction calls as [|c calls IH]; intros p Hed Hp; [done|].
  simpl. apply IH.
  - intros d Hd. apply Hed. rewrite fmap_cons. by apply list_elem_of_further.
  - apply serve_from_editors; [|done]. intros d Hd. apply Hed.
    rewrite fmap_cons, <- Hd. apply list_elem_of_here.
Qed.

End Seen.

Lemma session_from_editors editor0 calls :
  Forall (from_editors basename (λ d, Some d ∈ editor0 :: calls.*1))
    (_tabs (session basename editor0 calls)).
Proof.
  apply (run_from_editors _ calls).
  - intros d Hd. by apply list_elem_of_further.
  - apply addNewTab_from_editors; [|constructor].
    intros d ->. apply list_elem_of_here.
Qed.

(** ** A tab that holds a document keeps one *)

(** With distinct ids, two tabs of the store with the same id are one. *)
Lemma same_id_same_tab (l : list PreviewTab) a b :
  NoDup (id <$> l) → a ∈ l → b ∈ l → id a = id b → a = b.
Proof.
  intros Hnd [i Hi]%list_elem_of_lookup [j Hj]%list_elem_of_lookup Hid.
  assert (i = j) as ->; [|congruence].
  eapply (NoDup_lookup (id <$> l) i j (id a)); [done|..].
  - by rewrite list_lookup_fmap, Hi.
  - by rewrite list_lookup_fmap, Hj, Hid.
Qed.

Lemma synced_bound ed t : uri t ≠ None → uri (synced basename ed t) ≠ None.
Proof. unfold synced. destruct ed; [case_decide|]; done. Qed.

Lemma sync_keeps_bound ed p t t' :
  NoDup (ids p) → t ∈ _tabs p → uri t ≠ None →
  t' ∈ _tabs (_updateActiveTabFromEditor basename ed p) → id t' = id t → uri t' ≠ None.
Proof.
  intros Hnd Hin Hu Hin' Hid. rewrite sync_spec in Hin'.
  destruct (list_find _ _) as [[i t0]|] eqn:E.
  2:{ by rewrite (same_id_same_tab _ t' t Hnd Hin' Hin Hid). }
  simpl in Hin'. apply list_find_Some in E as (Hi & _ & _).
  apply list_elem_of_lookup in Hin' as [j Hj].
  destruct (decide (j = i)) as [->|Hne].
  - rewrite list_lookup_insert_eq in Hj by by eapply lookup_lt_Some.
    injection Hj as <-. rewrite synced_id in Hid.
    rewrite (same_id_same_tab _ t0 t Hnd) ; [by apply synced_bound| |done..].
    by eapply list_elem_of_lookup_2.
  - rewrite list_lookup_insert_ne in Hj by done.
    rewrite (same_id_same_tab _ t' t Hnd); [done| |done..].
    by eapply list_elem_of_lookup_2.
Qed.

Lemma addNewTab_keeps_bound ed p t t' :
  counted p → t ∈ _tabs p → uri t ≠ None →
  t' ∈ _tabs (_addNewTab basename ed p) → id t' = id t → uri t' ≠ None.
Proof.
  intros [Hnum Hnd] Hin Hu. unfold _addNewTab. apply sync_keeps_bound; [|by apply elem_of_app; left|done].
  unfold ids. simpl. rewrite fmap_app. apply NoDup_app. split_and!; [done| |apply NoDup_singleton].
  intros x Hx ->%list_elem_of_singleton. by apply (numbered_fresh p Hnum).
Qed.

Lemma serve_keeps_bound call p t t' :
  counted p → t ∈ _tabs p → uri t ≠ None →
  t' ∈ _tabs (serve basename call p) → id t' = id t → uri t' ≠ None.
Proof.
  intros Hc Hin Hu. pose proof Hc as [Hnum Hnd].
  destruct call as [ed [|tabId|tabId|]]; simpl.
  - by apply addNewTab_keeps_bound.
  - intros Hin' Hid. by rewrite (same_id_same_tab _ t' t Hnd Hin' Hin Hid).
  - unfold _closeTab. destruct (list_find _ _) as [[i t0]|].
    2:{ intros Hin' Hid. by rewrite (same_id_same_tab _ t' t Hnd Hin' Hin Hid). }
    simpl.
    assert (∀ a c, t' ∈ _tabs (mkPanel (delete i (_tabs p)) a c) → id t' = id t → uri t' ≠ None) as Hdel.
    { simpl. intros _ _ Hin' Hid.
      rewrite (same_id_same_tab _ t' t Hnd); [done| |done..]. by eapply elem_of_delete. }
    case_decide; [|apply Hdel]. case_decide.
    + destruct (delete i (_tabs p) !! _); apply Hdel.
    + intros Hin' Hid. exfalso.
      destruct (delete i (_tabs p)) as [|? ?] eqn:El; [|simpl in *; lia].
      assert (id t' ∈ ids (_addNewTab basename ed (mkPanel [] (_activeTabId p) (_tabCounter p)))) as Hi'.
      { unfold ids. by apply list_elem_of_fmap_2. }
      rewrite addNewTab_ids in Hi'. simpl in Hi'. apply list_elem_of_singleton in Hi'.
      apply (numbered_fresh p Hnum). rewrite <- Hi', Hid. unfold ids. by apply list_elem_of_fmap_2.
  - by apply sync_keeps_bound.
Qed.

(** An id that was issued and is not in the store never comes back. *)
Lemma closed_id_stays_out more p k :
  (k ≤ _tabCounter p)%nat → tab_id_of k ∉ ids p →
  tab_id_of k ∉ ids (run basename more p).
Proof.
  revert p. induction more as [|c more IH]; intros p Hk Hout; [done|].
  simpl. destruct (serve_ids basename c p) as (kept & Hids & Hsub & Hle).
  apply IH; [lia|]. rewrite Hids. intros [Hin|Hin]%elem_of_app.
  - apply Hout. by eapply elem_of_sublist.
  - unfold issued in Hin. apply list_elem_of_fmap in Hin as (k' & Heq & Hk').
    apply tab_id_of_inj in Heq as <-. apply elem_of_seq in Hk'. lia.
Qed.

Lemma run_keeps_bound more p t t' :
  counted p → t ∈ _tabs p → uri t ≠ None →
  t' ∈ _tabs (run basename more p) → id t' = id t → uri t' ≠ None.
Proof.
  revert p t. induction more as [|c more IH]; intros p t Hc Hin Hu Hin' Hid.
  { simpl in Hin'. pose proof Hc as [_ Hnd].
    by rewrite (same_id_same_tab _ t' t Hnd Hin' Hin Hid). }
  simpl in Hin'.
  destruct (decide (id t ∈ ids (serve basename c p))) as [Hstill|Hgone].
  - apply list_elem_of_fmap in Hstill as (t1 & Hid1 & Hin1).
    apply (IH (serve basename c p) t1); [by apply counted_serve|done| |done|congruence].
    by apply (serve_keeps_bound c p t t1).
  - exfalso. pose proof Hc as [Hnum _].
    unfold numbered in Hnum. rewrite Forall_forall in Hnum.
    destruct (Hnum (id t)) as (k & Hk & Heq); [by apply list_elem_of_fmap_2|].
    apply (closed_id_stays_out more (serve basename c p) k).
    + destruct (serve_ids basename c p) as (? & _ & _ & ?). lia.
    + by rewrite <- Heq.
    + rewrite <- Heq, <- Hid. by apply list_elem_of_fmap_2.
Qed.

(** X5: a tab of a session is in one of two states, and goes from the
    first to the second only.  Its id is [tab-k] for a counter value [k]
    already used.  Without a [uri] it is still the tab that
    [_addNewTab] pushed for that value: title [Tab k], empty content.
    With a [uri] it holds the uri, the base name and the text of one
    and the same HTML document, which was the focused one at the
    construction or at one of the requests of the session.  And whatever
    requests follow, as long as a tab with this id is in the store it
    has a [uri]: nothing takes the document away from a tab. *)
Theorem tabs_blank_or_bound editor0 calls t :
  t ∈ _tabs (session basename editor0 calls) →
  (∃ k, (1 ≤ k ≤ _tabCounter (session basename editor0 calls))%nat ∧ id t = tab_id_of k ∧
     match uri t with
     | None => t = newTab k
     | Some u =>
         ∃ document, Some document ∈ editor0 :: calls.*1 ∧
           languageId document = "html" ∧ u = doc_uri document ∧
           title t = basename (fileName document) ∧ content t = getText document
     end) ∧
  (∀ more t', uri t ≠ None →
     t' ∈ _tabs (run basename more (session basename editor0 calls)) →
     id t' = id t → uri t' ≠ None).
Proof.
  intros Hin. pose proof (counted_session basename editor0 calls) as Hc. split.
  - pose proof Hc as [Hnum _]. unfold numbered in Hnum. rewrite Forall_forall in Hnum.
    destruct (Hnum (id t)) as (k & Hk & Heq); [by apply list_elem_of_fmap_2|].
    exists k. split_and!; [lia..|done|].
    pose proof (session_from_editors editor0 calls) as Hall.
    rewrite Forall_forall in Hall. destruct (Hall t Hin) as [[k' Ht]|(d & Hseen & Hd & Ht)].
    + rewrite Ht in Heq |- *. simpl in *. apply tab_id_of_inj in Heq. by subst.
    + rewrite Ht. simpl. by exists d.
  - intros more t' Hu Hin' Hid. by eapply (run_keeps_bound more).
Qed.
(** ** The commands *)




(** ** The debounce timer *)

(** While the changes follow each other within the quiet period, the
    fields stay as they are and the timer is the one of the last
    change. *)
Lemma burst_quiet changes s :
  subscribed s = true →
  Forall (λ change, (change.2 < quiet_period)%nat) changes →
  fields (play basename (burst changes) s) = fields s ∧
  subscribed (play basename (burst changes) s) = true ∧
  selecting (play basename (burst changes) s) = selecting s ∧
  timeout (play basename (burst changes) s) =
    match last changes with
    | Some change => Some (quiet_period - change.2)%nat
    | None => timeout s
    end.
Proof.
  intros Hsub Hall. revert s Hsub.
  induction Hall as [|[ed gap] changes Hgap _ IH]; intros s Hsub; [by split_and!|].
  assert (react basename (ed, Elapse gap)
            (react basename (ed, DidChangeTextDocument true) s) =
          mkLive (fields s) (Some (quiet_period - gap)%nat) true (selecting s)) as Hstep.
  { unfold react. rewrite Hsub. simpl timeout. cbn iota beta.
    rewrite decide_False by (simpl in Hgap; lia). done. }
  change (play basename (burst ((ed, gap) :: changes)) s)
    with (play basename (burst changes)
            (react basename (ed, Elapse gap)
               (react basename (ed, DidChangeTextDocument true) s))).
  rewrite Hstep.
  destruct (IH (mkLive (fields s) (Some (quiet_period - gap)%nat) true (selecting s)) eq_refl)
    as (H1 & H2 & H3 & H4).
  rewrite H1, H2, H3, H4. split_and!; [done..|].
  rewrite last_cons. by destruct (last changes).
Qed.

(** X7: changes of the focused document that follow each other within
    the quiet period of 300 ms write nothing into the store, however
    many they are; when 300 ms have passed since the last of them, the
    store is synchronised once, with the editor that is focused at that
    moment, and no timer is left. *)
Theorem debounce_coalesces changes ed gap editor ms s :
  subscribed s = true →
  Forall (λ change, (change.2 < quiet_period)%nat) changes →
  (gap < quiet_period)%nat → (quiet_period ≤ gap + ms)%nat →
  fields (play basename (burst (changes ++ [(ed, gap)])) s) = fields s ∧
  play basename (burst (changes ++ [(ed, gap)]) ++ [(editor, Elapse ms)]) s =
    mkLive (_updateActiveTabFromEditor basename editor (fields s)) None true (selecting s).
Proof.
  intros Hsub Hall Hgap Hms.
  destruct (burst_quiet (changes ++ [(ed, gap)]) s Hsub) as (H1 & H2 & Hsel & H3).
  { apply Forall_app. split; [done|]. by apply Forall_singleton. }
  split; [done|].
  unfold play in *. rewrite foldl_app. simpl.
  rewrite last_snoc in H3. rewrite H3. simpl.
  rewrite decide_True by lia. by rewrite H1, H2, Hsel.
Qed.

(** ** What a disposed object still runs *)






End MoreStoreFacts.

(** * Properties of the renderer *)

(** ** [_escapeHtml] *)

(** One [replace] of a character by a fixed text. *)
Lemma replace_char c r s :
  replace_all false (Atom (Chr c)) (constant r) s =
    s ≫= λ x, if bool_decide (x = c) then str r else [x].
Proof.
  induction s as [|x s IH].
  - by apply replace_all_nil.
  - rewrite bind_cons. case_bool_decide as Hx.
    + subst x.
      rewrite (replace_all_match false (Atom (Chr c)) (constant r) (c :: s) s []).
      * by rewrite IH.
      * unfold match_here. simpl. unfold same_char. by rewrite bool_decide_eq_true_2.
      * simpl. lia.
    + rewrite replace_all_skip; [by rewrite IH|].
      unfold match_here. simpl. unfold same_char. rewrite bool_decide_eq_false_2; [done|].
      naive_solver.
Qed.

Lemma bind_singleton (f : ascii → text) x : [x] ≫= f = f x.
Proof. rewrite bind_cons. cbn. apply app_nil_r. Qed.

Lemma escapeHtml_bind html : _escapeHtml html = html ≫= escape_char.
Proof.
  unfold _escapeHtml. rewrite !replace_char.
  induction html as [|x html IH]; [done|].
  rewrite !bind_cons, !bind_app, IH. f_equal.
  unfold escape_char. repeat case_bool_decide; subst; try done.
  rewrite bind_singleton, (bool_decide_eq_false_2 (x = dq)) by done.
  by rewrite bind_singleton, (bool_decide_eq_false_2 (x = sq)) by done.
Qed.

Lemma escape_char_cases c :
  (c = "&"%char ∧ escape_char c = str "&amp;") ∨
  (c = dq ∧ escape_char c = str "&quot;") ∨
  (c = sq ∧ escape_char c = str "&#39;") ∨
  (plain_char c ∧ escape_char c = [c]).
Proof.
  unfold escape_char, plain_char. repeat case_bool_decide; subst; auto 10.
Qed.

(** X9: the three [replace] calls of [_escapeHtml] act as one
    substitution, character by character: [&] becomes [&amp;], the
    double quote [&quot;], the single quote [&#39;], and every other
    character ([<] and [>] among them) is copied.  What an earlier call
    has written is not escaped again by a later one, and the escape of a
    concatenation is the concatenation of the escapes. *)
Theorem escapeHtml_charwise html :
  _escapeHtml html = concat (escape_char <$> html) ∧
  ∀ a b, _escapeHtml (a ++ b) = _escapeHtml a ++ _escapeHtml b.
Proof.
  split.
  - rewrite escapeHtml_bind. induction html as [|x html IH]; [done|].
    rewrite bind_cons, IH. done.
  - intros a b. by rewrite !escapeHtml_bind, bind_app.
Qed.

Lemma plain_prefix (e R b1 b2 : text) c :
  c ∉ e → e ++ R = b1 ++ c :: b2 → ∃ b1', b1 = e ++ b1' ∧ R = b1' ++ c :: b2.
Proof.
  revert b1. induction e as [|y e IH]; intros b1 Hc Heq.
  - by exists b1.
  - apply not_elem_of_cons in Hc as [Hy Hc].
    destruct b1 as [|x b1]; simplify_eq/=.
    destruct (IH b1 Hc) as (b1' & -> & ->); [done|]. by exists b1'.
Qed.

Lemma entity_in_escape s b1 b2 :
  s ≫= escape_char = b1 ++ "&"%char :: b2 → entity ("&"%char :: b2) = true.
Proof.
  revert b1. induction s as [|c s IH]; intros b1 Heq.
  - by destruct b1.
  - rewrite bind_cons in Heq.
    destruct (escape_char_cases c) as [[-> He]|[[-> He]|[[-> He]|[(Hc & _ & _) He]]]];
      rewrite He in Heq.
    1: pose (e := str "amp;").
    2: pose (e := str "quot;").
    3: pose (e := str "#39;").
    1-3: destruct b1 as [|x b1]; [cbn in Heq; by simplify_eq|];
         cbn in Heq; injection Heq as <- Heq;
         apply (plain_prefix e) in Heq as (b1' & -> & Heq);
           [by eapply IH|]; cbn; rewrite !not_elem_of_cons; split_and!; try done;
           apply not_elem_of_nil.
    + destruct b1 as [|x b1]; cbn in Heq; simplify_eq. by eapply IH.
Qed.

(** X10: the text that [_escapeHtml] returns holds no double quote and
    no single quote, and every [&] in it begins one of [&amp;],
    [&quot;] and [&#39;]: no character of a document can end the
    [srcdoc] attribute that the text is put into. *)
Theorem escapeHtml_closes_nothing html :
  (dq ∉ _escapeHtml html) ∧ (sq ∉ _escapeHtml html) ∧
  ∀ b1 b2, _escapeHtml html = b1 ++ "&"%char :: b2 → entity ("&"%char :: b2) = true.
Proof.
  rewrite escapeHtml_bind. split_and!.
  1,2: induction html as [|c html IH]; [apply not_elem_of_nil|];
       rewrite bind_cons, elem_of_app; intros [Hin|Hin]; [|done];
       destruct (escape_char_cases c) as [[-> He]|[[-> He]|[[-> He]|[(Hc & Hd & Hs) He]]]];
       rewrite He in Hin; cbn in Hin;
       repeat (apply elem_of_cons in Hin as [Hin|Hin]; [by simplify_eq|]);
       by apply elem_of_nil in Hin.
  - intros b1 b2. apply entity_in_escape.
Qed.

Lemma escape_step c1 c2 (R1 R2 : text) :
  escape_char c1 ++ R1 = escape_char c2 ++ R2 → c1 = c2 ∧ R1 = R2.
Proof.
  destruct (escape_char_cases c1) as [[-> He]|[[-> He]|[[-> He]|[(Hc & Hd & Hs) He]]]];
  destruct (escape_char_cases c2) as [[-> He']|[[-> He']|[[-> He']|[(Hc' & Hd' & Hs') He']]]];
  rewrite ?He, ?He'; cbn; intros Heq; by simplify_eq.
Qed.

Lemma escape_char_nonempty c : escape_char c ≠ [].
Proof.
  by destruct (escape_char_cases c) as [[-> ->]|[[-> ->]|[[-> ->]|[_ ->]]]].
Qed.

Lemma escape_inj a b : a ≫= escape_char = b ≫= escape_char → a = b.
Proof.
  revert b.
  induction a as [|x a IH]; intros [|y b]; rewrite ?bind_cons; intros Heq.
  - done.
  - symmetry in Heq. apply app_eq_nil in Heq as [He _]. by apply escape_char_nonempty in He.
  - apply app_eq_nil in Heq as [He _]. by apply escape_char_nonempty in He.
  - apply escape_step in Heq as [-> Heq]. f_equal. by apply IH.
Qed.

(** X11: [_escapeHtml] loses nothing: two documents with the same
    escaped text are the same document. *)
Theorem escapeHtml_injective a b : _escapeHtml a = _escapeHtml b → a = b.
Proof. rewrite !escapeHtml_bind. apply escape_inj. Qed.

Lemma escape_fixed html :
  html ≫= escape_char = html ↔ Forall plain_char html.
Proof.
  split.
  - induction html as [|c html IH]; [constructor|].
    intros Heq. rewrite bind_cons in Heq.
    assert (length html ≤ length (html ≫= escape_char))%nat as Hlen.
    { clear. induction html as [|c html IH]; [done|].
      rewrite bind_cons, length_app.
      pose proof (escape_char_nonempty c). destruct (escape_char c); [done|].
      simpl in *. lia. }
    destruct (escape_char_cases c) as [[-> He]|[[-> He]|[[-> He]|[Hp He]]]];
      rewrite He in Heq; cbn in Heq; simplify_eq.
    + exfalso. apply (f_equal length) in Heq. simpl in Heq. lia.
    + constructor; [done|]. by apply IH.
  - intros Hall. induction Hall as [|c html Hc _ IH]; [done|].
    rewrite bind_cons, IH.
    by destruct (escape_char_cases c) as [[-> _]|[[-> _]|[[-> _]|[_ ->]]]];
      [destruct Hc as (? & ? & ?)..|].
Qed.

(** X12: escaping is not idempotent.  [_escapeHtml] returns its argument
    exactly when the argument holds none of [&], the double quote and
    the single quote, and escaping an escaped text once more changes it
    unless the original held none of the three. *)
Theorem escapeHtml_twice html :
  (_escapeHtml (_escapeHtml html) = _escapeHtml html ↔ Forall plain_char html) ∧
  (_escapeHtml html = html ↔ Forall plain_char html).
Proof.
  rewrite !escapeHtml_bind. split; [|apply escape_fixed].
  rewrite <- escape_fixed. split.
  - apply escape_inj.
  - intros H. by rewrite !H.
Qed.

(** ** [_getPreviewContent] *)

Lemma get_substitution_plain matched before after template :
  "$"%char ∉ template → get_substitution matched before after template = template.
Proof.
  induction template as [|c rest IH]; [done|].
  intros [Hc Hrest]%not_elem_of_cons. cbn [get_substitution].
  rewrite bool_decide_eq_false_2 by done. f_equal. by apply IH.
Qed.

(** The replacement text of [_getPreviewContent] holds no [$]. *)
Lemma navigation_replacement_plain : "$"%char ∉ navigationScript ++ str "</body>".
Proof. apply (bool_decide_unpack _). vm_compute. exact I. Qed.

Lemma first_occurrence_none w s :
  free_of (starts_with false w) s = true → first_occurrence w s = None.
Proof.
  induction s as [|x s IH]; unfold free_of; cbn [tails forallb first_occurrence].
  - rewrite andb_true_r. intros ->%negb_true_iff. done.
  - intros [->%negb_true_iff H]%andb_true_iff. by rewrite IH.
Qed.

(** [</body>] begins with a sign that it does not otherwise hold, so it
    cannot begin in the text before one of its occurrences without lying
    in it. *)
Lemma body_not_straddling b2 X :
  b2 ≠ [] → free_of (starts_with false (str "</body>")) b2 = true →
  starts_with false (str "</body>") (b2 ++ str "</body>" ++ X) = false.
Proof.
  intros Hne Hfree.
  pose proof (free_of_suffix _ [] b2 Hfree) as H0.
  destruct b2 as [|x1 [|x2 [|x3 [|x4 [|x5 [|x6 [|x7 b2]]]]]]]; [done|..].
  all: revert H0; cbn [str String.list_ascii_of_string starts_with app length drop].
  all: try (intros H0; exact H0).
  all: intros _; unfold same_char;
    repeat (case_bool_decide; [subst|reflexivity]); reflexivity.
Qed.

Lemma first_occurrence_cons w x s :
  first_occurrence w (x :: s) =
    if starts_with false w (x :: s) then Some ([], drop (length w) (x :: s))
    else (λ found, (x :: found.1, found.2)) <$> first_occurrence w s.
Proof. done. Qed.

Lemma first_occurrence_at a b :
  free_of (starts_with false (str "</body>")) a = true →
  first_occurrence (str "</body>") (a ++ str "</body>" ++ b) = Some (a, b).
Proof.
  induction a as [|x a IH]; intros Hfree.
  - reflexivity.
  - rewrite <- app_comm_cons, first_occurrence_cons, app_comm_cons.
    rewrite (body_not_straddling (x :: a) b) by done.
    rewrite IH; [done|]. by apply (free_of_drop _ [x] a).
Qed.

Section RendererFacts.

Variable path_join : text → text → text.
Variable fs : text → found.
Variable asWebviewUri : text → text.
Variable dirname : string → text.

(** X13: when the document, as the resolver returns it, holds
    [</body>] in exactly this spelling, [_getPreviewContent] puts the
    navigation script right before the first [</body>] and nowhere
    else, keeps the text before and behind it, and returns the iframe
    whose [srcdoc] is the escape of that text. *)
Theorem navigation_script_before_body html documentUri a b :
  _convertResourcePaths path_join fs asWebviewUri (dirname documentUri) html
    = a ++ str "</body>" ++ b →
  free_of (starts_with false (str "</body>")) a = true →
  _getPreviewContent path_join fs asWebviewUri dirname html documentUri =
    iframe (_escapeHtml (a ++ navigationScript ++ str "</body>" ++ b)).
Proof.
  intros Hdoc Hfree. unfold _getPreviewContent. rewrite Hdoc.
  unfold includes, replace_first. rewrite first_occurrence_at by done.
  rewrite get_substitution_plain by apply navigation_replacement_plain.
  by rewrite <- !app_assoc.
Qed.

(** X14: when the document, as the resolver returns it, holds no
    [</body>] in exactly this spelling (none at all, or one in another
    letter case such as [</BODY>]), the navigation script is put behind
    the end of the document. *)
Theorem navigation_script_appended html documentUri :
  let doc := _convertResourcePaths path_join fs asWebviewUri (dirname documentUri) html in
  free_of (starts_with false (str "</body>")) doc = true →
  _getPreviewContent path_join fs asWebviewUri dirname html documentUri =
    iframe (_escapeHtml (doc ++ navigationScript)).
Proof.
  intros doc Hfree. unfold _getPreviewContent, includes. fold doc.
  by rewrite first_occurrence_none.
Qed.

End RendererFacts.

(** * Further properties of the resolver *)

Lemma starts_with_same_length w s :
  length s = length w → starts_with true w s = true → same_text s w.
Proof.
  revert s. induction w as [|c w IH]; intros [|x s] Hlen H; simplify_eq/=.
  - constructor.
  - apply andb_true_iff in H as [Hc H]. constructor; [by rewrite same_char_sym|].
    by apply IH.
Qed.

Lemma starts_with_of_same_text w ys r :
  same_text ys w → starts_with true w (ys ++ r) = true.
Proof.
  intros H. induction H as [|y c ys w Hc _ IH]; [done|].
  cbn [app starts_with]. by rewrite same_char_sym, Hc.
Qed.

Lemma word_quote_same_text w name q r :
  same_text name (str w) → is_quote q = true → word_quote w (name ++ q :: r) = true.
Proof.
  intros Hname Hq. unfold word_quote. rewrite starts_with_of_same_text by done.
  rewrite <- (Forall2_length _ _ _ Hname), drop_app_length. by rewrite Hq.
Qed.

Lemma src_name_chars name :
  same_text name (str "src=") →
  ∃ y1 y2 y3 y4, name = [y1; y2; y3; y4] ∧ same_char true "s" y1 = true.
Proof.
  intros H. cbn in H.
  repeat (apply Forall2_cons_inv_r in H as (? & ? & ? & H & ->)).
  apply Forall2_nil_inv_r in H as ->.
  eexists _, _, _, _. split; [done|]. by rewrite same_char_sym.
Qed.

(** [src=] in any letter case cannot begin in the text before one of its
    occurrences without lying in it. *)
Lemma src_not_straddling b2 name q X :
  b2 ≠ [] → free_of (word_quote "src=") b2 = true →
  same_text name (str "src=") →
  word_quote "src=" (b2 ++ name ++ q :: X) = false.
Proof.
  intros Hne Hfree Hname.
  pose proof (src_letters_plain name Hname) as Hplain.
  destruct (src_name_chars name Hname) as (y1 & y2 & y3 & y4 & -> & H1).
  apply Forall_cons in Hplain as [[Hq1 _] _].
  pose proof (free_of_suffix _ [] b2 Hfree) as H0.
  destruct b2 as [|x1 [|x2 [|x3 [|x4 [|x5 b2]]]]]; [done|..].
  all: revert H0; unfold word_quote;
    cbn [str String.list_ascii_of_string starts_with app length drop].
  all: try (intros H0; exact H0).
  all: intros _.
  - rewrite (same_char_via _ _ "r" H1).
    change (same_char true "r" "s") with false. split_chars; reflexivity.
  - rewrite (same_char_via _ _ "c" H1).
    change (same_char true "c" "s") with false. split_chars; reflexivity.
  - rewrite (same_char_via _ _ "=" H1).
    change (same_char true "=" "s") with false. split_chars; reflexivity.
  - rewrite Hq1. split_chars; reflexivity.
Qed.

Lemma plain_value_chars p :
  plain_value p = true →
  Forall (λ x, accepts true Dot x = true) p ∧ Forall (λ x, is_quote x = false) p ∧
  looks_absolute p = false.
Proof.
  unfold plain_value. rewrite andb_true_iff, negb_true_iff, forallb_forall.
  intros [H Habs]. split_and!; [| |done]; apply Forall_forall; intros x Hx;
    specialize (H x (proj1 (list_elem_of_In _ _) Hx));
    apply andb_true_iff in H as [H1 H2]; [done|by apply negb_true_iff].
Qed.

(** An attribute with a plain value, read by a pattern of the form
    [name=["'](?!...)(.*?)["']]: the match ends behind the closing quote
    and the group holds the value. *)
Lemma attribute_match_exact (w : string) (la : regex) name q p q' post :
  (∀ s caps k, compile true la s caps k = if looks_absolute s then None else k s caps) →
  same_text name (str w) → is_quote q = true → is_quote q' = true →
  plain_value p = true →
  match_here true
    (cat [lit w; Atom (OneOf [dq; sq]); la; Group 1 (Star false (Atom Dot));
          Atom (OneOf [dq; sq])])
    (name ++ q :: p ++ q' :: post) = Some (post, [(1%nat, p)]).
Proof.
  intros Hla Hsame Hq Hq' Hp.
  destruct (plain_value_chars p Hp) as (Hdot & Hnq & Habs).
  unfold match_here.
  rewrite compile_word_quote, word_quote_same_text by done.
  replace (S (length (str w))) with (S (length name))
    by by rewrite (Forall2_length _ _ _ Hsame).
  rewrite drop_past_quote.
  rewrite compile_cat_cons, Hla, looks_absolute_before_quote, Habs by done.
  rewrite compile_cat_cons, compile_group, compile_star.
  rewrite lazy_star_skip; [|done|].
  - erewrite lazy_star_here; [done|].
    rewrite compile_cat_cons, compile_atom, accepts_quote, Hq', compile_cat_nil.
    by rewrite take_consumed.
  - intros b1 b2 -> Hb2. destruct b2 as [|x b2]; [done|].
    apply Forall_app in Hnq as [_ [Hx _]%Forall_cons].
    cbn [app]. by rewrite compile_cat_cons, compile_atom, accepts_quote, Hx.
Qed.

Lemma plain_src_attribute_parts name q p q' :
  plain_src_attribute name q p q' = true →
  same_text name (str "src=") ∧ is_quote q = true ∧ plain_value p = true ∧
  is_quote q' = true.
Proof.
  unfold plain_src_attribute. rewrite !andb_true_iff.
  intros [[[[Hlen%bool_decide_eq_true Hname] Hq] Hp] Hq'].
  split_and!; [|done..]. by apply starts_with_same_length.
Qed.

(** A [replace] finds what its pattern matches on a suffix of its input. *)
Lemma repeat_matcher_reaches greedy body n :
  reaches body → reaches (repeat_matcher greedy body n).
Proof.
  intros Hb. induction n as [|n IH]; intros s caps k res; simpl.
  - intros H. by exists s, caps.
  - intros H.
    assert (body s caps (λ s' caps',
              if decide (length s' < length s)%nat
              then repeat_matcher greedy body n s' caps' k else None) = Some res
            ∨ k s caps = Some res) as [Hagain|Hk].
    { destruct greedy; unfold or_else in H;
        repeat match type of H with
               | match ?x with _ => _ end = _ => destruct x eqn:?
               end; simplify_eq; auto. }
    + apply Hb in Hagain as (s1 & c1 & Hs1 & Hrest). case_decide; [|done].
      apply IH in Hrest as (s2 & c2 & Hs2 & Hk). exists s2, c2. split; [by etrans|done].
    + by exists s, caps.
Qed.

Lemma compile_reaches ic r : reaches (compile ic r).
Proof.
  induction r as [a| |r1 IH1 r2 IH2|r1 IH1 r2 IH2|g r IH|g r IH|n r IH|r IH];
    intros s caps k res; simpl.
  - destruct s as [|x s]; [done|]. destruct (accepts ic a x); [|done].
    intros H. exists s, caps. split; [by apply suffix_cons_r|done].
  - intros H. by exists s, caps.
  - intros (s1 & c1 & Hs1 & H)%IH1. apply IH2 in H as (s2 & c2 & Hs2 & H).
    exists s2, c2. split; [by etrans|done].
  - unfold or_else. destruct (compile ic r1 s caps k) eqn:E.
    + intros <-. by apply IH1 in E.
    + apply IH2.
  - by apply repeat_matcher_reaches.
  - intros (s1 & c1 & Hs1 & H)%IH.
    apply repeat_matcher_reaches in H as (s2 & c2 & Hs2 & H); [|done].
    exists s2, c2. split; [by etrans|done].
  - intros (s1 & c1 & Hs1 & H)%IH. by eexists _, _.
  - destruct (compile ic r s caps _); [done|]. intros H. by exists s, caps.
Qed.

Lemma match_here_suffix ic r s rest caps :
  match_here ic r s = Some (rest, caps) → rest `suffix_of` s.
Proof.
  intros (s' & caps' & Hs & H)%compile_reaches. by simplify_eq.
Qed.

(** A [replace] whose callback returns the match changes nothing. *)
Lemma replace_from_same n ic r (cb : text → captures → text) s :
  (∀ matched caps, cb matched caps = matched) → replace_from n ic r cb s = s.
Proof.
  intros Hcb. revert s. induction n as [|n IH]; intros s; [done|]. simpl.
  assert (match s with [] => [] | x :: s' => x :: replace_from n ic r cb s' end = s) as Hskip.
  { destruct s as [|x s]; [done|]. by rewrite IH. }
  destruct (match_here ic r s) as [[rest caps]|] eqn:E; [|done].
  apply match_here_suffix in E as [pre ->].
  rewrite !Hcb, !take_consumed.
  case_decide; [by rewrite IH|].
  rewrite Hskip. rewrite length_app in *. by destruct pre; [|simpl in *; lia].
Qed.

Section MoreResolverFacts.

Variable path_join : text → text → text.
Variable fs : text → found.
Variable asWebviewUri : text → text.

(** Without [<link], the first [replace] finds nothing. *)
Lemma css_pass_no_link documentDir doc :
  free_of (starts_with true (str "<link")) doc = true →
  css_pass path_join fs documentDir doc = doc.
Proof.
  intros Hfree. apply replace_all_none. intros b1 b2 ->.
  unfold match_here, link_css_pattern.
  by rewrite compile_cat_cons, compile_lit, (free_of_suffix _ b1 b2 Hfree).
Qed.

(** X15: take an attribute [src=] in any letter case with a quoted
    value that stands on one line, holds no quote and does not begin
    with [http], [//] or [data:], behind text without [src=] and quote.
    The second [replace] puts in its place [src="U"], in lower case and
    double quotes, where [U] is the webview URI of
    [path.join(documentDir, value)]; the text before is kept and the
    pass goes on behind the closing quote, whichever element the
    attribute belongs to and whichever of the two quotes opened or
    closed it.  When the document holds no [<link] and the URIs of the
    host are percent-encoded, this is what the resolver returns. *)
Theorem src_attribute_rewritten documentDir pre name q p q' post :
  free_of (word_quote "src=") pre = true →
  plain_src_attribute name q p q' = true →
  let doc := pre ++ name ++ q :: p ++ q' :: post in
  let result :=
    pre ++ str "src=" ++ dq :: asWebviewUri (path_join documentDir p) ++
      dq :: src_pass path_join asWebviewUri documentDir post in
  src_pass path_join asWebviewUri documentDir doc = result ∧
  (free_of (starts_with true (str "<link")) doc = true →
   (∀ path, encoded_uri (asWebviewUri path) = true) →
   _convertResourcePaths path_join fs asWebviewUri documentDir doc = result).
Proof.
  intros Hpre Hplain doc result.
  destruct (plain_src_attribute_parts _ _ _ _ Hplain) as (Hname & Hq & Hp & Hq').
  assert (src_pass path_join asWebviewUri documentDir doc = result) as Hsrc.
  { unfold src_pass, doc. rewrite replace_all_prefix.
    2:{ intros b1 b2 -> Hb2. unfold match_here, src_pattern.
        rewrite compile_word_quote, src_not_straddling; [done..| |done].
        by eapply free_of_drop. }
    rewrite (replace_all_match _ _ _ _ post [(1%nat, p)]).
    - unfold to_webview_uri, arg. simpl capture. cbn [default from_option].
      unfold result, src_pass. by rewrite <- !app_assoc.
    - by apply (attribute_match_exact "src=" _ _ _ _ _ _ compile_not_absolute).
    - rewrite !length_app. simpl. rewrite length_app. simpl. lia. }
  split; [done|]. intros Hlink Henc.
  unfold _convertResourcePaths. rewrite css_pass_no_link by done.
  rewrite script_pass_never_fires by done. exact Hsrc.
Qed.

Lemma refused_at doc b1 b2 :
  only_refused_references doc = true → doc = b1 ++ b2 →
  (word_quote "href=" b2 = true → looks_absolute (drop 6 b2) = true) ∧
  (word_quote "src=" b2 = true → looks_absolute (drop 5 b2) = true).
Proof.
  unfold only_refused_references. rewrite forallb_forall. intros H ->.
  specialize (H b2 (proj1 (list_elem_of_In _ _) (elem_of_tails b1 b2))).
  apply andb_true_iff in H as [H1 H2].
  split; intros Hw; by rewrite Hw in *.
Qed.

(** X16: the resolver returns unchanged every document in which each
    [href=] or [src=] followed by a quote opens a value that begins with
    the four letters [http], with [//] or with [data:], in any letter
    case.  The lookahead asks for no more than the letters: a relative
    path such as [httpd/logo.png] or [HTTP-theme.css] counts as absolute
    and is neither inlined nor turned into a webview URI. *)
Theorem http_prefixed_references_unchanged documentDir doc :
  only_refused_references doc = true →
  _convertResourcePaths path_join fs asWebviewUri documentDir doc = doc.
Proof.
  intros Href. unfold _convertResourcePaths, script_pass, src_pass, css_pass.
  assert (∀ b1 b2, doc = b1 ++ b2 → match_here true src_pattern b2 = None) as Hsrc.
  { intros b1 b2 Heq. unfold match_here, src_pattern.
    rewrite compile_word_quote.
    destruct (word_quote "src=" b2) eqn:Hw; [|done].
    rewrite compile_cat_cons, compile_not_absolute.
    destruct (refused_at _ b1 b2 Href Heq) as [_ H].
    change (drop (S (length (str "src="))) b2) with (drop 5 b2). by rewrite H. }
  rewrite (replace_all_none _ _ _ doc).
  2:{ intros b1 b2 ->. unfold match_here, link_css_pattern.
      rewrite compile_cat_cons. apply compile_local. intros s1 c1 [a1 ->].
      rewrite compile_cat_cons. apply compile_local. intros s2 c2 [a2 ->].
      rewrite compile_cat_cons. apply compile_local. intros s3 c3 [a3 ->].
      rewrite compile_word_quote.
      destruct (word_quote "href=" s3) eqn:Hw; [|done].
      rewrite compile_cat_cons, compile_not_absolute.
      destruct (refused_at (b1 ++ a1 ++ a2 ++ a3 ++ s3) (b1 ++ a1 ++ a2 ++ a3) s3) as [H _];
        [done|by rewrite <- !app_assoc|].
      change (drop (S (length (str "href="))) s3) with (drop 6 s3). by rewrite H. }
  rewrite (replace_all_none _ _ _ doc) by done.
  apply replace_all_none. intros b1 b2 ->.
  unfold match_here, script_src_pattern.
  rewrite compile_cat_cons. apply compile_local. intros s1 c1 [a1 ->].
  rewrite compile_cat_cons. apply compile_local. intros s2 c2 [a2 ->].
  rewrite compile_cat_cons. apply compile_local. intros s3 c3 [a3 ->].
  rewrite compile_word_quote.
  destruct (word_quote "src=" s3) eqn:Hw; [|done].
  rewrite compile_cat_cons, compile_not_absolute.
  destruct (refused_at (b1 ++ a1 ++ a2 ++ a3 ++ s3) (b1 ++ a1 ++ a2 ++ a3) s3) as [_ H];
    [done|by rewrite <- !app_assoc|].
  change (drop (S (length (str "src="))) s3) with (drop 5 s3). by rewrite H.
Qed.

(** X17: when the URIs that [asWebviewUri] returns are percent-encoded
    (they begin with [http] and hold neither a quote nor [src=]), the
    third [replace] of [_convertResourcePaths] changes nothing, for
    every document, directory and file system: the resolver is the
    inlining of stylesheets followed by the rewriting of [src], and no
    script file is ever read into the page. *)
Theorem resolver_is_two_passes documentDir html :
  (∀ path, encoded_uri (asWebviewUri path) = true) →
  _convertResourcePaths path_join fs asWebviewUri documentDir html =
    src_pass path_join asWebviewUri documentDir (css_pass path_join fs documentDir html).
Proof. intros Henc. unfold _convertResourcePaths. by apply script_pass_never_fires. Qed.

(** X18: with such URIs the second [replace] leaves nothing that it
    would match again: run on its own result, it changes nothing. *)
Theorem src_pass_idempotent documentDir html :
  (∀ path, encoded_uri (asWebviewUri path) = true) →
  src_pass path_join asWebviewUri documentDir
    (src_pass path_join asWebviewUri documentDir html)
  = src_pass path_join asWebviewUri documentDir html.
Proof.
  intros Henc.
  pose proof (src_pass_leaves_none path_join asWebviewUri documentDir Henc
                (length html) html (le_n _)) as Hfree.
  unfold src_pass at 1. apply replace_all_none. intros b1 b2 Heq.
  apply src_match_dead. rewrite Heq in Hfree. by apply (free_of_suffix _ b1 b2).
Qed.

(** X19: when no file can be read (each path is missing, or the read
    throws), the first and the third [replace] return every document
    unchanged, whatever they match in it, and the resolver does what its
    second [replace] does alone. *)
Theorem unreadable_files_leave_document documentDir html :
  (∀ path, fs path = Missing ∨ fs path = Unreadable) →
  css_pass path_join fs documentDir html = html ∧
  script_pass path_join fs documentDir html = html ∧
  _convertResourcePaths path_join fs asWebviewUri documentDir html =
    src_pass path_join asWebviewUri documentDir html.
Proof.
  intros Hfs.
  assert (∀ t, css_pass path_join fs documentDir t = t) as Hcss.
  { intros t. apply replace_from_same. intros matched caps. unfold inline_css.
    by destruct (Hfs (path_join documentDir (arg 2 caps))) as [-> | ->]. }
  assert (∀ t, script_pass path_join fs documentDir t = t) as Hscript.
  { intros t. apply replace_from_same. intros matched caps. unfold inline_script.
    by destruct (Hfs (path_join documentDir (arg 2 caps))) as [-> | ->]. }
  split_and!; [done..|]. unfold _convertResourcePaths. by rewrite Hcss, Hscript.
Qed.

End MoreResolverFacts.

(** ** The resolver of the side-bar generation *)

Lemma starts_with_longer w1 w2 s :
  starts_with true w1 s = false → starts_with true (w1 ++ w2) s = false.
Proof.
  revert s. induction w1 as [|c w1 IH]; intros s E; [done|].
  destruct s as [|x s]; [done|]. cbn [starts_with app] in *.
  destruct (same_char true c x); [|done]. by apply IH.
Qed.

(** The lookahead of the side-bar patterns refuses the same values. *)
Lemma side_bar_not_absolute s caps k :
  compile true SideBarResolver.not_absolute s caps k =
    if looks_absolute s then None else k s caps.
Proof.
  unfold SideBarResolver.not_absolute, looks_absolute.
  change (compile true (NegLookahead ?r) s caps k)
    with (match compile true r s caps (λ s' caps', Some (s', caps')) with
          | Some _ => None | None => k s caps end).
  repeat change (compile true (Or ?r1 ?r2) ?s ?c ?k')
    with (or_else (compile true r1 s c k') (compile true r2 s c k')).
  rewrite !compile_lit.
  destruct (starts_with true (str "http") s) eqn:E; [done|].
  change (str "https") with (str "http" ++ str "s").
  rewrite (starts_with_longer (str "http") (str "s") s E).
  change (str "https://") with (str "http" ++ str "s://").
  rewrite (starts_with_longer (str "http") (str "s://") s E).
  cbn [or_else]. destruct (starts_with true (str "//") s); [done|].
  by destruct (starts_with true (str "data:") s).
Qed.

Lemma href_name_chars name :
  same_text name (str "href=") →
  ∃ y1 y2 y3 y4 y5, name = [y1; y2; y3; y4; y5] ∧
    same_char true "h" y1 = true ∧ is_quote y1 = false.
Proof.
  intros H. cbn in H.
  repeat (apply Forall2_cons_inv_r in H as (? & ? & ? & H & ->)).
  apply Forall2_nil_inv_r in H as ->.
  match goal with
  | Hh : same_char true ?y "h" = true |- _ =>
      eexists y, _, _, _, _; split; [done|]; rewrite same_char_sym; split; [done|];
      clear -Hh; unfold same_char in Hh; apply bool_decide_eq_true in Hh;
      destruct y as [[] [] [] [] [] [] [] []]; vm_compute in Hh;
        first [discriminate Hh | reflexivity]
  end.
Qed.

Lemma href_name_not_straddling b2 name q X :
  b2 ≠ [] → free_of (word_quote "href=") b2 = true →
  same_text name (str "href=") →
  word_quote "href=" (b2 ++ name ++ q :: X) = false.
Proof.
  intros Hne Hfree Hname.
  destruct (href_name_chars name Hname) as (y1 & y2 & y3 & y4 & y5 & -> & H1 & Hq1).
  pose proof (free_of_suffix _ [] b2 Hfree) as H0.
  destruct b2 as [|x1 [|x2 [|x3 [|x4 [|x5 [|x6 b2]]]]]]; [done|..].
  all: revert H0; unfold word_quote;
    cbn [str String.list_ascii_of_string starts_with app length drop].
  all: try (intros H0; exact H0).
  all: intros _.
  - rewrite (same_char_via _ _ "r" H1).
    change (same_char true "r" "h") with false. split_chars; reflexivity.
  - rewrite (same_char_via _ _ "e" H1).
    change (same_char true "e" "h") with false. split_chars; reflexivity.
  - rewrite (same_char_via _ _ "f" H1).
    change (same_char true "f" "h") with false. split_chars; reflexivity.
  - rewrite (same_char_via _ _ "=" H1).
    change (same_char true "=" "h") with false. split_chars; reflexivity.
  - rewrite Hq1. split_chars; reflexivity.
Qed.

Section SideBarFacts.

Variable path_join : text → text → text.
Variable asWebviewUri : text → text.

(** X20: in the side-bar generation every [href=] in any letter case
    with a quoted value that stands on one line, holds no quote and does
    not begin with [http], [//] or [data:], behind text without [href=]
    and quote, is replaced by [href="U"] with the webview URI [U] of
    [path.join(documentDir, value)]: stylesheet links are rewritten, not
    inlined, and so are links to pages and to anchors such as [#top].
    When the text so obtained holds no [src=] and quote, it is what
    [_convertResourcePaths] returns. *)
Theorem side_bar_href_rewritten documentDir pre name q p q' post :
  free_of (word_quote "href=") pre = true →
  plain_href_attribute name q p q' = true →
  let result :=
    pre ++ str "href=" ++ dq :: asWebviewUri (path_join documentDir p) ++
      dq :: SideBarResolver.href_pass path_join asWebviewUri documentDir post in
  SideBarResolver.href_pass path_join asWebviewUri documentDir
    (pre ++ name ++ q :: p ++ q' :: post) = result ∧
  (free_of (word_quote "src=") result = true →
   SideBarResolver._convertResourcePaths path_join asWebviewUri documentDir
     (pre ++ name ++ q :: p ++ q' :: post) = result).
Proof.
  intros Hpre Hplain result.
  revert Hplain. unfold plain_href_attribute. rewrite !andb_true_iff.
  intros [[[[Hlen%bool_decide_eq_true Hname] Hq] Hp] Hq'].
  assert (same_text name (str "href=")) as Hsame by by apply starts_with_same_length.
  assert (SideBarResolver.href_pass path_join asWebviewUri documentDir
            (pre ++ name ++ q :: p ++ q' :: post) = result) as Hhref.
  { unfold SideBarResolver.href_pass. rewrite replace_all_prefix.
    2:{ intros b1 b2 -> Hb2. unfold match_here, SideBarResolver.href_pattern.
        rewrite compile_word_quote, href_name_not_straddling; [done..| |done].
        by eapply free_of_drop. }
    rewrite (replace_all_match _ _ _ _ post [(1%nat, p)]).
    - unfold SideBarResolver.to_href_uri, arg. simpl capture. cbn [default from_option].
      unfold result, SideBarResolver.href_pass. by rewrite <- !app_assoc.
    - by apply (attribute_match_exact "href=" _ _ _ _ _ _ side_bar_not_absolute).
    - rewrite !length_app. simpl. rewrite length_app. simpl. lia. }
  split; [done|]. intros Hsrc. unfold SideBarResolver._convertResourcePaths. rewrite Hhref.
  unfold SideBarResolver.src_pass. apply replace_all_none. intros b1 b2 Heq.
  unfold match_here, SideBarResolver.src_pattern.
  rewrite compile_word_quote. rewrite Heq in Hsrc.
  by rewrite (free_of_suffix _ b1 b2 Hsrc).
Qed.

End SideBarFacts.

(** ** Stylesheet links *)

Lemma reads_as_same_text w ys : reads_as w ys = true → same_text ys (str w).
Proof.
  unfold reads_as. intros [Hlen%bool_decide_eq_true H]%andb_true_iff.
  by apply starts_with_same_length.
Qed.

(** The first character of a word that reads as [w]. *)
Lemma same_text_head c w ys :
  same_text ys (c :: w) → ∃ y ys', ys = y :: ys' ∧ same_char true c y = true ∧ length ys' = length w.
Proof.
  intros H. apply Forall2_cons_inv_r in H as (y & ys' & Hy & H & ->).
  exists y, ys'. split_and!; [done|by rewrite same_char_sym|by eapply Forall2_length].
Qed.

Lemma not_quote_via c y :
  is_quote c = false → same_char true c y = true → is_quote y = false.
Proof.
  intros Hc Hy. unfold same_char in Hy. apply bool_decide_eq_true in Hy.
  destruct (is_quote y) eqn:E; [|done]. exfalso.
  apply is_quote_cases in E as [->| ->];
    clear -Hy Hc; destruct c as [[] [] [] [] [] [] [] []]; vm_compute in Hy, Hc;
    first [discriminate Hy | discriminate Hc].
Qed.

(** [.css] and [<link] in any letter case cannot begin in the text
    before one of their occurrences without lying in it. *)
Lemma css_not_straddling b2 ext q X :
  b2 ≠ [] → free_of (word_quote ".css") b2 = true →
  same_text ext (str ".css") →
  word_quote ".css" (b2 ++ ext ++ q :: X) = false.
Proof.
  intros Hne Hfree Hext.
  destruct (same_text_head _ _ _ Hext) as (y1 & ext' & -> & H1 & _).
  pose proof (not_quote_via "." y1 eq_refl H1) as Hq1.
  pose proof (free_of_suffix _ [] b2 Hfree) as H0.
  destruct b2 as [|x1 [|x2 [|x3 [|x4 [|x5 b2]]]]]; [done|..].
  all: revert H0; unfold word_quote;
    cbn [str String.list_ascii_of_string starts_with app length drop].
  all: try (intros H0; exact H0).
  all: intros _.
  - rewrite (same_char_via _ _ "c" H1).
    change (same_char true "c" ".") with false. split_chars; reflexivity.
  - rewrite (same_char_via _ _ "s" H1).
    change (same_char true "s" ".") with false. split_chars; reflexivity.
  - rewrite (same_char_via _ _ "s" H1).
    change (same_char true "s" ".") with false. split_chars; reflexivity.
  - rewrite Hq1. split_chars; reflexivity.
Qed.

Lemma link_not_straddling b2 l X :
  b2 ≠ [] → free_of (starts_with true (str "<link")) b2 = true →
  same_text l (str "<link") →
  starts_with true (str "<link") (b2 ++ l ++ X) = false.
Proof.
  intros Hne Hfree Hl.
  destruct (same_text_head _ _ _ Hl) as (y1 & l' & -> & H1 & _).
  pose proof (free_of_suffix _ [] b2 Hfree) as H0.
  destruct b2 as [|x1 [|x2 [|x3 [|x4 [|x5 b2]]]]]; [done|..].
  all: revert H0; cbn [str String.list_ascii_of_string starts_with app length drop].
  all: try (intros H0; exact H0).
  all: intros _.
  - rewrite (same_char_via _ _ "l" H1).
    change (same_char true "l" "<") with false. split_chars; reflexivity.
  - rewrite (same_char_via _ _ "i" H1).
    change (same_char true "i" "<") with false. split_chars; reflexivity.
  - rewrite (same_char_via _ _ "n" H1).
    change (same_char true "n" "<") with false. split_chars; reflexivity.
  - rewrite (same_char_via _ _ "k" H1).
    change (same_char true "k" "<") with false. split_chars; reflexivity.
Qed.

Lemma link_tag_app l w before name q stem ext q' after post :
  link_tag l w before name q (stem ++ ext) q' after ++ post =
  l ++ w :: before ++ name ++ q :: stem ++ ext ++ q' :: after ++ ">"%char :: post.
Proof.
  unfold link_tag.
  repeat (rewrite <- ?app_assoc; rewrite <- ?app_comm_cons; f_equal).
Qed.

Lemma drop_word (ys : text) (w : string) r :
  same_text ys (str w) → drop (length (str w)) (ys ++ r) = r.
Proof. intros H. by rewrite <- (Forall2_length _ _ _ H), drop_app_length. Qed.

Lemma drop_word_quote (ys : text) (w : string) q r :
  same_text ys (str w) → drop (S (length (str w))) (ys ++ q :: r) = r.
Proof. intros H. rewrite <- (Forall2_length _ _ _ H). apply drop_past_quote. Qed.

Lemma link_tag_tail name q stem ext q' after post b2 caps :
  no_gt b2 = true → free_of (word_quote "href=") b2 = true →
  same_text name (str "href=") → is_quote q = true →
  forallb (λ x, negb (line_terminator x)) stem = true →
  free_of (word_quote ".css") stem = true →
  same_text ext (str ".css") →
  looks_absolute (stem ++ ext) = false →
  is_quote q' = true → no_gt after = true →
  ∃ res,
    compile true
      (cat [Group 1 (Star false (Atom (NoneOf [">"%char])));
            lit "href="; Atom (OneOf [dq; sq]); not_absolute;
            Group 2 (Cat (Star false (Atom Dot)) (lit ".css"));
            Atom (OneOf [dq; sq]);
            Group 3 (Star false (Atom (NoneOf [">"%char])));
            Atom (Chr ">")])
      (b2 ++ name ++ q :: stem ++ ext ++ q' :: after ++ ">"%char :: post)
      caps (λ s' caps', Some (s', caps')) = Some res ∧
    hit post (stem ++ ext) res.
Proof.
  intros Hbefore Hhref Hname Hq Hstem Hcss Hext Hrel Hq' Hafter.
  rewrite compile_cat_cons, compile_group, compile_star.
  rewrite lazy_star_skip.
  2:{ by apply no_gt_accepts. }
  2:{ intros b1 b3 -> Hb3. rewrite compile_word_quote, href_name_not_straddling; [done..| |done].
      by eapply free_of_drop. }
  eexists. split.
  { apply lazy_star_here.
    rewrite compile_word_quote, word_quote_same_text, drop_word_quote by done.
    rewrite compile_cat_cons, compile_not_absolute.
    rewrite (app_assoc stem), looks_absolute_before_quote, Hrel, <- (app_assoc stem) by done.
    rewrite compile_cat_cons, compile_group, compile_seq, compile_star.
    rewrite lazy_star_skip.
    2:{ apply Forall_forall. intros x Hx. rewrite forallb_forall in Hstem.
        apply (Hstem x). by apply list_elem_of_In. }
    2:{ intros b1 b3 -> Hb3.
        rewrite (compile_lit_quote ".css" _ _ _
                   (λ s' caps', (2, take (length ((b1 ++ b3) ++ ext ++ q' :: after ++ ">"%char :: post) - length s') ((b1 ++ b3) ++ ext ++ q' :: after ++ ">"%char :: post)) :: caps')).
        rewrite css_not_straddling; [done..| |done]. by eapply free_of_drop. }
    apply lazy_star_here.
    rewrite (compile_lit_quote ".css" _ _ _
               (λ s' caps', (2, take (length (stem ++ ext ++ q' :: after ++ ">"%char :: post) - length s') (stem ++ ext ++ q' :: after ++ ">"%char :: post)) :: caps')).
    rewrite word_quote_same_text, drop_word_quote, drop_word by done.
    rewrite compile_cat_cons, compile_group, compile_star.
    rewrite lazy_star_skip.
    2:{ by apply no_gt_accepts. }
    2:{ intros b1 b3 -> Hb3. destruct b3 as [|x b3]; [done|].
        rewrite compile_cat_cons. cbn [app]. rewrite compile_atom, not_gt_char; [done|].
        apply no_gt_accepts in Hafter. rewrite Forall_app, Forall_cons in Hafter. tauto. }
    apply lazy_star_here.
    rewrite compile_cat_cons, compile_atom.
    replace (accepts true (Chr ">") ">"%char) with true by reflexivity.
    rewrite compile_cat_nil. reflexivity. }
  split; [done|]. cbn [snd capture].
  rewrite decide_False, decide_True by done.
  f_equal. rewrite (app_assoc stem). apply take_consumed.
Qed.

Lemma plain_css_link_parts l w before name q stem ext q' after :
  plain_css_link l w before name q stem ext q' after = true →
  same_text l (str "<link") ∧ white_space w = true ∧ no_gt before = true ∧
  free_of (word_quote "href=") before = true ∧ same_text name (str "href=") ∧
  is_quote q = true ∧ forallb (λ x, negb (line_terminator x)) stem = true ∧
  free_of (word_quote ".css") stem = true ∧ same_text ext (str ".css") ∧
  looks_absolute (stem ++ ext) = false ∧ is_quote q' = true ∧ no_gt after = true.
Proof.
  unfold plain_css_link. rewrite !andb_true_iff, negb_true_iff.
  intros (((((((((((Hl & Hw) & Hbefore) & Hhref) & Hname) & Hq) & Hstem) & Hcss) & Hext)
            & Hrel) & Hq') & Hafter).
  split_and!; try done; by apply reads_as_same_text.
Qed.

(** The first attempt that can succeed on a plain tag is the whole tag. *)
Lemma link_tag_match l w before name q stem ext q' after post :
  plain_css_link l w before name q stem ext q' after = true →
  ∃ caps,
    match_here true link_css_pattern
      (link_tag l w before name q (stem ++ ext) q' after ++ post) = Some (post, caps) ∧
    capture 2 caps = Some (stem ++ ext).
Proof.
  intros (Hl & Hw & Hbefore & Hhref & Hname & Hq & Hstem & Hcss & Hext & Hrel & Hq' & Hafter)
    %plain_css_link_parts.
  rewrite link_tag_app. unfold match_here, link_css_pattern.
  rewrite compile_cat_cons, compile_lit, starts_with_of_same_text, drop_word by done.
  rewrite compile_cat_cons.
  change (compile true (Plus true ?r) ?s ?c ?k)
    with (compile true r s c (λ s' caps',
            repeat_matcher true (compile true r) (length s') s' caps' k)).
  rewrite compile_atom. change (accepts true WhiteSpace w) with (white_space w). rewrite Hw.
  destruct (greedy_star_run true (hit post (stem ++ ext)) WhiteSpace before
    (name ++ q :: stem ++ ext ++ q' :: after ++ ">"%char :: post) []
    (λ s' caps', compile true
           (cat
              [Group 1 (Star false (Atom (NoneOf [">"%char])));
               lit "href="; Atom (OneOf [dq; sq]); not_absolute;
               Group 2 (Cat (Star false (Atom Dot)) (lit ".css"));
               Atom (OneOf [dq; sq]);
               Group 3 (Star false (Atom (NoneOf [">"%char])));
               Atom (Chr ">")])
           s' caps' (λ s'0 caps0, Some (s'0, caps0))))
    as ([rest caps] & Hres & Hhit1 & Hhit2).
  { destruct (same_text_head _ _ _ Hname) as (y1 & name' & -> & H1 & _).
    cbn [app]. change (accepts true WhiteSpace y1) with (white_space y1).
    clear -H1. unfold same_char in H1. apply bool_decide_eq_true in H1.
    destruct y1 as [[] [] [] [] [] [] [] []]; vm_compute in H1; first [discriminate H1|reflexivity]. }
  { intros b1 b2 ->. apply link_tag_tail; try done.
    - by eapply forallb_drop.
    - by eapply free_of_drop. }
  simpl in Hhit1, Hhit2. subst rest. by exists caps.
Qed.

Section StylesheetLinkFacts.
Variable path_join : text → text → text.
Variable fs : text → found.
Variable asWebviewUri : text → text.

(** Where no match begins, every attempt fails. *)
Lemma unmatched_before_suffix b1 b2 rest :
  unmatched_before (b1 ++ b2) rest = true → b2 ≠ [] →
  match_here true link_css_pattern (b2 ++ rest) = None.
Proof.
  unfold unmatched_before. rewrite forallb_forall. intros H Hne.
  specialize (H b2 (proj1 (list_elem_of_In _ _) (elem_of_tails b1 b2))).
  destruct b2 as [|x b2]; [done|].
  apply negb_true_iff, bool_decide_eq_false in H.
  destruct (match_here true link_css_pattern _); [|done]. by destruct H.
Qed.

(** No match begins before the first [<link]. *)
Lemma unmatched_before_first_link pre l X :
  free_of (starts_with true (str "<link")) pre = true →
  reads_as "<link" l = true →
  unmatched_before pre (l ++ X) = true.
Proof.
  intros Hfree Hl%reads_as_same_text. unfold unmatched_before. apply forallb_forall. intros t Ht.
  destruct t as [|x t]; [done|].
  apply negb_true_iff, bool_decide_eq_false. intros [res Hres].
  apply list_elem_of_In, elem_of_tails_inv in Ht as [b1 ->].
  unfold match_here, link_css_pattern in Hres.
  rewrite compile_cat_cons, compile_lit, link_not_straddling in Hres; [done..| |done].
  by eapply free_of_drop.
Qed.

(** X26: a plain link tag ([plain_css_link]: [<link] in any letter
    case, a white-space character, attribute text without [>] and
    without an earlier [href=] and quote, [href=] in any letter case, a
    quote, a path on one line that ends in [.css] in any letter case,
    holds [.css] and a quote nowhere before its end and does not begin
    with [http], [//] or [data:], a quote, attribute text without [>],
    and [>]) before which no match of the link pattern begins (as when
    no [<link] precedes it).  The first [replace] puts, in the place of
    exactly this tag, a style element with the text of the file at
    [path.join(documentDir, path)] when that file exists and can be
    read, and leaves the tag as it is otherwise; the text before the tag
    is kept and the pass goes on with the text after it.  When the text
    so obtained holds no [src=] and quote, it is what the resolver
    returns. *)
Theorem css_link_inlined documentDir pre l w before name q stem ext q' after post :
  unmatched_before pre (link_tag l w before name q (stem ++ ext) q' after ++ post) = true →
  plain_css_link l w before name q stem ext q' after = true →
  let cssPath := stem ++ ext in
  let tag := link_tag l w before name q cssPath q' after in
  let inlined :=
    match fs (path_join documentDir cssPath) with
    | File cssContent => str "<style>" ++ cssContent ++ str "</style>"
    | Unreadable | Missing => tag
    end in
  let result := pre ++ inlined ++ css_pass path_join fs documentDir post in
  css_pass path_join fs documentDir (pre ++ tag ++ post) = result ∧
  (free_of (word_quote "src=") result = true →
   _convertResourcePaths path_join fs asWebviewUri documentDir (pre ++ tag ++ post)
     = result).
Proof.
  intros Hpre Hplain cssPath tag inlined result.
  assert (css_pass path_join fs documentDir (pre ++ tag ++ post) = result) as Hcss.
  { unfold css_pass. rewrite replace_all_prefix.
    2:{ intros b1 b2 -> Hb2. by eapply unmatched_before_suffix. }
    destruct (link_tag_match l w before name q stem ext q' after post Hplain) as (caps & Hm & Hc).
    fold cssPath tag in Hm. fold cssPath in Hc.
    rewrite (replace_all_match _ _ _ _ _ _ Hm).
    2:{ rewrite length_app. unfold tag, link_tag. rewrite !length_app. simpl. lia. }
    rewrite take_consumed. unfold result, inlined, inline_css, arg. by rewrite Hc. }
  split; [done|]. intros Hsrc.
  unfold _convertResourcePaths. rewrite Hcss.
  destruct (src_free_unchanged path_join fs asWebviewUri documentDir result Hsrc) as [-> ->]. done.
Qed.
End StylesheetLinkFacts.

(** * Properties of the page *)

(** The two pages differ in their first 40 characters. *)
Lemma page_not_empty tabsHtml contentHtml : page tabsHtml contentHtml ≠ _getEmptyHtml.
Proof.
  intros H. apply (f_equal (take 40)) in H. vm_compute in H. discriminate H.
Qed.

Section PageFacts.

Variable basename : string → string.
Variable path_join : text → text → text.
Variable fs : text → found.
Variable asWebviewUri : text → text.
Variable dirname : string → text.
Variable _getFileBrowserHtml : text.

(** X23: [_getHtmlForWebview] returns the page of [_getEmptyHtml]
    exactly when the active id names no tab of the store, whatever tabs
    the store holds; and that page holds no script and no [onclick]
    handler, so that nothing in it can post a message to the
    extension. *)
Theorem empty_page_iff_stale p :
  (_getHtmlForWebview path_join fs asWebviewUri dirname _getFileBrowserHtml p = _getEmptyHtml
     ↔ _activeTabId p ∉ ids p) ∧
  free_of (starts_with true (str "<script")) _getEmptyHtml = true ∧
  free_of (starts_with true (str "onclick")) _getEmptyHtml = true.
Proof.
  split_and!; [|reflexivity..].
  unfold _getHtmlForWebview.
  destruct (list_find _ _) as [[i t]|] eqn:E.
  - split; [by intros ?%page_not_empty|].
    intros Hout. exfalso. apply Hout.
    apply list_find_Some in E as (Hi & Hid & _). unfold ids. rewrite <- Hid.
    apply list_elem_of_fmap_2. by eapply list_elem_of_lookup_2.
  - split; [|done]. intros _ (t & Hid & Hin)%list_elem_of_fmap.
    rewrite list_find_None, Forall_forall in E. by apply (E t).
Qed.

(** X24: in every store of a session whose [switchTab] requests name
    tabs of the store, the page is the one with the tab bar, made of one
    entry per tab in the order of the store, and never the page of
    [_getEmptyHtml].  Its content is the file browser exactly when the
    content of the active tab is empty (also for a tab bound to an empty
    document), and otherwise the preview of that content for the uri of
    the tab: a tab with content has a uri, so the test of the uri in the
    code decides nothing. *)
Theorem session_page editor0 calls :
  switches_known basename (constructor basename editor0) calls = true →
  let p := session basename editor0 calls in
  ∃ t, activeTab p = Some t ∧
    _getHtmlForWebview path_join fs asWebviewUri dirname _getFileBrowserHtml p =
      page (concat (tabHtml p <$> _tabs p))
        (if decide (content t = "") then _getFileBrowserHtml
         else _getPreviewContent path_join fs asWebviewUri dirname
                (str (content t)) (default "" (uri t))) ∧
    (content t ≠ "" → is_Some (uri t)).
Proof.
  intros Hk p.
  assert (store_ok p) as [_ Hact] by (apply run_ok; [apply addNewTab_ok|done]).
  unfold _getHtmlForWebview, activeTab.
  destruct (list_find _ _) as [[i t]|] eqn:E.
  2:{ exfalso. apply list_elem_of_fmap in Hact as (t & Hid & Hin).
      rewrite list_find_None, Forall_forall in E. by apply (E t). }
  exists t. split; [done|].
  apply list_find_Some in E as (Hi & _ & _).
  pose proof (session_blank_or_bound basename editor0 calls) as Hall.
  rewrite Forall_forall in Hall.
  destruct (Hall t (list_elem_of_lookup_2 _ _ _ Hi)) as [[k ->]|(d & Hd & Ht)].
  - simpl. split; [done|]. by intros [].
  - rewrite Ht. simpl. split; [|by eexists]. by case_decide.
Qed.

(** ** The page in the webview *)

Lemma rendered_sync ed v :
  Rendered.this
    (Rendered._updateActiveTabFromEditor basename path_join fs asWebviewUri dirname
       _getFileBrowserHtml ed v)
    = _updateActiveTabFromEditor basename ed (Rendered.this v) ∧
  (Rendered.shown path_join fs asWebviewUri dirname _getFileBrowserHtml v →
   Rendered.shown path_join fs asWebviewUri dirname _getFileBrowserHtml
     (Rendered._updateActiveTabFromEditor basename path_join fs asWebviewUri dirname
        _getFileBrowserHtml ed v)).
Proof.
  unfold Rendered._updateActiveTabFromEditor, _updateActiveTabFromEditor.
  destruct ed as [d|]; [|done]. case_decide; [done|].
  by destruct (list_find _ _) as [[i t]|].
Qed.

Lemma rendered_addNewTab ed v :
  Rendered.this
    (Rendered._addNewTab basename path_join fs asWebviewUri dirname
       _getFileBrowserHtml ed v)
    = _addNewTab basename ed (Rendered.this v).
Proof. unfold Rendered._addNewTab, _addNewTab. by rewrite (proj1 (rendered_sync _ _)). Qed.

Lemma rendered_closeTab ed tabId v :
  Rendered.this
    (Rendered._closeTab basename path_join fs asWebviewUri dirname
       _getFileBrowserHtml ed tabId v)
    = _closeTab basename ed tabId (Rendered.this v) ∧
  (Rendered.shown path_join fs asWebviewUri dirname _getFileBrowserHtml v →
   Rendered.shown path_join fs asWebviewUri dirname _getFileBrowserHtml
     (Rendered._closeTab basename path_join fs asWebviewUri dirname
        _getFileBrowserHtml ed tabId v)).
Proof.
  unfold Rendered._closeTab, _closeTab.
  destruct (list_find _ _) as [[i t]|] eqn:E; [|done]. simpl.
  apply list_find_Some in E as (Hi & _ & _).
  pose proof (length_delete (_tabs (Rendered.this v)) i (mk_is_Some _ _ Hi)) as Hdel.
  apply lookup_lt_Some in Hi.
  case_decide; [|done]. case_decide as Hlen.
  - destruct (delete i (_tabs (Rendered.this v)) !! _) eqn:E'; [done|].
    apply lookup_ge_None in E'. lia.
  - split; [|done]. simpl. by rewrite rendered_addNewTab.
Qed.

Lemma rendered_serve call v :
  Rendered.this
    (Rendered.serve basename path_join fs asWebviewUri dirname _getFileBrowserHtml call v)
    = serve basename call (Rendered.this v) ∧
  (Rendered.shown path_join fs asWebviewUri dirname _getFileBrowserHtml v →
   Rendered.shown path_join fs asWebviewUri dirname _getFileBrowserHtml
     (Rendered.serve basename path_join fs asWebviewUri dirname _getFileBrowserHtml call v)).
Proof.
  destruct call as [ed [|tabId|tabId|]]; simpl.
  - split; [|done]. unfold Rendered.addNewTab. simpl. apply rendered_addNewTab.
  - done.
  - apply rendered_closeTab.
  - apply rendered_sync.
Qed.

(** X25: the methods call [_update()] on every path that changes the
    fields.  After the constructor and after every request, the page
    that the webview holds is the rendering of the fields as they are
    then (for a file system that stays as it is), and the fields are
    those of the store without the page: the webview never shows a
    store that is out of date. *)
Theorem webview_shows_current_store editor0 calls :
  let v := Rendered.session basename path_join fs asWebviewUri dirname _getFileBrowserHtml
             editor0 calls in
  Rendered.this v = session basename editor0 calls ∧
  Rendered.html v =
    _getHtmlForWebview path_join fs asWebviewUri dirname _getFileBrowserHtml
      (session basename editor0 calls).
Proof.
  intros v.
  assert (Rendered.this v = session basename editor0 calls ∧
          Rendered.shown path_join fs asWebviewUri dirname _getFileBrowserHtml v)
    as [H1 H2].
  { unfold v, Rendered.session, session.
    induction calls as [|call calls IH] using rev_ind.
    - split; [|done]. unfold Rendered.constructor. simpl. apply rendered_addNewTab.
    - rewrite !foldl_snoc. destruct IH as [IH1 IH2].
      destruct (rendered_serve call
        (foldl (λ v call,
                  Rendered.serve basename path_join fs asWebviewUri dirname
                    _getFileBrowserHtml call v)
           (Rendered.constructor basename path_join fs asWebviewUri dirname
              _getFileBrowserHtml editor0) calls)) as [H1 H2].
      split; [by rewrite H1, IH1|by apply H2]. }
  split; [done|]. unfold Rendered.shown in H2. by rewrite H2, H1.
Qed.

End PageFacts.

(** * Sample runs of the further properties *)

(** Scenario A with an HTML document focused: a synchronisation leaves
    the first tab, which is in the background, as it is. *)
Lemma background_tab_untouched_witness :
  T1 ∈ _tabs (session plain_name None scenario_A_calls) ∧
  id T1 ≠ _activeTabId (session plain_name None scenario_A_calls) ∧
  T1 ∈ _tabs (serve plain_name (Some index_v1, Sync)
                (session plain_name None scenario_A_calls)).
Proof.
  assert (T1 ∈ _tabs (session plain_name None scenario_A_calls)) as Hin
    by apply list_elem_of_here.
  assert (id T1 ≠ _activeTabId (session plain_name None scenario_A_calls)) as Hbg
    by discriminate.
  assert ((Some index_v1, Sync).2 ≠ CloseTab (id T1)) as Hcall by discriminate.
  split_and!; [exact Hin|exact Hbg|].
  exact (background_tab_untouched plain_name None scenario_A_calls
           (Some index_v1, Sync) T1 Hin Hbg Hcall).
Defined.

(** Scenario A: the second tab, and no other, is the active one. *)
Lemma exactly_one_active_tab_witness :
  switches_known plain_name (constructor plain_name None) scenario_A_calls = true ∧
  ∃ i t, _tabs (session plain_name None scenario_A_calls) !! i = Some t ∧
    id t = _activeTabId (session plain_name None scenario_A_calls) ∧
    activeTab (session plain_name None scenario_A_calls) = Some t ∧
    ∀ j t', _tabs (session plain_name None scenario_A_calls) !! j = Some t' →
      id t' = _activeTabId (session plain_name None scenario_A_calls) → j = i ∧ t' = t.
Proof.
  split; [reflexivity|].
  exact (exactly_one_active_tab plain_name None scenario_A_calls eq_refl).
Defined.

(** After a stale [switchTab], closing the only tab empties the store. *)
Lemma dangling_active_id_persists_witness :
  (_activeTabId stale_panel ∉ ids stale_panel) ∧
  _tabs stale_panel = [T1] ∧
  _tabs (_closeTab plain_name (Some index_v1) "tab-1" stale_panel) = [].
Proof.
  assert (_activeTabId stale_panel ∉ ids stale_panel) as Hout.
  { intros Hin. vm_compute in Hin. apply list_elem_of_singleton in Hin. discriminate Hin. }
  split_and!; [exact Hout|reflexivity|].
  pose proof (dangling_active_id_persists plain_name (Some index_v1) "tab-1"
                stale_panel Hout) as H.
  cbv zeta in H. destruct H as (_ & _ & _ & _ & Hempty & _).
  exact (Hempty T1 eq_refl eq_refl).
Defined.

(** A panel opened with no editor, a synchronisation with the first
    sample document, and a second tab: the first tab holds the document,
    and keeps one when the second tab is closed. *)
Lemma tabs_blank_or_bound_witness :
  index_tab ∈ _tabs (session plain_name None bound_then_added) ∧
  (∃ k, (1 ≤ k ≤ 2)%nat ∧ id index_tab = tab_id_of k ∧
     ∃ document, Some document ∈ None :: bound_then_added.*1 ∧
       languageId document = "html" ∧ "/doc/index.html" = doc_uri document ∧
       title index_tab = plain_name (fileName document) ∧
       content index_tab = getText document) ∧
  (∀ t', t' ∈ _tabs (run plain_name [(Some index_v2, CloseTab "tab-2")]
                       (session plain_name None bound_then_added)) →
         id t' = id index_tab → uri t' ≠ None).
Proof.
  assert (index_tab ∈ _tabs (session plain_name None bound_then_added)) as Hin
    by apply list_elem_of_here.
  split; [exact Hin|].
  pose proof (tabs_blank_or_bound plain_name None bound_then_added index_tab Hin)
    as [Hstate Hkeeps].
  split; [exact Hstate|].
  intros t'. apply Hkeeps. discriminate.
Defined.

(** Two changes 100 ms apart, and 300 ms of quiet after the second. *)
Lemma debounce_coalesces_witness :
  subscribed (create plain_name (Some index_v1)) = true ∧
  content <$> activeTab (fields
    (play plain_name
       (burst ([(Some index_v1, 100%nat)] ++ [(Some index_v2, 250%nat)]))
       (create plain_name (Some index_v1)))) = Some "<h1>one</h1>" ∧
  play plain_name
    (burst ([(Some index_v1, 100%nat)] ++ [(Some index_v2, 250%nat)])
       ++ [(Some index_v2, Elapse 50)])
    (create plain_name (Some index_v1))
  = mkLive (_updateActiveTabFromEditor plain_name (Some index_v2)
              (fields (create plain_name (Some index_v1)))) None true 0.
Proof.
  assert (Forall (λ change : option TextDocument * nat, (change.2 < quiet_period)%nat)
            [(Some index_v1, 100%nat)]) as Hall.
  { apply Forall_singleton. unfold quiet_period. simpl. lia. }
  assert (250 < quiet_period)%nat as Hgap by (unfold quiet_period; lia).
  assert (quiet_period ≤ 250 + 50)%nat as Hms by (unfold quiet_period; lia).
  split_and!; [reflexivity..|].
  exact (proj2 (debounce_coalesces plain_name [(Some index_v1, 100%nat)]
                  (Some index_v2) 250 (Some index_v2) 50
                  (create plain_name (Some index_v1)) eq_refl Hall Hgap Hms)).
Defined.

(** A call of [_selectFile()] that waits when [dispose()] runs writes
    the tab when it returns, although no timer is pending; nothing else
    of the run writes. *)
Lemma selectFile_resumes_after_dispose :
  timeout selecting_then_disposed = None ∧
  content <$> activeTab (fields selecting_then_disposed) = Some "<h1>one</h1>" ∧
  content <$> activeTab (fields (play plain_name late_events selecting_then_disposed))
    = Some "<h1>two</h1>" ∧
  length (_tabs (fields (play plain_name late_events selecting_then_disposed))) = 1%nat.
Proof. by split_and!. Qed.


(** A stylesheet link written in capitals is inlined. *)
Lemma css_link_inlined_witness :
  unmatched_before (str "<head>") (capital_link ++ str "</head>") = true ∧
  plain_css_link (str "<LINK") " " (str "REL='stylesheet' ") (str "HREF=") dq
    (str "style") (str ".css") dq [] = true ∧
  _convertResourcePaths posix_join doc_dir cdn_uri (str "/doc") capital_page =
    str "<head>" ++ style_red ++ str "</head>".
Proof.
  split_and!; [reflexivity..|].
  pose proof (css_link_inlined posix_join doc_dir cdn_uri (str "/doc")
                (str "<head>") (str "<LINK") " " (str "REL='stylesheet' ") (str "HREF=") dq
                (str "style") (str ".css") dq [] (str "</head>") eq_refl eq_refl) as H.
  cbv zeta in H. destruct H as [_ H].
  exact (H eq_refl).
Defined.

Lemma escapeHtml_injective_witness :
  _escapeHtml (str "a&b") = _escapeHtml (str "a&b") ∧ str "a&b" = str "a&b".
Proof.
  split; [reflexivity|].
  exact (escapeHtml_injective (str "a&b") (str "a&b") eq_refl).
Defined.

(** The script goes before the closing body tag, not behind [</html>]. *)
Lemma navigation_script_before_body_witness :
  _convertResourcePaths posix_join doc_dir cdn_uri (doc_dirname "/doc/index.html") page_lower
    = str "<body><p>hi</p>" ++ str "</body>" ++ str "</html>" ∧
  free_of (starts_with false (str "</body>")) (str "<body><p>hi</p>") = true ∧
  _getPreviewContent posix_join doc_dir cdn_uri doc_dirname page_lower "/doc/index.html" =
    iframe (_escapeHtml
      (str "<body><p>hi</p>" ++ navigationScript ++ str "</body>" ++ str "</html>")).
Proof.
  split_and!; [reflexivity..|].
  exact (navigation_script_before_body posix_join doc_dir cdn_uri doc_dirname
           page_lower "/doc/index.html" (str "<body><p>hi</p>") (str "</html>")
           eq_refl eq_refl).
Defined.

(** An upper-case [</BODY>] is not found. *)
Lemma navigation_script_appended_witness :
  free_of (starts_with false (str "</body>"))
    (_convertResourcePaths posix_join doc_dir cdn_uri (doc_dirname "/doc/index.html")
       page_upper) = true ∧
  _getPreviewContent posix_join doc_dir cdn_uri doc_dirname page_upper "/doc/index.html" =
    iframe (_escapeHtml (page_upper ++ navigationScript)).
Proof.
  split; [reflexivity|].
  exact (navigation_script_appended posix_join doc_dir cdn_uri doc_dirname
           page_upper "/doc/index.html" eq_refl).
Defined.

Lemma src_attribute_rewritten_witness :
  free_of (word_quote "src=") (str "<img ") = true ∧
  plain_src_attribute (str "src=") sq (str "pic.png") sq = true ∧
  src_pass posix_join cdn_uri (str "/doc") image_tag =
    str "<img " ++ str "src=" ++ dq :: cdn_uri (str "/doc/pic.png") ++ dq :: str ">".
Proof.
  split_and!; [reflexivity..|].
  exact (proj1 (src_attribute_rewritten posix_join doc_dir cdn_uri (str "/doc")
                  (str "<img ") (str "src=") sq (str "pic.png") sq (str ">")
                  eq_refl eq_refl)).
Defined.

(** Relative paths that begin with the letters [http] are left alone. *)
Lemma http_prefixed_references_unchanged_witness :
  only_refused_references httpd_page = true ∧
  _convertResourcePaths posix_join doc_dir cdn_uri (str "/doc") httpd_page = httpd_page.
Proof.
  split; [reflexivity|].
  exact (http_prefixed_references_unchanged posix_join doc_dir cdn_uri (str "/doc")
           httpd_page eq_refl).
Defined.

Lemma resolver_is_two_passes_witness :
  (∀ path, encoded_uri (one_uri path) = true) ∧
  _convertResourcePaths posix_join doc_dir one_uri (str "/doc") script_tag =
    src_pass posix_join one_uri (str "/doc")
      (css_pass posix_join doc_dir (str "/doc") script_tag).
Proof.
  split; [intros path; reflexivity|].
  exact (resolver_is_two_passes posix_join doc_dir one_uri (str "/doc") script_tag
           (λ path, eq_refl)).
Defined.

Lemma src_pass_idempotent_witness :
  (∀ path, encoded_uri (one_uri path) = true) ∧
  src_pass posix_join one_uri (str "/doc") (src_pass posix_join one_uri (str "/doc") image_tag)
    = src_pass posix_join one_uri (str "/doc") image_tag.
Proof.
  split; [intros path; reflexivity|].
  exact (src_pass_idempotent posix_join one_uri (str "/doc") image_tag (λ path, eq_refl)).
Defined.

(** Scenario C without the file: the link stays. *)
Lemma unreadable_files_leave_document_witness :
  (∀ path, no_files path = Missing ∨ no_files path = Unreadable) ∧
  _convertResourcePaths posix_join no_files cdn_uri (str "/doc") scenario_C =
    src_pass posix_join cdn_uri (str "/doc") scenario_C.
Proof.
  split; [intros path; left; reflexivity|].
  exact (proj2 (proj2 (unreadable_files_leave_document posix_join no_files cdn_uri
                         (str "/doc") scenario_C (λ path, or_introl eq_refl)))).
Defined.

(** The side-bar generation rewrites the link to an anchor. *)
Lemma side_bar_href_rewritten_witness :
  free_of (word_quote "href=") (str "<a ") = true ∧
  plain_href_attribute (str "href=") sq (str "#top") sq = true ∧
  SideBarResolver.href_pass posix_join cdn_uri (str "/doc") anchor_tag =
    str "<a " ++ str "href=" ++ dq :: cdn_uri (str "/doc/#top") ++ dq :: str ">top</a>".
Proof.
  split_and!; [reflexivity..|].
  exact (proj1 (side_bar_href_rewritten posix_join cdn_uri (str "/doc")
                  (str "<a ") (str "href=") sq (str "#top") sq (str ">top</a>")
                  eq_refl eq_refl)).
Defined.

(** The page of a panel opened on an HTML document shows the preview. *)
Lemma session_page_witness :
  switches_known plain_name (constructor plain_name (Some index_v1)) [] = true ∧
  ∃ t, activeTab (session plain_name (Some index_v1) []) = Some t ∧
    _getHtmlForWebview posix_join doc_dir cdn_uri doc_dirname browser_page
      (session plain_name (Some index_v1) []) =
      page (concat (tabHtml (session plain_name (Some index_v1) []) <$>
                      _tabs (session plain_name (Some index_v1) [])))
        (if decide (content t = "") then browser_page
         else _getPreviewContent posix_join doc_dir cdn_uri doc_dirname
                (str (content t)) (default "" (uri t))) ∧
    (content t ≠ "" → is_Some (uri t)).
Proof.
  split; [reflexivity|].
  exact (session_page plain_name posix_join doc_dir cdn_uri doc_dirname browser_page
           (Some index_v1) [] eq_refl).
Defined.
